(** * Bar-chart-race animation: snapshot builder and frame interpolation

    A shallow embedding of [Modules/create_bar_animation.py]:
    [precompute_data] (sample timestamps and top-N snapshots), the cumulative
    aggregation of [create_bar_animation], and the per-frame step [animate]
    with the [AnimationState] it threads from frame to frame.

    Numbers that Python holds as ints or floats (metric values, bar widths,
    screen positions) are exact rationals [Q], compared with [==].
    Timestamps are [Z], nanoseconds since the epoch as pandas stores them. *)

From Stdlib Require Import ZArith QArith Qminmax Qround Lia Lqa.
From Stdlib Require Import String Ascii DecimalString.
From stdpp Require Import base decidable option list sorting gmap strings.

Local Open Scope Z_scope.

(** ** Python exceptions as an error monad *)

Inductive error := IndexError | KeyError | ZeroDivisionError | ValueError.

Inductive result (A : Type) :=
| Ok (a : A)
| Raise (e : error).
Arguments Ok {A} a.
Arguments Raise {A} e.

Definition bind {A B} (m : result A) (k : A → result B) : result B :=
  match m with
  | Ok a => k a
  | Raise e => Raise e
  end.

Notation "x ←! m ; k" := (bind m (λ x, k))
  (at level 20, m at level 100, k at level 200, right associativity,
   format "'[' x  ←!  m ;  '/' k ']'").

(** [l[i]] for a non-negative index [i]. *)
Definition getitem {A} (l : list A) (i : nat) : result A :=
  match l !! i with
  | Some x => Ok x
  | None => Raise IndexError
  end.

(** [l[-1]]. *)
Definition getitem_last {A} (l : list A) : result A :=
  match last l with
  | Some x => Ok x
  | None => Raise IndexError
  end.

(** [l[-1] = x] on a non-empty list. *)
Definition setitem_last {A} (l : list A) (x : A) : list A :=
  <[pred (length l) := x]> l.

(** [mapM]: a list comprehension whose body may raise. *)
Fixpoint traverse {A B} (f : A → result B) (l : list A) : result (list B) :=
  match l with
  | [] => Ok []
  | x :: l' =>
      y ←! f x;
      ys ←! traverse f l';
      Ok (y :: ys)
  end.

(** ** Module constants (lines 36-39) *)

Definition days : nat := 30.
Definition interp_steps_default : nat := 14.

(** [pd.Timedelta(days=d)] in nanoseconds. *)
Definition Timedelta_days (d : Z) : Z := d * 86400000000000.

(** ** Sample timestamps (lines 160-172) *)

(** A stable sort by a boolean "comes no later than" test: each element is
    put in front of the first element it may precede, so equal keys keep
    the order they had. *)
Fixpoint insert_sorted {A} (leb : A → A → bool) (x : A) (l : list A) : list A :=
  match l with
  | [] => [x]
  | y :: l' => if leb x y then x :: l else y :: insert_sorted leb x l'
  end.

Definition stable_sort {A} (leb : A → A → bool) (l : list A) : list A :=
  foldr (insert_sorted leb) [] l.

(** [sorted(l)] and [l.sort()] on timestamps. *)
Definition sorted (l : list Z) : list Z := stable_sort Z.leb l.

(** [Series.unique()]: distinct values in order of first appearance. *)
Fixpoint unique_from {A} `{EqDecision A} (seen l : list A) : list A :=
  match l with
  | [] => []
  | x :: l' =>
      if bool_decide (x ∈ seen) then unique_from seen l'
      else x :: unique_from (x :: seen) l'
  end.

Definition unique {A} `{EqDecision A} (l : list A) : list A := unique_from [] l.

(** [l[::k]] for a step [k >= 1]: the elements at indices 0, k, 2k, ... *)
Fixpoint slice_step_from {A} (k skip : nat) (l : list A) : list A :=
  match l with
  | [] => []
  | x :: l' =>
      match skip with
      | O => x :: slice_step_from k (pred k) l'
      | S s => slice_step_from k s l'
      end
  end.

Definition slice_step {A} (k : nat) (l : list A) : list A :=
  slice_step_from k 0 l.

(** The periods that survive the filter of line 164, after the start date
    has been moved four days on (line 162). *)
Definition window_timestamps (dates : list Z) (start_date end_date : Z)
  : list Z :=
  let start_date := start_date + Timedelta_days 4 in
  let timestamps := sorted (unique dates) in
  filter (λ ts, start_date ≤ ts ∧ ts ≤ end_date) timestamps.

(** The candidates of line 165, before the end date is forced in. *)
Definition candidate_timestamps (dates : list Z) (start_date end_date : Z)
  : list Z :=
  slice_step days (window_timestamps dates start_date end_date).

(** Lines 160-172: the timestamps [precompute_data] returns. *)
Definition sample_timestamps (dates : list Z) (start_date end_date : Z)
  : result (list Z) :=
  let timestamps := candidate_timestamps dates start_date end_date in
  last_ts ←! getitem_last timestamps;
  if bool_decide (last_ts ≠ end_date) then
    let timestamps :=
      if bool_decide (end_date > last_ts) then timestamps ++ [end_date]
      else setitem_last timestamps end_date in
    Ok (sorted timestamps)
  else Ok timestamps.

(** ** The aggregated table and its snapshots (lines 174-228) *)

Inductive attribute := track_name | album_name | artist_name.
Inductive metric := Streams | duration_ms.

(** A row of [monthly_df]. [col_Date] is a daily period (days since the
    epoch), [col_selected] the column named by [selected_attribute],
    [col_metric] the column named by [analysis_metric] and [col_Cumulative]
    the column [Cumulative_<analysis_metric>]. *)
Record Row := {
  col_Date : Z;
  col_selected : string;
  col_artist_name : string;
  col_track_uri : string;
  col_metric : Q;
  col_Cumulative : Q
}.

(** A row of [current_df]: one entity with its aggregated columns. *)
Record Entity := {
  ent_name : string;
  ent_Cumulative : Q;
  ent_artist_name : string;
  ent_track_uri : string
}.

(** One entry of [precomputed_data]. *)
Record Snapshot := {
  widths : list Q;
  labels : list string;
  names : list string;
  artist_names : list string
}.

(** [Series.dt.to_timestamp()] on a daily period: midnight of that day. *)
Definition to_timestamp (p : Z) : Z := Timedelta_days p.

(** [DataFrame.sort_values] on one column runs numpy's default sort, which
    promises a sorted permutation and nothing about rows with equal keys.
    A [sorter] is any function with that contract. *)
Record sorter {A} (R : relation A) := {
  sort_values :> list A → list A;
  sort_values_perm : ∀ l, sort_values l ≡ₚ l;
  sort_values_sorted : ∀ l, StronglySorted R (sort_values l)
}.
Arguments sort_values {A R} _ _.
Arguments sort_values_perm {A R} _ _.
Arguments sort_values_sorted {A R} _ _.

(** Order of [sort_values(by=[Cumulative], ascending=False)]. *)
Definition Cumulative_desc (a b : Entity) : Prop :=
  (ent_Cumulative b <= ent_Cumulative a)%Q.

(** The test of a stable sort by descending cumulative value. *)
Definition Cumulative_desc_leb (a b : Entity) : bool :=
  Qle_bool (ent_Cumulative b) (ent_Cumulative a).

(** Order of [sort_values([Cumulative, prev_rank], ascending=[False, True])]
    on rows paired with their [prev_rank]; several keys make pandas use a
    stable lexicographic sort. *)
Definition lexsort_leb (a b : Entity * nat) : bool :=
  match (ent_Cumulative a.1 ?= ent_Cumulative b.1)%Q with
  | Gt => true
  | Eq => (a.2 <=? b.2)%nat
  | Lt => false
  end.

(** [max] of a non-empty column. *)
Definition column_max (x : Q) (l : list Q) : Q := foldl Qmax x l.

Section precompute.
(** [textwrap_fill text width] is ["\n".join(textwrap.wrap(text, width))]. *)
Context (textwrap_fill : string → nat → string).
Context (quicksort : sorter Cumulative_desc).

(** [groupby(selected_attribute, as_index=False).agg(...)]: one row per
    distinct key, keys ascending; the maximum of the cumulative column and
    the first artist and uri of the group. For artists the artist column
    is then overwritten with the key (line 192). *)
Definition agg_group (selected_attribute : attribute) (k : string)
    (group : list Row) : option Entity :=
  match group with
  | [] => None
  | r :: group' =>
      Some {| ent_name := k;
              ent_Cumulative :=
                column_max (col_Cumulative r) (col_Cumulative <$> group');
              ent_artist_name :=
                match selected_attribute with
                | artist_name => k
                | _ => col_artist_name r
                end;
              ent_track_uri := col_track_uri r |}
  end.

Definition groupby_agg (selected_attribute : attribute) (df : list Row)
  : list Entity :=
  let keys := stable_sort String.leb (unique (col_selected <$> df)) in
  omap (λ k, agg_group selected_attribute k
               (filter (λ r, col_selected r = k) df)) keys.

(** [current_df] after line 194: the entities with data up to [ts], in
    the order the one-key sort leaves them. *)
Definition ranked (monthly_df : list Row) (selected_attribute : attribute)
    (ts : Z) : list Entity :=
  quicksort
    (groupby_agg selected_attribute (filter (λ r, col_Date r ≤ ts) monthly_df)).

Definition label_width (selected_attribute : attribute) : nat :=
  match selected_attribute with
  | track_name | album_name => 22
  | artist_name => 20
  end.

(** The body of the loop of lines 175-227 for one timestamp [ts];
    [monthly_df] already carries timestamps in [col_Date]. *)
Definition snapshot_at (monthly_df : list Row)
    (selected_attribute : attribute) (top_n : nat) (ts : Z) : Snapshot :=
  let cumulative_df := filter (λ r, col_Date r ≤ ts) monthly_df in
  let current_df := groupby_agg selected_attribute cumulative_df in
  let current_df := quicksort current_df in
  let with_prev_rank := (λ e, (e, top_n)) <$> current_df in
  let top_n_df := fst <$> take top_n (stable_sort lexsort_leb with_prev_rank) in
  let pad := (top_n - length top_n_df)%nat in
  {| widths := (ent_Cumulative <$> top_n_df) ++ replicate pad 0%Q;
     labels :=
       ((λ e, textwrap_fill (ent_name e) (label_width selected_attribute))
          <$> top_n_df) ++ replicate pad ""%string;
     names := (ent_name <$> top_n_df) ++ replicate pad ""%string;
     artist_names :=
       (ent_artist_name <$> top_n_df) ++ replicate pad ""%string |}.

Definition with_timestamps (monthly_df : list Row) : list Row :=
  (λ r, {| col_Date := to_timestamp (col_Date r);
           col_selected := col_selected r;
           col_artist_name := col_artist_name r;
           col_track_uri := col_track_uri r;
           col_metric := col_metric r;
           col_Cumulative := col_Cumulative r |}) <$> monthly_df.

(** [precompute_data]: the sample timestamps and the snapshot of each. *)
Definition precompute_data (monthly_df : list Row)
    (selected_attribute : attribute) (top_n : nat)
    (start_date end_date : Z) : result (list Z * gmap Z Snapshot) :=
  let monthly_df := with_timestamps monthly_df in
  timestamps ←! sample_timestamps (col_Date <$> monthly_df)
                  start_date end_date;
  let precomputed_data :=
    foldl (λ data ts,
             <[ts := snapshot_at monthly_df selected_attribute top_n ts]> data)
          ∅ timestamps in
  Ok (timestamps, precomputed_data).
End precompute.

(** The candidates as the specification words them: the distinct periods
    within the closed interval from [start_date] to [end_date], every
    [days]-th one. Kept apart from [candidate_timestamps] to compare. *)
Definition spec_candidate_timestamps (dates : list Z)
    (start_date end_date : Z) : list Z :=
  slice_step days
    (filter (λ ts, start_date ≤ ts ∧ ts ≤ end_date) (sorted (unique dates))).

(** The timestamps of the rows of [monthly_df] after line 160. *)
Definition event_timestamps (monthly_df : list Row) : list Z :=
  (λ r, to_timestamp (col_Date r)) <$> monthly_df.

(** ** Aggregation in [create_bar_animation] (lines 282-369) *)

(** A row of the event table [df]; [ev_Date] is a timestamp. *)
Record Event := {
  ev_Date : Z;
  ev_track_name : string;
  ev_album_name : string;
  ev_artist_name : string;
  ev_track_uri : string;
  ev_duration_ms : Q
}.

(** [Series.dt.to_period("d")]: the day a timestamp falls in. *)
Definition to_period (t : Z) : Z := t `div` Timedelta_days 1.

Definition ev_selected (selected_attribute : attribute) (e : Event) : string :=
  match selected_attribute with
  | track_name => ev_track_name e
  | album_name => ev_album_name e
  | artist_name => ev_artist_name e
  end.

(** Group keys are (Date, selected, artist_name, track_uri); a column that
    is not among the [groupby] keys of a branch is held at [""]. *)
Definition group_key : Type := Z * (string * (string * string)).

(** Keys of [df.groupby(["Date", selected_attribute, ...])], lines 286, 294,
    309 and 326, 332, 347. *)
Definition monthly_key (selected_attribute : attribute) (e : Event)
  : group_key :=
  (to_period (ev_Date e),
   (ev_selected selected_attribute e,
    match selected_attribute with
    | track_name => (ev_artist_name e, ev_track_uri e)
    | album_name => (ev_artist_name e, ""%string)
    | artist_name => (""%string, ""%string)
    end)).

Definition lex_compare (c : comparison) (rest : comparison) : comparison :=
  match c with
  | Eq => rest
  | _ => c
  end.

(** Tuple order in which [groupby] lists its groups. *)
Definition group_key_leb (a b : group_key) : bool :=
  match lex_compare (a.1 ?= b.1)
          (lex_compare (String.compare a.2.1 b.2.1)
             (lex_compare (String.compare a.2.2.1 b.2.2.1)
                (String.compare a.2.2.2 b.2.2.2))) with
  | Gt => false
  | _ => true
  end.

Definition Qsum (l : list Q) : Q := foldl Qplus 0%Q l.

(** [.sum()] of the duration, or [.size()], of one group. *)
Definition group_metric (analysis_metric : metric) (group : list Event) : Q :=
  match analysis_metric with
  | duration_ms => Qsum (ev_duration_ms <$> group)
  | Streams => inject_Z (Z.of_nat (length group))
  end.

(** [track_uri_mapping]: the first uri of the album and artist (lines 298,
    336), or of the artist (lines 313, 351), in the order of [df]. *)
Definition mapped_track_uri (selected_attribute : attribute)
    (df : list Event) (k : group_key) : string :=
  match selected_attribute with
  | track_name => k.2.2.2
  | album_name =>
      default ""%string
        (ev_track_uri <$>
           head (filter (λ e, ev_album_name e = k.2.1 ∧
                              ev_artist_name e = k.2.2.1) df))
  | artist_name =>
      default ""%string
        (ev_track_uri <$> head (filter (λ e, ev_artist_name e = k.2.1) df))
  end.

(** The grouped table before the cumulative column is added. For artists
    the table has no artist column besides the selected one. *)
Definition monthly_rows (analysis_metric : metric)
    (selected_attribute : attribute) (df : list Event) : list Row :=
  let keys :=
    stable_sort group_key_leb (unique (monthly_key selected_attribute <$> df)) in
  (λ k,
     let group := filter (λ e, monthly_key selected_attribute e = k) df in
     {| col_Date := k.1;
        col_selected := k.2.1;
        col_artist_name :=
          match selected_attribute with
          | artist_name => k.2.1
          | _ => k.2.2.1
          end;
        col_track_uri := mapped_track_uri selected_attribute df k;
        col_metric := group_metric analysis_metric group;
        col_Cumulative := 0%Q |}) <$> keys.

(** Keys of the [groupby] under [cumsum]: line 319 for the duration, lines
    358-369 for the stream count. *)
Definition cumsum_key (analysis_metric : metric)
    (selected_attribute : attribute) (r : Row) : string * (string * string) :=
  match analysis_metric, selected_attribute with
  | duration_ms, _ => (col_selected r, (""%string, ""%string))
  | Streams, track_name =>
      (col_selected r, (col_artist_name r, col_track_uri r))
  | Streams, album_name => (col_selected r, (col_artist_name r, ""%string))
  | Streams, artist_name => (col_selected r, (""%string, ""%string))
  end.

(** The running total of a group so far; [0] for a group not yet seen. *)
Fixpoint running_total {K} `{EqDecision K} (k : K) (totals : list (K * Q)) : Q :=
  match totals with
  | [] => 0%Q
  | (k', t) :: totals' => if decide (k = k') then t else running_total k totals'
  end.

(** [df.groupby(key)[metric].cumsum()], rows taken in table order. *)
Fixpoint cumsum_from {K} `{EqDecision K} (key : Row → K)
    (totals : list (K * Q)) (rows : list Row) : list Row :=
  match rows with
  | [] => []
  | r :: rows' =>
      let total := (running_total (key r) totals + col_metric r)%Q in
      {| col_Date := col_Date r;
         col_selected := col_selected r;
         col_artist_name := col_artist_name r;
         col_track_uri := col_track_uri r;
         col_metric := col_metric r;
         col_Cumulative := total |}
      :: cumsum_from key ((key r, total) :: totals) rows'
  end.

Definition Date_asc (a b : Row) : Prop := col_Date a ≤ col_Date b.

(** The test of a stable sort by date. *)
Definition Date_asc_leb (a b : Row) : bool := col_Date a <=? col_Date b.

(** [monthly_df] as handed to [precompute_data]. *)
Definition aggregate (sort_by_Date : sorter Date_asc)
    (analysis_metric : metric) (selected_attribute : attribute)
    (df : list Event) : list Row :=
  let monthly_df := monthly_rows analysis_metric selected_attribute df in
  let monthly_df := sort_by_Date monthly_df in
  cumsum_from (cumsum_key analysis_metric selected_attribute) [] monthly_df.

(** ** The animation step (lines 567-857) *)

(** Modelled from the spec: the class [AnimationState] of [modules.state],
    which is not among the sources. It is the mutable state carried across
    frames: the previous slot contents (labels, names, widths, screen
    positions) and the interpolated positions of the previous frame. The
    fields are those [create_bar_animation] and [animate] read or write. *)
Record AnimationState := {
  prev_labels : list string;
  prev_widths : list Q;
  prev_names : list string;
  prev_positions : list Q;
  prev_interp_positions : list Q;
  current_new_positions : list Q
}.

(** What the frame leaves on the figure: the bar rectangles, the value
    texts beside them and the x-axis limits. Labels, captions, thumbnails
    and the date boxes are drawn from the same locals and feed nothing
    back, so they are left out. *)
Record Bar := { bar_width : Q; bar_y : Q; bar_visible : bool }.
Record Text := {
  text_position : Q * Q;
  text_string : string;
  text_visible : bool
}.
Record Scene := { bars : list Bar; text_objects : list Text; xlim : Q * Q }.

(** The variables of [create_bar_animation] that [animate] closes over. *)
Record Config := {
  cfg_top_n : nat;
  cfg_interp_steps : nat;
  cfg_timestamps : list Z;
  cfg_precomputed_data : gmap Z Snapshot;
  cfg_bar_height : Q
}.

(** The values [animate] computes before it draws. *)
Record Locals := {
  loc_widths : list Q;
  loc_names : list string;
  loc_new_positions : list Q;
  loc_start_positions : list Q;
  loc_t_eased : Q;
  loc_interp_positions : list Q;
  loc_interp_widths : list Q;
  loc_max_width : Q;
  loc_display_widths : list Q;
  loc_active_bars : list bool
}.

Definition off_screen : Q := (-1)%Q.

(** [a < b] as a test. *)
Definition Qltb (a b : Q) : bool :=
  match (a ?= b)%Q with
  | Lt => true
  | _ => false
  end.

Definition quadratic_ease_in_out (t : Q) : Q := (t * t * (3 - 2 * t))%Q.

Definition target_positions (top_n : nat) : list Q :=
  if decide (top_n = 1%nat) then [45 # 10]%Q
  else (λ i : nat,
          (89 # 10) - inject_Z (Z.of_nat i)
                      * ((86 # 10) / inject_Z (Z.of_nat top_n - 1)))%Q
         <$> seq 0 top_n.

Definition min_bar_width_mapping (top_n : nat) : option Q :=
  match top_n with
  | 1 => Some (30 # 100) | 2 => Some (54 # 100) | 3 => Some (37 # 100)
  | 4 => Some (28 # 100) | 5 => Some (22 # 100) | 6 => Some (19 # 100)
  | 7 => Some (16 # 100) | 8 => Some (14 # 100) | 9 => Some (13 # 100)
  | 10 => Some (11 # 100)
  | _ => None
  end%nat%Q.

(** [name in l] followed by [l.index(name)]: the first position, if any. *)
Definition index_of (name : string) (l : list string) : option nat :=
  fst <$> list_find (λ x, x = name) l.

(** Lines 615-621: [bar_mapping[i] = ...] for [i, name in enumerate(names)],
    on a list that starts as [[None] * top_n]. *)
Fixpoint assign_bar_mapping (prev_names : list string) (i : nat)
    (names : list string) (bar_mapping : list (option nat))
  : result (list (option nat)) :=
  match names with
  | [] => Ok bar_mapping
  | name :: names' =>
      if decide (i < length bar_mapping)%nat then
        assign_bar_mapping prev_names (S i) names'
          (<[i := index_of name prev_names]> bar_mapping)
      else Raise IndexError
  end.

Definition bar_mapping_of (top_n : nat) (prev_names names : list string)
  : result (list (option nat)) :=
  assign_bar_mapping prev_names 0 names (replicate top_n None).

(** Lines 622-629: one start position per name. *)
Fixpoint collect_start_positions (prev_interp_positions : list Q)
    (bar_mapping : list (option nat)) (i : nat) (names : list string)
  : result (list Q) :=
  match names with
  | [] => Ok []
  | _ :: names' =>
      m ←! getitem bar_mapping i;
      p ←! match m with
           | Some prev_idx => getitem prev_interp_positions prev_idx
           | None => Ok off_screen
           end;
      ps ←! collect_start_positions prev_interp_positions bar_mapping
              (S i) names';
      Ok (p :: ps)
  end.

(** [max(l) if l else 1]. *)
Definition max_or_one (l : list Q) : Q :=
  match l with
  | [] => 1%Q
  | x :: l' => column_max x l'
  end.

(** [f"{x:,.0f}"]: nearest integer, halves to even, digits in threes. *)
Definition round_half_even (x : Q) : Z :=
  let f := Qfloor x in
  match (x - inject_Z f ?= 1 # 2)%Q with
  | Lt => f
  | Gt => f + 1
  | Eq => if Z.even f then f else f + 1
  end.

Fixpoint group_thousands (digits : string) : string :=
  match digits with
  | EmptyString => EmptyString
  | String d rest =>
      String d
        (if bool_decide (rest ≠ EmptyString ∧ (String.length rest `mod` 3 = 0)%nat)
         then String "," (group_thousands rest)
         else group_thousands rest)
  end.

Definition format_value (x : Q) : string :=
  let digits :=
    NilZero.string_of_uint (N.to_uint (Z.to_N (Z.abs (round_half_even x)))) in
  ((if Qltb x 0 then "-" else "") ++ group_thousands digits)%string.

Section animate.
Context (cfg : Config).

Let top_n := cfg_top_n cfg.
Let interp_steps := cfg_interp_steps cfg.

(** Lines 607-632: the positions each slot moves to and starts from. *)
Definition frame_positions (anim_state : AnimationState) (frame : nat)
    (names : list string) : result (list Q * list Q) :=
  let sub_step := (frame `mod` interp_steps)%nat in
  let target_positions := target_positions top_n in
  if decide (sub_step = 0%nat) then
    if decide (frame = 0%nat) then
      Ok (target_positions, replicate top_n off_screen)
    else
      bar_mapping ←! bar_mapping_of top_n (prev_names anim_state) names;
      start_positions ←!
        collect_start_positions (prev_interp_positions anim_state)
          bar_mapping 0 names;
      Ok (target_positions, start_positions)
  else
    Ok (current_new_positions anim_state, prev_interp_positions anim_state).

(** Line 634. *)
Definition sub_frame_t (frame : nat) : Q :=
  let sub_step := (frame `mod` interp_steps)%nat in
  if decide (1 < interp_steps)%nat then
    (inject_Z (Z.of_nat sub_step) / inject_Z (Z.of_nat interp_steps - 1))%Q
  else 1%Q.

(** Lines 637-647, one slot. *)
Definition interp_position (start_positions new_positions : list Q)
    (t_eased : Q) (i : nat) : result Q :=
  s ←! getitem start_positions i;
  n ←! getitem new_positions i;
  Ok (Qmin (Qmax (s + (n - s) * t_eased) (-1)) 9)%Q.

(** Lines 648-656, one slot. *)
Definition interp_width (prev_widths widths : list Q) (t_eased : Q)
    (i : nat) : result Q :=
  match prev_widths !! i with
  | Some p =>
      w ←! getitem widths i;
      Ok (p + (w - p) * t_eased)%Q
  | None =>
      w ←! getitem widths i;
      Ok (w * t_eased)%Q
  end.

(** Lines 680-689, one slot: the displayed width and the active flag. *)
Definition shown_width (names : list string) (min_bar_width : Q)
    (i : nat) (width : Q) : Q * bool :=
  let name := default ""%string (names !! i) in
  if Qltb 0 width && bool_decide (name ≠ ""%string)
  then (Qmax width min_bar_width, true)
  else (0%Q, false).

(** Line 675. *)
Definition min_bar_width_multiplier : Q :=
  default (11 # 100)%Q (min_bar_width_mapping top_n).

(** Lines 658-689: the displayed width and the active flag of each slot. *)
Definition shown (names : list string) (interp_widths : list Q)
  : list (Q * bool) :=
  let max_width := max_or_one interp_widths in
  let min_bar_width := (max_width * min_bar_width_multiplier)%Q in
  imap (shown_width names min_bar_width) interp_widths.

(** Lines 591-689: everything up to the first-frame override. *)
Definition frame_locals (anim_state : AnimationState) (frame : nat)
  : result Locals :=
  if decide (interp_steps = 0%nat) then Raise ZeroDivisionError else
  let main_frame := (frame `div` interp_steps)%nat in
  current_time ←! getitem (cfg_timestamps cfg) main_frame;
  data ←! match cfg_precomputed_data cfg !! current_time with
          | Some data => Ok data
          | None => Raise KeyError
          end;
  let widths := widths data in
  let names := names data in
  positions ←! frame_positions anim_state frame names;
  let new_positions := positions.1 in
  let start_positions := positions.2 in
  let t_eased := quadratic_ease_in_out (sub_frame_t frame) in
  interp_positions ←!
    traverse (interp_position start_positions new_positions t_eased)
      (seq 0 top_n);
  interp_widths ←!
    traverse (interp_width (prev_widths anim_state) widths t_eased)
      (seq 0 top_n);
  let shown := shown names interp_widths in
  Ok {| loc_widths := widths;
        loc_names := names;
        loc_new_positions := new_positions;
        loc_start_positions := start_positions;
        loc_t_eased := t_eased;
        loc_interp_positions := interp_positions;
        loc_interp_widths := interp_widths;
        loc_max_width := max_or_one interp_widths;
        loc_display_widths := fst <$> shown;
        loc_active_bars := snd <$> shown |}.

(** Lines 691-695: the first frame hides every slot. *)
Definition first_frame_override (frame : nat) (loc : Locals) : Locals :=
  if decide (frame = 0%nat) then
    {| loc_widths := loc_widths loc;
       loc_names := loc_names loc;
       loc_new_positions := loc_new_positions loc;
       loc_start_positions := loc_start_positions loc;
       loc_t_eased := loc_t_eased loc;
       loc_interp_positions := replicate top_n off_screen;
       loc_interp_widths := loc_interp_widths loc;
       loc_max_width := loc_max_width loc;
       loc_display_widths := replicate top_n 0%Q;
       loc_active_bars := replicate top_n false |}
  else loc.

(** Lines 697-705. *)
Definition draw_bars (loc : Locals) (bars : list Bar) : result (list Bar) :=
  traverse (λ i,
    active ←! getitem (loc_active_bars loc) i;
    if (active : bool) then
      width ←! getitem (loc_display_widths loc) i;
      y ←! getitem (loc_interp_positions loc) i;
      Ok {| bar_width := width;
            bar_y := (y - cfg_bar_height cfg / 2)%Q;
            bar_visible := true |}
    else
      Ok {| bar_width := 0%Q; bar_y := (-1)%Q; bar_visible := false |})
    (seq 0 (length bars)).

Definition hide (txt : Text) : Text :=
  {| text_position := text_position txt;
     text_string := text_string txt;
     text_visible := false |}.

(** Lines 707-708 and, of the loop of lines 728-841, the value text. *)
Definition draw_texts (frame : nat) (loc : Locals) (texts : list Text)
  : result (list Text) :=
  let offset :=
    Qmax (1 # 100) (max_or_one (loc_display_widths loc) * (3 # 100))%Q in
  drawn ←!
    traverse (λ i,
      text_x ←! getitem (loc_display_widths loc) i;
      bar_center_y ←! getitem (loc_interp_positions loc) i;
      has_data ←! getitem (loc_active_bars loc) i;
      txt ←! getitem texts i;
      if decide (frame = 0%nat) then Ok (hide txt)
      else if (has_data : bool) then
        interp_width ←! getitem (loc_interp_widths loc) i;
        Ok {| text_position := ((text_x + offset)%Q, bar_center_y);
              text_string := format_value interp_width;
              text_visible := true |}
      else Ok (hide txt)) (seq 0 top_n);
  Ok (drawn ++ drop top_n texts).

(** Lines 843-850: the state handed to the next frame. *)
Definition next_state (anim_state : AnimationState) (frame : nat)
    (loc : Locals) : AnimationState :=
  let sub_step := (frame `mod` interp_steps)%nat in
  let current_new_positions :=
    if decide (sub_step = 0%nat) then loc_new_positions loc
    else current_new_positions anim_state in
  if decide (sub_step = interp_steps - 1)%nat then
    {| prev_labels := prev_labels anim_state;
       prev_widths := loc_widths loc;
       prev_names := loc_names loc;
       prev_positions := loc_new_positions loc;
       prev_interp_positions := target_positions top_n;
       current_new_positions := current_new_positions |}
  else
    {| prev_labels := prev_labels anim_state;
       prev_widths := prev_widths anim_state;
       prev_names := prev_names anim_state;
       prev_positions := prev_positions anim_state;
       prev_interp_positions := loc_interp_positions loc;
       current_new_positions := current_new_positions |}.

(** [animate(frame)]. Line 853 takes [max(display_widths)], which is an
    error on an empty list. *)
Definition animate (anim_state : AnimationState) (scene : Scene)
    (frame : nat) : result (AnimationState * Scene) :=
  loc ←! frame_locals anim_state frame;
  let loc := first_frame_override frame loc in
  bars ←! draw_bars loc (bars scene);
  texts ←! draw_texts frame loc (text_objects scene);
  top ←! match loc_display_widths loc with
         | [] => Raise ValueError
         | w :: ws => Ok (column_max w ws)
         end;
  Ok (next_state anim_state frame loc,
      {| bars := bars;
         text_objects := texts;
         xlim := (0%Q, (top * (11 # 10))%Q) |}).

(** [FuncAnimation] calls [animate] on frames [0, 1, ..., n-1] in turn. *)
Fixpoint run (n : nat) (anim_state : AnimationState) (scene : Scene)
  : result (AnimationState * Scene) :=
  match n with
  | O => Ok (anim_state, scene)
  | S n' =>
      before ←! run n' anim_state scene;
      animate before.1 before.2 n'
  end.

(** The snapshot of a main frame, and the number of frames drawn
    (line 581). *)
Definition snapshot_of (main_frame : nat) : option Snapshot :=
  cfg_timestamps cfg !! main_frame ≫= λ ts, cfg_precomputed_data cfg !! ts.

Definition total_frames : nat :=
  (length (cfg_timestamps cfg) * interp_steps)%nat.

(** What [create_bar_animation] sets up before the first frame: at least
    one sub-frame per snapshot and one slot, snapshots of [top_n] slots
    for every timestamp, and [top_n] bars and value texts. *)
Definition config_wf : Prop :=
  (0 < interp_steps)%nat ∧ (0 < top_n)%nat ∧
  Forall (λ ts, ∃ snap, cfg_precomputed_data cfg !! ts = Some snap ∧
                  length (widths snap) = top_n ∧
                  length (names snap) = top_n)
    (cfg_timestamps cfg).

Definition scene_wf (scene : Scene) : Prop :=
  length (bars scene) = top_n ∧ length (text_objects scene) = top_n.

(** The widths and names a transition starts from: those of the snapshot
    before, or for the first snapshot those of the initial state. *)
Definition baseline_widths (initial : AnimationState) (main_frame : nat)
  : list Q :=
  match main_frame with
  | O => prev_widths initial
  | S before => default [] (widths <$> snapshot_of before)
  end.

Definition baseline_names (initial : AnimationState) (main_frame : nat)
  : list string :=
  match main_frame with
  | O => prev_names initial
  | S before => default [] (names <$> snapshot_of before)
  end.

(** What holds of the state handed to frame [n] when the frames before
    it ran in order from [initial]. *)
Definition run_invariant (initial : AnimationState) (n : nat)
    (anim_state : AnimationState) : Prop :=
  prev_widths anim_state = baseline_widths initial (n `div` interp_steps) ∧
  prev_names anim_state = baseline_names initial (n `div` interp_steps) ∧
  (n ≠ 0%nat →
     current_new_positions anim_state = target_positions top_n) ∧
  ((interp_steps ≤ n)%nat →
     prev_positions anim_state = target_positions top_n) ∧
  (n ≠ 0%nat → (n `mod` interp_steps = 0)%nat →
     prev_interp_positions anim_state = target_positions top_n) ∧
  ((n `mod` interp_steps ≠ 0)%nat →
     length (prev_interp_positions anim_state) = top_n).
End animate.

(** ** Claims of the specification, worded as it words them *)

(** The width an entity had in the previous snapshot, 0 for an entity that
    was not in it: the "previous width" of a slot as the specification
    describes it, by entity. Kept apart from [interp_width] to compare. *)
Definition spec_previous_width (prev_names : list string)
    (prev_widths : list Q) (name : string) : Q :=
  match index_of name prev_names with
  | Some j => default 0%Q (prev_widths !! j)
  | None => 0%Q
  end.

Definition spec_interp_width (prev_names : list string)
    (prev_widths : list Q) (name : string) (target_width t_eased : Q) : Q :=
  let previous_width := spec_previous_width prev_names prev_widths name in
  (previous_width + (target_width - previous_width) * t_eased)%Q.

(** ** Worked examples *)

(** A table of three artists, all with data by day 10. *)
Definition three_artists : list Row :=
  [ {| col_Date := 6; col_selected := "B"; col_artist_name := "B";
       col_track_uri := "u2"; col_metric := 80; col_Cumulative := 80 |};
    {| col_Date := 8; col_selected := "A"; col_artist_name := "A";
       col_track_uri := "u1"; col_metric := 100; col_Cumulative := 100 |};
    {| col_Date := 10; col_selected := "C"; col_artist_name := "C";
       col_track_uri := "u3"; col_metric := 50; col_Cumulative := 50 |} ]%Q.

Definition no_wrap (text : string) (width : nat) : string := text.


(** Two plays of two different tracks that share the name "Intro". *)
Definition two_intros : list Event :=
  [ {| ev_Date := Timedelta_days 1; ev_track_name := "Intro";
       ev_album_name := "X"; ev_artist_name := "A"; ev_track_uri := "u1";
       ev_duration_ms := 100 |};
    {| ev_Date := Timedelta_days 2; ev_track_name := "Intro";
       ev_album_name := "Y"; ev_artist_name := "B"; ev_track_uri := "u2";
       ev_duration_ms := 50 |} ]%Q.


(** The state and the figure before the first frame (lines 426-499 and
    567-572). [current_new_positions] is not assigned before frame 0; the
    empty list stands for whatever the constructor left there. *)
Definition initial_state (top_n : nat) (initial_labels initial_names : list string)
  : AnimationState :=
  {| prev_labels := initial_labels;
     prev_widths := replicate top_n 0%Q;
     prev_names := initial_names;
     prev_positions := replicate top_n (-1)%Q;
     prev_interp_positions := replicate top_n (-1)%Q;
     current_new_positions := [] |}.

Definition initial_scene (top_n : nat) (bar_height : Q) : Scene :=
  {| bars :=
       replicate top_n
         {| bar_width := 0%Q;
            bar_y := (-1 - bar_height / 2)%Q;
            bar_visible := true |};
     text_objects :=
       (λ i : nat,
          {| text_position := (0%Q, inject_Z (Z.of_nat i));
             text_string := "";
             text_visible := false |}) <$> seq 0 top_n;
     xlim := (0%Q, 1%Q) |}.

Definition snapshot_of_names (names : list string) (widths : list Q)
  : Snapshot :=
  {| widths := widths; labels := names; names := names;
     artist_names := names |}.

(** Three tracks that swap the first two ranks between two snapshots, two
    sub-frames per snapshot. *)
Definition swap_before : Snapshot :=
  snapshot_of_names ["A"; "B"; "C"]%string [100; 80; 50]%Q.

Definition swap_after : Snapshot :=
  snapshot_of_names ["B"; "A"; "C"]%string [150; 120; 50]%Q.

Definition swap_config : Config :=
  {| cfg_top_n := 3;
     cfg_interp_steps := 2;
     cfg_timestamps := [0; 1];
     cfg_precomputed_data := <[1 := swap_after]> (<[0 := swap_before]> ∅);
     cfg_bar_height := 25 # 10 |}.

Definition swap_initial : AnimationState :=
  initial_state 3 ["A"; "B"; "C"]%string ["A"; "B"; "C"]%string.

Definition swap_scene : Scene := initial_scene 3 (25 # 10).

(** Two slots; the second snapshot brings in a new entity, "C", in the
    slot "B" had. *)
Definition newcomer_config : Config :=
  {| cfg_top_n := 2;
     cfg_interp_steps := 2;
     cfg_timestamps := [0; 1];
     cfg_precomputed_data :=
       <[1 := snapshot_of_names ["A"; "C"]%string [120; 90]%Q]>
         (<[0 := snapshot_of_names ["A"; "B"]%string [100; 80]%Q]> ∅);
     cfg_bar_height := 3 |}.

Definition newcomer_initial : AnimationState :=
  initial_state 2 ["A"; "B"]%string ["A"; "B"]%string.

Definition newcomer_scene : Scene := initial_scene 2 3.

(** Five slots, two of them taken, one bar a hundredth of the other. *)
Definition small_bar_config : Config :=
  {| cfg_top_n := 5;
     cfg_interp_steps := 2;
     cfg_timestamps := [0];
     cfg_precomputed_data :=
       <[0 := snapshot_of_names ["A"; "B"; ""; ""; ""]%string
                [1000; 10; 0; 0; 0]%Q]> ∅;
     cfg_bar_height := 14 # 10 |}.

Definition small_bar_initial : AnimationState :=
  initial_state 5 ["A"; "B"; ""; ""; ""]%string ["A"; "B"; ""; ""; ""]%string.

Definition small_bar_scene : Scene := initial_scene 5 (14 # 10).

(** ** Notions used to state the properties *)

(** The number of distinct entities with a row dated up to [ts]. *)
Definition entities_with_data (monthly_df : list Row) (ts : Z) : nat :=
  length (unique (col_selected <$> filter (λ r, col_Date r ≤ ts) monthly_df)).

(** ** The figure set up before the first frame (lines 381-452) *)

(** Lines 382-394 and 395-406: two tables keyed by [top_n], read with
    [dict.get], which gives [None] for a key that is not there. *)
Definition top_n_scale_mapping_height (top_n : nat) : option Q :=
  match top_n with
  | 1 => Some (70 # 1) | 2 => Some (70 # 1) | 3 => Some (75 # 1)
  | 4 => Some (80 # 1) | 5 => Some (80 # 1) | 6 => Some (80 # 1)
  | 7 => Some (80 # 1) | 8 => Some (80 # 1) | 9 => Some (80 # 1)
  | 10 => Some (82 # 1)
  | _ => None
  end%nat%Q.

Definition bar_height (top_n : nat) : option Q :=
  match top_n with
  | 1 => Some (3 # 1) | 2 => Some (3 # 1) | 3 => Some (25 # 10)
  | 4 => Some (17 # 10) | 5 => Some (14 # 10) | 6 => Some (11 # 10)
  | 7 => Some (9 # 10) | 8 => Some (8 # 10) | 9 => Some (75 # 100)
  | 10 => Some (7 # 10)
  | _ => None
  end%nat%Q.

(** Line 407, [int(bar_height * scale_factor)]: the product cut towards
    zero. The result is [None] where Python raises [TypeError], the product
    of two [None]. *)
Definition target_size (top_n : nat) : option Z :=
  scale_factor ← top_n_scale_mapping_height top_n;
  bar_height ← bar_height top_n;
  let product := (bar_height * scale_factor)%Q in
  Some (Qnum product ÷ Z.pos (Qden product)).

(** [min] of a non-empty list. *)
Definition column_min (x : Q) (l : list Q) : Q := foldl Qmin x l.

(** Lines 438-452: the limits of the y-axis. [max] and [min] of an empty
    list raise [ValueError]. *)
Definition ylim (top_n : nat) (bar_height : Q) : result (Q * Q) :=
  let top_gap := (3 # 10)%Q in
  let bottom_gap := (2 # 10)%Q in
  if decide (top_n = 1%nat) then
    Ok ((45 # 10) - bottom_gap - bar_height / 2,
        (45 # 10) + top_gap + bar_height / 2)%Q
  else
    let positions :=
      (λ i : nat,
         (89 # 10) - inject_Z (Z.of_nat i)
                     * ((86 # 10) / inject_Z (Z.of_nat top_n - 1)))%Q
        <$> seq 0 top_n in
    match positions with
    | [] => Raise ValueError
    | p :: ps =>
        let top_pos := column_max p ps in
        let bottom_pos := column_min p ps in
        Ok (bottom_pos - bottom_gap - bar_height / 2,
            top_pos + top_gap + bar_height / 2)%Q
    end.

(** * Proofs *)

(** ** The error monad *)

Lemma bind_Ok {A B} (m : result A) (k : A → result B) (b : B) :
  bind m k = Ok b ↔ ∃ a, m = Ok a ∧ k a = Ok b.
Proof.
  destruct m as [a|e]; simpl; split.
  - eauto.
  - by intros (a' & [= ->] & ?).
  - done.
  - by intros (? & ? & ?).
Qed.

Lemma getitem_Ok {A} (l : list A) (i : nat) (x : A) :
  getitem l i = Ok x ↔ l !! i = Some x.
Proof. unfold getitem. destruct (l !! i); split; congruence. Qed.

Lemma getitem_lt {A} (l : list A) (i : nat) :
  (i < length l)%nat → ∃ x, getitem l i = Ok x ∧ l !! i = Some x.
Proof.
  intros Hi. destruct (lookup_lt_is_Some_2 l i Hi) as [x Hx].
  exists x. split; [by apply getitem_Ok | done].
Qed.

Lemma traverse_Ok {A B} (f : A → result B) (l : list A) (ys : list B) :
  traverse f l = Ok ys ↔ Forall2 (λ x y, f x = Ok y) l ys.
Proof.
  revert ys. induction l as [|x l IH]; intros ys; simpl.
  - split; [intros [= <-]; constructor | by inversion 1].
  - rewrite bind_Ok. split.
    + intros (y & Hy & Hrest). apply bind_Ok in Hrest as (ys' & Hys & [= <-]).
      constructor; [done | by apply IH].
    + inversion 1 as [|? y ? ys' Hy Hys]; subst.
      exists y. split; [done|]. apply bind_Ok. exists ys'.
      split; [by apply IH | done].
Qed.

Lemma traverse_total {A B} (f : A → result B) (l : list A) :
  (∀ x, x ∈ l → ∃ y, f x = Ok y) → ∃ ys, traverse f l = Ok ys.
Proof.
  induction l as [|x l IH]; intros Hf; simpl; [by eexists|].
  destruct (Hf x) as [y Hy]; [by left|]. rewrite Hy. simpl.
  destruct IH as [ys Hys]; [intros; apply Hf; by right|].
  rewrite Hys. simpl. by eexists.
Qed.

(** ** Sorting, distinct values and slices *)

Section stable_sort.
Context {A : Type} (leb : A → A → bool).

Lemma insert_sorted_perm x l : insert_sorted leb x l ≡ₚ x :: l.
Proof.
  induction l as [|y l IH]; simpl; [done|].
  destruct (leb x y); [done|]. rewrite IH. apply Permutation_swap.
Qed.

Lemma stable_sort_perm l : stable_sort leb l ≡ₚ l.
Proof.
  induction l as [|x l IH]; simpl; [done|].
  unfold stable_sort in *. simpl. by rewrite insert_sorted_perm, IH.
Qed.

Lemma stable_sort_length l : length (stable_sort leb l) = length l.
Proof. by rewrite stable_sort_perm. Qed.

(** An element already in front of everything stays in front. *)
Lemma insert_sorted_front x l :
  Forall (λ y, leb x y = true) l → insert_sorted leb x l = x :: l.
Proof. destruct 1 as [|y l Hy _]; simpl; [done|]. by rewrite Hy. Qed.

(** Sorting a sorted list leaves it as it is. *)
Lemma stable_sort_sorted_id l :
  StronglySorted (λ a b, leb a b = true) l → stable_sort leb l = l.
Proof.
  induction 1 as [|x l Hl IH Hx]; [done|].
  unfold stable_sort in *. simpl. rewrite IH. by apply insert_sorted_front.
Qed.

Context (leb_total : ∀ a b, leb a b = true ∨ leb b a = true).
Context (leb_trans : ∀ a b c, leb a b = true → leb b c = true → leb a c = true).

Lemma insert_sorted_sorted x l :
  StronglySorted (λ a b, leb a b = true) l →
  StronglySorted (λ a b, leb a b = true) (insert_sorted leb x l).
Proof.
  induction 1 as [|y l Hl IH Hy]; simpl.
  - repeat constructor.
  - destruct (leb x y) eqn:Hxy.
    + constructor; [by constructor|]. constructor; [done|].
      eapply Forall_impl; [exact Hy|]. intros z Hz. by eapply leb_trans.
    + constructor; [done|]. rewrite insert_sorted_perm.
      constructor; [|done]. destruct (leb_total x y); congruence.
Qed.

Lemma stable_sort_sorted l :
  StronglySorted (λ a b, leb a b = true) (stable_sort leb l).
Proof.
  induction l as [|x l IH]; [constructor|].
  unfold stable_sort in *. simpl. by apply insert_sorted_sorted.
Qed.
End stable_sort.

Lemma StronglySorted_sublist {A} (R : relation A) (l1 l2 : list A) :
  l1 `sublist_of` l2 → StronglySorted R l2 → StronglySorted R l1.
Proof.
  induction 1 as [|x l1 l2 Hsub IH|x l1 l2 Hsub IH]; intros Hs.
  - constructor.
  - apply StronglySorted_cons in Hs as [Hx Hs]. constructor; [by apply IH|].
    apply Forall_forall. intros y Hy. rewrite Forall_forall in Hx.
    apply Hx. by eapply elem_of_sublist.
  - apply StronglySorted_cons in Hs as [_ Hs]. by apply IH.
Qed.

Lemma StronglySorted_impl {A} (R1 R2 : relation A) (l : list A) :
  (∀ x y, R1 x y → R2 x y) → StronglySorted R1 l → StronglySorted R2 l.
Proof.
  intros HR. induction 1 as [|x l Hl IH Hx]; constructor; [done|].
  eapply Forall_impl; [exact Hx | auto].
Qed.

(** A sorted list without repetition is strictly increasing. *)
Lemma StronglySorted_le_NoDup (l : list Z) :
  StronglySorted Z.le l → NoDup l → StronglySorted Z.lt l.
Proof.
  induction 1 as [|x l Hl IH Hx]; intros Hnd; [constructor|].
  apply NoDup_cons in Hnd as [Hnotin Hnd]. constructor; [by apply IH|].
  apply Forall_forall. intros y Hy. rewrite Forall_forall in Hx.
  specialize (Hx y Hy). assert (x ≠ y) by (intros ->; done). lia.
Qed.

Lemma StronglySorted_lt_NoDup (l : list Z) : StronglySorted Z.lt l → NoDup l.
Proof.
  induction 1 as [|x l Hl IH Hx]; [constructor|].
  apply NoDup_cons. split; [|done]. intros Hin.
  rewrite Forall_forall in Hx. specialize (Hx x Hin). lia.
Qed.

Lemma sorted_perm (l : list Z) : sorted l ≡ₚ l.
Proof. apply stable_sort_perm. Qed.

Lemma sorted_sorted (l : list Z) : StronglySorted Z.le (sorted l).
Proof.
  eapply StronglySorted_impl; [|apply (stable_sort_sorted Z.leb)].
  - intros x y. apply Z.leb_le.
  - intros a b. rewrite !Z.leb_le. lia.
  - intros a b c. rewrite !Z.leb_le. lia.
Qed.

Lemma sorted_id (l : list Z) : StronglySorted Z.le l → sorted l = l.
Proof.
  intros Hs. apply stable_sort_sorted_id.
  eapply StronglySorted_impl; [|exact Hs]. intros x y. apply Z.leb_le.
Qed.

Section unique.
Context {A : Type} `{EqDecision A}.

Lemma elem_of_unique_from (seen l : list A) x :
  x ∈ unique_from seen l ↔ x ∈ l ∧ x ∉ seen.
Proof.
  revert seen. induction l as [|y l IH]; intros seen; simpl.
  - split; [by intros ?%elem_of_nil | by intros [?%elem_of_nil _]].
  - case_bool_decide as Hy.
    + rewrite IH, elem_of_cons. split.
      * intros [? ?]. split; [by right | done].
      * intros [[->|?] ?]; [done | by split].
    + rewrite !elem_of_cons, IH, not_elem_of_cons. split.
      * intros [->|(? & ? & ?)]; [by split; [left|] | by split; [right|]].
      * intros [[->|?] ?]; [by left|].
        destruct (decide (x = y)) as [->|]; [by left | by right].
Qed.

Lemma NoDup_unique_from (seen l : list A) : NoDup (unique_from seen l).
Proof.
  revert seen. induction l as [|y l IH]; intros seen; simpl; [constructor|].
  case_bool_decide; [done|]. apply NoDup_cons. split; [|done].
  rewrite elem_of_unique_from, not_elem_of_cons. by intros (_ & ? & _).
Qed.

Lemma elem_of_unique (l : list A) x : x ∈ unique l ↔ x ∈ l.
Proof.
  unfold unique. rewrite elem_of_unique_from. split; [by intros [? _]|].
  intros ?. split; [done | apply not_elem_of_nil].
Qed.

Lemma NoDup_unique (l : list A) : NoDup (unique l).
Proof. apply NoDup_unique_from. Qed.
End unique.

Section slice_step.
Context {A : Type}.

Lemma slice_step_from_sublist k skip (l : list A) :
  slice_step_from k skip l `sublist_of` l.
Proof.
  revert skip. induction l as [|x l IH]; intros skip; simpl; [done|].
  destruct skip; [by apply sublist_skip | by apply sublist_cons].
Qed.

Lemma slice_step_sublist k (l : list A) : slice_step k l `sublist_of` l.
Proof. apply slice_step_from_sublist. Qed.

Lemma slice_step_nil k (l : list A) : slice_step k l = [] ↔ l = [].
Proof. destruct l; simpl; split; done. Qed.

(** The [i]-th element kept is the element at index [skip + i * k]. *)
Lemma slice_step_from_lookup k skip (l : list A) i :
  (0 < k)%nat →
  slice_step_from k skip l !! i = l !! (skip + i * k)%nat.
Proof.
  intros Hk. destruct k as [|k]; [lia|].
  revert skip i. induction l as [|x l IH]; intros skip i.
  - by rewrite !lookup_nil.
  - destruct skip as [|skip]; simpl.
    + destruct i as [|i]; simpl; [done|]. by rewrite IH.
    + by rewrite IH.
Qed.

Lemma slice_step_lookup k (l : list A) i :
  (0 < k)%nat → slice_step k l !! i = l !! (i * k)%nat.
Proof. intros Hk. unfold slice_step. by rewrite slice_step_from_lookup. Qed.
End slice_step.

(** ** Sample timestamps *)

Lemma NoDup_count_one (l : list Z) (x : Z) :
  NoDup l → x ∈ l → length (filter (λ y, y = x) l) = 1%nat.
Proof.
  induction 1 as [|y l Hy Hnd IH]; intros Hin; [by apply elem_of_nil in Hin|].
  apply elem_of_cons in Hin as [->|Hin].
  - rewrite filter_cons_True by done. simpl. f_equal.
    apply length_zero_iff_nil, elem_of_nil_inv. intros z.
    rewrite list_elem_of_filter. by intros [-> ?].
  - rewrite filter_cons_False; [by apply IH|]. by intros ->.
Qed.

Lemma elem_of_window_timestamps dates start_date end_date ts :
  ts ∈ window_timestamps dates start_date end_date ↔
  ts ∈ dates ∧ start_date + Timedelta_days 4 ≤ ts ∧ ts ≤ end_date.
Proof.
  unfold window_timestamps. rewrite list_elem_of_filter.
  rewrite sorted_perm, elem_of_unique. tauto.
Qed.

Lemma window_timestamps_increasing dates start_date end_date :
  StronglySorted Z.lt (window_timestamps dates start_date end_date).
Proof.
  unfold window_timestamps.
  eapply StronglySorted_sublist; [apply sublist_filter|].
  apply StronglySorted_le_NoDup; [apply sorted_sorted|].
  rewrite sorted_perm. apply NoDup_unique.
Qed.

Lemma candidate_timestamps_increasing dates start_date end_date :
  StronglySorted Z.lt (candidate_timestamps dates start_date end_date).
Proof.
  eapply StronglySorted_sublist; [apply slice_step_sublist|].
  apply window_timestamps_increasing.
Qed.

Lemma candidate_timestamps_le dates start_date end_date ts :
  ts ∈ candidate_timestamps dates start_date end_date → ts ≤ end_date.
Proof.
  intros Hin. eapply elem_of_sublist in Hin; [|apply slice_step_sublist].
  apply elem_of_window_timestamps in Hin. tauto.
Qed.

Lemma candidate_timestamps_nil dates start_date end_date :
  candidate_timestamps dates start_date end_date = [] ↔
  window_timestamps dates start_date end_date = [].
Proof. apply slice_step_nil. Qed.

(** What lines 167-172 do to the candidates: nothing when the last one is
    the end date, and otherwise the end date goes at the end; overwriting
    the last sample never happens, because no candidate is past the end. *)
Lemma sample_timestamps_cases dates start_date end_date :
  let candidates := candidate_timestamps dates start_date end_date in
  (candidates = [] ∧
   sample_timestamps dates start_date end_date = Raise IndexError) ∨
  (last candidates = Some end_date ∧
   sample_timestamps dates start_date end_date = Ok candidates) ∨
  (candidates ≠ [] ∧ Forall (λ ts, ts < end_date) candidates ∧
   sample_timestamps dates start_date end_date = Ok (candidates ++ [end_date])).
Proof.
  intros candidates. unfold sample_timestamps, getitem_last.
  fold candidates. destruct (last candidates) as [x|] eqn:Hlast; simpl.
  2:{ left. by apply last_None in Hlast. }
  right. case_bool_decide as Hne.
  2:{ left. split; [|done]. f_equal.
      destruct (decide (x = end_date)); [done | by destruct Hne]. }
  right.
  assert (x ∈ candidates) as Hx by by apply last_Some_elem_of.
  pose proof (candidate_timestamps_le _ _ _ _ Hx) as Hle.
  assert (Forall (λ ts, ts < end_date) candidates) as Hlt.
  { pose proof (candidate_timestamps_increasing dates start_date end_date)
      as Hinc. fold candidates in Hinc.
    apply last_Some in Hlast as [front ->].
    apply StronglySorted_app in Hinc as (Hfront & _ & _).
    apply Forall_app. split.
    - apply Forall_forall. intros y Hy.
      assert (y < x); [|lia]. apply Hfront; [done | by constructor].
    - constructor; [lia | constructor]. }
  split; [by intros Hnil; rewrite Hnil in Hlast|]. split; [done|].
  rewrite bool_decide_true by lia. f_equal. apply sorted_id.
  eapply StronglySorted_impl; [intros a b; apply Z.lt_le_incl|].
  apply StronglySorted_app. split; [|split].
  - intros a b Ha Hb. apply list_elem_of_singleton in Hb as ->.
    rewrite Forall_forall in Hlt. by apply Hlt.
  - apply candidate_timestamps_increasing.
  - repeat constructor.
Qed.

Lemma sample_timestamps_Ok dates start_date end_date l :
  sample_timestamps dates start_date end_date = Ok l →
  StronglySorted Z.lt l ∧ last l = Some end_date ∧
  length (filter (λ ts, ts = end_date) l) = 1%nat.
Proof.
  intros Hl.
  assert (StronglySorted Z.lt l ∧ last l = Some end_date) as [Hinc Hlast].
  { destruct (sample_timestamps_cases dates start_date end_date)
      as [[_ Hr]|[[Hlast Hr]|(_ & Hlt & Hr)]];
      rewrite Hr in Hl; [done| |]; injection Hl as <-.
    - split; [apply candidate_timestamps_increasing | done].
    - split; [|apply last_snoc].
      apply StronglySorted_app. split; [|split].
      + intros a b Ha Hb. apply list_elem_of_singleton in Hb as ->.
        rewrite Forall_forall in Hlt. by apply Hlt.
      + apply candidate_timestamps_increasing.
      + repeat constructor. }
  split; [done|]. split; [done|].
  apply NoDup_count_one; [by apply StronglySorted_lt_NoDup|].
  by apply last_Some_elem_of.
Qed.

Lemma sample_timestamps_Raise dates start_date end_date e :
  sample_timestamps dates start_date end_date = Raise e ↔
  e = IndexError ∧ window_timestamps dates start_date end_date = [].
Proof.
  rewrite <- candidate_timestamps_nil.
  destruct (sample_timestamps_cases dates start_date end_date)
    as [[Hnil Hr]|[[Hlast Hr]|(Hne & _ & Hr)]]; rewrite Hr.
  - split; [by intros [= <-] | by intros [-> _]].
  - split; [done|]. intros [_ Hnil]. by rewrite Hnil in Hlast.
  - split; [done|]. by intros [_ Hnil].
Qed.

(** ** [precompute_data]: timestamps *)

Section precompute_timestamps.
Context (textwrap_fill : string → nat → string).
Context (quicksort : sorter Cumulative_desc).

Lemma with_timestamps_dates monthly_df :
  col_Date <$> with_timestamps monthly_df = event_timestamps monthly_df.
Proof.
  unfold with_timestamps, event_timestamps.
  rewrite <- list_fmap_compose. done.
Qed.

Lemma precompute_data_Ok monthly_df selected_attribute top_n
    start_date end_date timestamps data :
  precompute_data textwrap_fill quicksort monthly_df selected_attribute
    top_n start_date end_date = Ok (timestamps, data) ↔
  sample_timestamps (event_timestamps monthly_df) start_date end_date
    = Ok timestamps ∧
  data = foldl (λ data ts,
           <[ts := snapshot_at textwrap_fill quicksort
                     (with_timestamps monthly_df) selected_attribute
                     top_n ts]> data) ∅ timestamps.
Proof.
  unfold precompute_data. rewrite with_timestamps_dates.
  destruct (sample_timestamps _ _ _) as [l|err]; simpl.
  - split.
    + intros [= <- <-]. done.
    + intros [[= <-] ->]. done.
  - split; [done | by intros [? _]].
Qed.

Lemma precompute_data_Raise monthly_df selected_attribute top_n
    start_date end_date err :
  precompute_data textwrap_fill quicksort monthly_df selected_attribute
    top_n start_date end_date = Raise err ↔
  sample_timestamps (event_timestamps monthly_df) start_date end_date
    = Raise err.
Proof.
  unfold precompute_data. rewrite with_timestamps_dates.
  destruct (sample_timestamps _ _ _) as [l|err']; simpl.
  - split; intros [=].
  - split; intros [= ->]; done.
Qed.

Lemma window_timestamps_nil monthly_df start_date end_date :
  window_timestamps (event_timestamps monthly_df) start_date end_date = [] ↔
  ∀ r, r ∈ monthly_df →
    ¬ (start_date + Timedelta_days 4 ≤ to_timestamp (col_Date r)
       ∧ to_timestamp (col_Date r) ≤ end_date).
Proof.
  split.
  - intros Hnil r Hr Hin.
    assert (to_timestamp (col_Date r)
              ∈ window_timestamps (event_timestamps monthly_df)
                  start_date end_date) as Hts.
    { apply elem_of_window_timestamps. split; [|done].
      unfold event_timestamps. apply list_elem_of_fmap. eauto. }
    rewrite Hnil in Hts. by apply elem_of_nil in Hts.
  - intros Hall. apply elem_of_nil_inv. intros ts Hts.
    apply elem_of_window_timestamps in Hts as [Hts Hin].
    unfold event_timestamps in Hts.
    apply list_elem_of_fmap in Hts as (r & -> & Hr). by apply (Hall r).
Qed.

(** C2. Whenever [precompute_data] returns, its list of sample timestamps
    is strictly increasing, ends with [end_date] and holds [end_date]
    exactly once, whether the stride landed on it or it had to be added.
    It returns unless no row of the table falls in the sampling window,
    the one case in which it raises. *)
Theorem sample_timestamps_end_date_once monthly_df selected_attribute top_n
    start_date end_date :
  match precompute_data textwrap_fill quicksort monthly_df
          selected_attribute top_n start_date end_date with
  | Ok (timestamps, _) =>
      StronglySorted Z.lt timestamps ∧
      length (filter (λ ts, ts = end_date) timestamps) = 1%nat ∧
      last timestamps = Some end_date
  | Raise _ =>
      ∀ r, r ∈ monthly_df →
        ¬ (start_date + Timedelta_days 4 ≤ to_timestamp (col_Date r)
           ∧ to_timestamp (col_Date r) ≤ end_date)
  end.
Proof.
  destruct (precompute_data _ _ _ _ _ _ _) as [[timestamps data]|err] eqn:Hrun.
  - apply precompute_data_Ok in Hrun as [Hts _].
    apply sample_timestamps_Ok in Hts. tauto.
  - apply precompute_data_Raise, sample_timestamps_Raise in Hrun as [_ Hnil].
    by apply window_timestamps_nil.
Qed.

(** C10. [precompute_data] raises [IndexError], from the unguarded
    [timestamps[-1]], exactly when no row of the table has its period in
    the sampling window; an empty table is one such case. With at least
    one period in the window it returns, so under that precondition the
    error cannot occur. *)
Theorem precompute_data_needs_a_period monthly_df selected_attribute top_n
    start_date end_date :
  let in_window (r : Row) :=
    start_date + Timedelta_days 4 ≤ to_timestamp (col_Date r)
    ∧ to_timestamp (col_Date r) ≤ end_date in
  let run df :=
    precompute_data textwrap_fill quicksort df selected_attribute top_n
      start_date end_date in
  (run monthly_df = Raise IndexError ↔ ∀ r, r ∈ monthly_df → ¬ in_window r) ∧
  ((∃ out, run monthly_df = Ok out) ↔ ∃ r, r ∈ monthly_df ∧ in_window r) ∧
  run [] = Raise IndexError.
Proof.
  intros in_window run.
  assert (∀ df, run df = Raise IndexError ↔ ∀ r, r ∈ df → ¬ in_window r)
    as Hraise.
  { intros df. unfold run.
    rewrite precompute_data_Raise, sample_timestamps_Raise.
    rewrite window_timestamps_nil. split; [by intros [_ ?] | by split]. }
  split; [apply Hraise|]. split.
  - split.
    + intros [out Hout].
      destruct (decide (Exists in_window monthly_df)) as [Hex|Hno].
      * apply Exists_exists in Hex as (r & ? & ?). by exists r.
      * assert (run monthly_df = Raise IndexError); [|congruence].
        apply Hraise. intros r Hr Hin. apply Hno, Exists_exists. eauto.
    + intros (r & Hr & Hin).
      destruct (run monthly_df) as [out|err] eqn:Hrun; [by eexists|].
      assert (err = IndexError) as ->.
      { unfold run in Hrun.
        by apply precompute_data_Raise, sample_timestamps_Raise in Hrun
          as [-> _]. }
      destruct (proj1 (Hraise monthly_df) Hrun r Hr Hin).
  - apply Hraise. by intros r ?%elem_of_nil.
Qed.
End precompute_timestamps.

(** C9, as the claim words it, fails: with events on day 0 and on day 10,
    [start_date] day 0 and [end_date] day 10, the period of day 0 lies in
    the closed interval and would be the claim's only candidate, but the
    code's only candidate is day 10. *)
Lemma candidates_skip_first_four_days :
  let dates := [0; Timedelta_days 10] in
  spec_candidate_timestamps dates 0 (Timedelta_days 10) = [0] ∧
  candidate_timestamps dates 0 (Timedelta_days 10) = [Timedelta_days 10].
Proof. by vm_compute. Qed.

(** C9, amended. The candidates are the distinct periods from four days
    after [start_date] up to [end_date], both ends included, in increasing
    order, every [days]-th one starting with the first; a period in that
    window is left out for no other reason. *)
Theorem candidates_are_window_every_30th dates start_date end_date :
  let window := window_timestamps dates start_date end_date in
  let candidates := candidate_timestamps dates start_date end_date in
  (∀ ts, ts ∈ window ↔
         ts ∈ dates ∧ start_date + Timedelta_days 4 ≤ ts ∧ ts ≤ end_date) ∧
  StronglySorted Z.lt window ∧
  (∀ i, candidates !! i = window !! (i * 30)%nat) ∧
  candidates =
    spec_candidate_timestamps dates (start_date + Timedelta_days 4) end_date.
Proof.
  intros window candidates. split; [|split; [|split]].
  - intros ts. apply elem_of_window_timestamps.
  - apply window_timestamps_increasing.
  - intros i. unfold candidates, candidate_timestamps.
    apply slice_step_lookup. unfold days. lia.
  - done.
Qed.

(** ** [precompute_data]: snapshots *)

Ltac Qcompare_cases a b H :=
  destruct (Qcompare a b) eqn:H;
  [apply Qeq_alt in H | apply Qlt_alt in H | apply Qgt_alt in H].

Lemma Qmax_cases (x y : Q) : Qmax x y = x ∨ Qmax x y = y.
Proof. unfold Qmax, GenericMinMax.gmax. destruct (x ?= y)%Q; auto. Qed.

Lemma column_max_elem_of (x : Q) (l : list Q) : column_max x l ∈ x :: l.
Proof.
  unfold column_max. revert x. induction l as [|y l IH]; intros x; simpl.
  - by left.
  - specialize (IH (Qmax x y)). apply elem_of_cons in IH as [->|IH].
    + destruct (Qmax_cases x y) as [->| ->]; [by left | by right; left].
    + by right; right.
Qed.

Lemma Qle_Qmax_l (x y : Q) : (x <= Qmax x y)%Q.
Proof.
  unfold Qmax, GenericMinMax.gmax.
  Qcompare_cases x y H; [apply Qle_refl | by apply Qlt_le_weak | apply Qle_refl].
Qed.

Lemma Qle_Qmax_r (x y : Q) : (y <= Qmax x y)%Q.
Proof.
  unfold Qmax, GenericMinMax.gmax.
  Qcompare_cases x y H; [rewrite H | | apply Qlt_le_weak]; try apply Qle_refl.
  done.
Qed.

Lemma column_max_ge (x : Q) (l : list Q) :
  Forall (λ y, (y <= column_max x l)%Q) (x :: l).
Proof.
  unfold column_max. revert x. induction l as [|y l IH]; intros x; simpl.
  - repeat constructor. apply Qle_refl.
  - specialize (IH (Qmax x y)).
    apply Forall_cons in IH as [Hm IH].
    repeat constructor; [| |done].
    + eapply Qle_trans; [apply Qle_Qmax_l | exact Hm].
    + eapply Qle_trans; [apply Qle_Qmax_r | exact Hm].
Qed.

(** The stable sort by descending cumulative value meets the contract of
    [sort_values]; it serves as the sorter of worked examples. *)
Lemma Cumulative_desc_leb_sorted l :
  StronglySorted Cumulative_desc (stable_sort Cumulative_desc_leb l).
Proof.
  eapply StronglySorted_impl; [|apply (stable_sort_sorted Cumulative_desc_leb)].
  - intros x y. apply Qle_bool_iff.
  - intros a b. unfold Cumulative_desc_leb. rewrite !Qle_bool_iff.
    destruct (Qlt_le_dec (ent_Cumulative a) (ent_Cumulative b));
      [right; by apply Qlt_le_weak | by left].
  - intros a b c. unfold Cumulative_desc_leb. rewrite !Qle_bool_iff.
    intros ? ?. by eapply Qle_trans.
Qed.

Definition stable_quicksort : sorter Cumulative_desc :=
  {| sort_values := stable_sort Cumulative_desc_leb;
     sort_values_perm := stable_sort_perm Cumulative_desc_leb;
     sort_values_sorted := Cumulative_desc_leb_sorted |}.

Lemma lexsort_leb_ge a b :
  lexsort_leb a b = true → (ent_Cumulative b.1 <= ent_Cumulative a.1)%Q.
Proof.
  unfold lexsort_leb.
  Qcompare_cases (ent_Cumulative a.1) (ent_Cumulative b.1) H; intros Hle.
  - rewrite H. apply Qle_refl.
  - done.
  - by apply Qlt_le_weak.
Qed.

Lemma lexsort_leb_total a b : lexsort_leb a b = true ∨ lexsort_leb b a = true.
Proof.
  unfold lexsort_leb.
  Qcompare_cases (ent_Cumulative a.1) (ent_Cumulative b.1) H;
    Qcompare_cases (ent_Cumulative b.1) (ent_Cumulative a.1) H';
    rewrite ?Nat.leb_le; auto; try lia; lra.
Qed.

Lemma lexsort_leb_trans a b c :
  lexsort_leb a b = true → lexsort_leb b c = true → lexsort_leb a c = true.
Proof.
  unfold lexsort_leb.
  Qcompare_cases (ent_Cumulative a.1) (ent_Cumulative b.1) H;
    Qcompare_cases (ent_Cumulative b.1) (ent_Cumulative c.1) H';
    Qcompare_cases (ent_Cumulative a.1) (ent_Cumulative c.1) H'';
    rewrite ?Nat.leb_le; intros; try done; try lia; lra.
Qed.

(** With one and the same [prev_rank] on every row, rows already in
    descending order are in the order of the two-key sort. *)
Lemma lexsort_leb_same_rank (n : nat) (a b : Entity) :
  Cumulative_desc a b → lexsort_leb (a, n) (b, n) = true.
Proof.
  unfold Cumulative_desc, lexsort_leb. simpl. intros Hle.
  Qcompare_cases (ent_Cumulative a) (ent_Cumulative b) H;
    [apply Nat.leb_le; lia | lra | done].
Qed.

Lemma fst_with_prev_rank (top_n : nat) (l : list Entity) :
  fst <$> ((λ e, (e, top_n)) <$> l) = l.
Proof. induction l as [|e l IH]; csimpl; [done | by rewrite IH]. Qed.

Section snapshots.
Context (textwrap_fill : string → nat → string).
Context (quicksort : sorter Cumulative_desc).

(** The sort on [Cumulative, prev_rank] leaves the table as the sort on
    [Cumulative] put it: the second key is the constant [top_n]. *)
Lemma lexsort_keeps_order (top_n : nat) (current_df : list Entity) :
  stable_sort lexsort_leb ((λ e, (e, top_n)) <$> quicksort current_df)
  = (λ e, (e, top_n)) <$> quicksort current_df.
Proof.
  apply stable_sort_sorted_id.
  apply StronglySorted_fmap with (R1 := Cumulative_desc);
    [|apply sort_values_sorted].
  intros a b. apply lexsort_leb_same_rank.
Qed.

Lemma snapshot_at_ranked monthly_df selected_attribute top_n ts :
  let top := take top_n (ranked quicksort monthly_df selected_attribute ts) in
  let pad := (top_n - length top)%nat in
  snapshot_at textwrap_fill quicksort monthly_df selected_attribute top_n ts
  = {| widths := (ent_Cumulative <$> top) ++ replicate pad 0%Q;
       labels :=
         ((λ e, textwrap_fill (ent_name e) (label_width selected_attribute))
            <$> top) ++ replicate pad ""%string;
       names := (ent_name <$> top) ++ replicate pad ""%string;
       artist_names := (ent_artist_name <$> top) ++ replicate pad ""%string |}.
Proof.
  intros top pad. unfold snapshot_at. rewrite lexsort_keeps_order.
  by rewrite <- fmap_take, fst_with_prev_rank.
Qed.




Lemma foldl_insert_lookup {V} (f : Z → V) (l : list Z) (m : gmap Z V) ts :
  foldl (λ data ts, <[ts := f ts]> data) m l !! ts
  = if decide (ts ∈ l) then Some (f ts) else m !! ts.
Proof.
  revert m. induction l as [|x l IH]; intros m; simpl; [done|].
  rewrite IH. destruct (decide (ts ∈ l)) as [Hin|Hnotin].
  - rewrite decide_True by by right. done.
  - destruct (decide (x = ts)) as [->|Hne].
    + rewrite decide_True by by left. apply lookup_insert_eq.
    + rewrite decide_False by (rewrite elem_of_cons; by intros [?|?]).
      by apply lookup_insert_ne.
Qed.

Lemma precompute_data_lookup monthly_df selected_attribute top_n
    start_date end_date timestamps data ts :
  precompute_data textwrap_fill quicksort monthly_df selected_attribute
    top_n start_date end_date = Ok (timestamps, data) →
  ts ∈ timestamps →
  data !! ts =
    Some (snapshot_at textwrap_fill quicksort (with_timestamps monthly_df)
            selected_attribute top_n ts).
Proof.
  intros [_ ->]%precompute_data_Ok Hts.
  rewrite foldl_insert_lookup. by rewrite decide_True.
Qed.
End snapshots.

(** ** The entities of a snapshot *)


Lemma stable_sort_elem_of {A} (leb : A → A → bool) (l : list A) (x : A) :
  x ∈ stable_sort leb l ↔ x ∈ l.
Proof. by rewrite stable_sort_perm. Qed.

Section groupby.
Context (selected_attribute : attribute) (df : list Row).

Lemma agg_group_Some k :
  k ∈ col_selected <$> df →
  ∃ e, agg_group selected_attribute k (filter (λ r, col_selected r = k) df)
       = Some e ∧
       ent_name e = k ∧
       (∃ r, r ∈ df ∧ col_selected r = k
             ∧ col_Cumulative r = ent_Cumulative e) ∧
       ∀ r, r ∈ df → col_selected r = k →
            (col_Cumulative r <= ent_Cumulative e)%Q.
Proof.
  intros Hk. apply list_elem_of_fmap in Hk as (r0 & -> & Hr0).
  assert (r0 ∈ filter (λ r, col_selected r = col_selected r0) df) as Hin
    by by apply list_elem_of_filter.
  unfold agg_group.
  destruct (filter _ df) as [|r group] eqn:Hgroup;
    [by apply elem_of_nil in Hin|].
  eexists. split; [done|]. split; [done|]. simpl. split.
  - pose proof (column_max_elem_of (col_Cumulative r)
                  (col_Cumulative <$> group)) as Hmax.
    rewrite <- fmap_cons, <- Hgroup in Hmax.
    apply list_elem_of_fmap in Hmax as (r' & Hval & Hr').
    apply list_elem_of_filter in Hr' as [Hname Hr'].
    exists r'. done.
  - intros r' Hr' Hname.
    pose proof (column_max_ge (col_Cumulative r)
                  (col_Cumulative <$> group)) as Hge.
    rewrite <- fmap_cons, <- Hgroup in Hge.
    rewrite Forall_forall in Hge. apply Hge.
    apply list_elem_of_fmap. exists r'. split; [done|].
    by apply list_elem_of_filter.
Qed.

Lemma groupby_agg_over (keys : list string) :
  (∀ k, k ∈ keys → k ∈ col_selected <$> df) →
  ent_name
    <$> omap (λ k, agg_group selected_attribute k
                     (filter (λ r, col_selected r = k) df)) keys
  = keys.
Proof.
  induction keys as [|k keys IH]; intros Hkeys; [done|].
  destruct (agg_group_Some k) as (e & He & Hname & _);
    [apply Hkeys; by left|].
  cbn [omap list_omap]. rewrite He. csimpl. rewrite Hname. f_equal.
  apply IH. intros k' Hk'. apply Hkeys. by right.
Qed.

(** One entity per distinct name, names ascending. *)
Lemma groupby_agg_names :
  ent_name <$> groupby_agg selected_attribute df
  = stable_sort String.leb (unique (col_selected <$> df)).
Proof.
  unfold groupby_agg. apply groupby_agg_over.
  intros k Hk. by rewrite stable_sort_elem_of, elem_of_unique in Hk.
Qed.


Lemma groupby_agg_length :
  length (groupby_agg selected_attribute df)
  = length (unique (col_selected <$> df)).
Proof.
  rewrite <- (length_fmap ent_name), groupby_agg_names.
  apply stable_sort_length.
Qed.

(** The value of an entity is the largest cumulative value among its
    rows, and one of them. *)
Lemma groupby_agg_max e :
  e ∈ groupby_agg selected_attribute df →
  (∃ r, r ∈ df ∧ col_selected r = ent_name e
        ∧ col_Cumulative r = ent_Cumulative e) ∧
  ∀ r, r ∈ df → col_selected r = ent_name e →
       (col_Cumulative r <= ent_Cumulative e)%Q.
Proof.
  unfold groupby_agg. rewrite list_elem_of_omap. intros (k & Hk & Hagg).
  rewrite stable_sort_elem_of, elem_of_unique in Hk.
  destruct (agg_group_Some k Hk) as (e' & He' & Hname & Hex & Hall).
  rewrite He' in Hagg. injection Hagg as <-. by rewrite Hname.
Qed.

End groupby.

Section snapshot_slots.
Context (textwrap_fill : string → nat → string).
Context (quicksort : sorter Cumulative_desc).

Local Abbreviation snapshot := (snapshot_at textwrap_fill quicksort).

Lemma ranked_length monthly_df selected_attribute ts :
  length (ranked quicksort monthly_df selected_attribute ts)
  = entities_with_data monthly_df ts.
Proof.
  unfold ranked, entities_with_data.
  rewrite (sort_values_perm quicksort). apply groupby_agg_length.
Qed.


Lemma ranked_max monthly_df selected_attribute ts e :
  e ∈ ranked quicksort monthly_df selected_attribute ts →
  (∃ r, r ∈ monthly_df ∧ col_Date r ≤ ts ∧ col_selected r = ent_name e
        ∧ col_Cumulative r = ent_Cumulative e) ∧
  ∀ r, r ∈ monthly_df → col_Date r ≤ ts → col_selected r = ent_name e →
       (col_Cumulative r <= ent_Cumulative e)%Q.
Proof.
  unfold ranked. rewrite (sort_values_perm quicksort).
  intros [(r & Hr & ? & ?) Hall]%groupby_agg_max. split.
  - apply list_elem_of_filter in Hr as [? ?]. by exists r.
  - intros r' Hr' Hdate Hname. apply Hall; [|done].
    by apply list_elem_of_filter.
Qed.

(** The slots that are not padding: the first
    [min top_n (entities_with_data ...)] of them, one per ranked entity. *)
Lemma snapshot_slots monthly_df selected_attribute top_n ts :
  let snap := snapshot monthly_df selected_attribute top_n ts in
  let top := take top_n (ranked quicksort monthly_df selected_attribute ts) in
  length top = (top_n `min` entities_with_data monthly_df ts)%nat ∧
  take (length top) (names snap) = ent_name <$> top ∧
  take (length top) (widths snap) = ent_Cumulative <$> top.
Proof.
  intros snap top. unfold snap. rewrite snapshot_at_ranked. simpl.
  fold top. split; [|split].
  - unfold top. by rewrite length_take, ranked_length.
  - apply take_app_length'. by rewrite length_fmap.
  - apply take_app_length'. by rewrite length_fmap.
Qed.

Lemma slot_entity monthly_df selected_attribute top_n ts i :
  (i < top_n `min` entities_with_data monthly_df ts)%nat →
  let snap := snapshot monthly_df selected_attribute top_n ts in
  ∃ e, e ∈ ranked quicksort monthly_df selected_attribute ts ∧
       names snap !! i = Some (ent_name e) ∧
       widths snap !! i = Some (ent_Cumulative e).
Proof.
  intros Hi snap.
  destruct (snapshot_slots monthly_df selected_attribute top_n ts)
    as (Hlen & Hnames & Hwidths). fold snap in Hnames, Hwidths.
  set (top := take top_n _) in *. rewrite <- Hlen in Hi.
  destruct (lookup_lt_is_Some_2 top i Hi) as [e He].
  exists e. split; [|split].
  - eapply elem_of_sublist; [|apply sublist_take].
    by eapply list_elem_of_lookup_2.
  - rewrite <- (lookup_take_lt _ (length top)) by done.
    rewrite Hnames, list_lookup_fmap, He. done.
  - rewrite <- (lookup_take_lt _ (length top)) by done.
    rewrite Hwidths, list_lookup_fmap, He. done.
Qed.



End snapshot_slots.

Section snapshot_claims.
Context (textwrap_fill : string → nat → string).
Context (quicksort : sorter Cumulative_desc).


(** What [precompute_data] returns is what [animate] needs: a snapshot
    of [top_n] slots for every sample timestamp. *)
Lemma precompute_data_config_wf monthly_df selected_attribute top_n
    start_date end_date timestamps data interp_steps bar_height :
  precompute_data textwrap_fill quicksort monthly_df selected_attribute
    top_n start_date end_date = Ok (timestamps, data) →
  (0 < interp_steps)%nat → (0 < top_n)%nat →
  config_wf {| cfg_top_n := top_n;
               cfg_interp_steps := interp_steps;
               cfg_timestamps := timestamps;
               cfg_precomputed_data := data;
               cfg_bar_height := bar_height |}.
Proof.
  intros Hrun HK Htop. split; [done|]. split; [done|]. simpl.
  apply Forall_forall. intros ts Hts. eexists.
  split; [by eapply precompute_data_lookup|].
  rewrite snapshot_at_ranked. simpl.
  set (top := take top_n _).
  assert (length top ≤ top_n)%nat as Hlen.
  { unfold top. rewrite length_take. lia. }
  rewrite !length_app, !length_fmap, !length_replicate. lia.
Qed.
End snapshot_claims.

Lemma three_artists_timestamps :
  ∃ data,
    precompute_data no_wrap stable_quicksort three_artists artist_name 5
      0 (Timedelta_days 10)
    = Ok ([Timedelta_days 6; Timedelta_days 10], data).
Proof.
  eexists. apply precompute_data_Ok. split; [by vm_compute | reflexivity].
Qed.

Lemma three_artists_snapshot :
  snapshot_at no_wrap stable_quicksort (with_timestamps three_artists)
    artist_name 5 (Timedelta_days 10)
  = {| widths := [100; 80; 50; 0; 0]%Q;
       labels := ["A"; "B"; "C"; ""; ""]%string;
       names := ["A"; "B"; "C"; ""; ""]%string;
       artist_names := ["A"; "B"; "C"; ""; ""]%string |}.
Proof. by vm_compute. Qed.


(** Why the widths are ordered only for values that are not negative: the
    padding is the width 0, so a cumulative value of -5, which no count of
    streams and no sum of durations gives, would stand before it. *)
Lemma negative_total_breaks_width_order :
  let monthly_df :=
    [ {| col_Date := 10; col_selected := "A"; col_artist_name := "A";
         col_track_uri := "u1"; col_metric := (-5)%Q;
         col_Cumulative := (-5)%Q |} ] in
  ∃ timestamps data snap,
    precompute_data no_wrap stable_quicksort monthly_df artist_name 2
      0 (Timedelta_days 10) = Ok (timestamps, data) ∧
    data !! Timedelta_days 10 = Some snap ∧
    widths snap = [(-5)%Q; 0%Q] ∧
    ¬ StronglySorted (λ a b : Q, (b <= a)%Q) (widths snap).
Proof.
  intros monthly_df. eexists _, _, _. split; [|split; [|split]].
  - apply precompute_data_Ok. split; [by vm_compute | reflexivity].
  - rewrite foldl_insert_lookup. rewrite decide_True by by left. reflexivity.
  - by vm_compute.
  - intros Hs. apply StronglySorted_cons in Hs as [Hle _].
    apply Forall_cons in Hle as [Hle _]. vm_compute in Hle. by apply Hle.
Qed.

(** ** Aggregation *)

(** The stable sort by date meets the contract of [sort_values("Date")]. *)
Lemma Date_asc_leb_sorted l :
  StronglySorted Date_asc (stable_sort Date_asc_leb l).
Proof.
  eapply StronglySorted_impl; [|apply (stable_sort_sorted Date_asc_leb)].
  - intros x y. apply Z.leb_le.
  - intros a b. unfold Date_asc_leb. rewrite !Z.leb_le. lia.
  - intros a b c. unfold Date_asc_leb. rewrite !Z.leb_le. lia.
Qed.

Definition stable_sort_by_Date : sorter Date_asc :=
  {| sort_values := stable_sort Date_asc_leb;
     sort_values_perm := stable_sort_perm Date_asc_leb;
     sort_values_sorted := Date_asc_leb_sorted |}.

Section cumsum.
Context {K : Type} `{EqDecision K} (key : Row → K).

Lemma cumsum_from_length totals rows :
  length (cumsum_from key totals rows) = length rows.
Proof.
  revert totals. induction rows as [|r rows IH]; intros totals; simpl;
    [done | by rewrite IH].
Qed.

(** The cumulative value of a row is the running total its group had
    before the table, plus the metric of every row of the same group up
    to and including it; rows of other groups add nothing. *)
Lemma cumsum_from_lookup totals rows i r :
  rows !! i = Some r →
  ∃ r', cumsum_from key totals rows !! i = Some r' ∧
    col_Date r' = col_Date r ∧ col_selected r' = col_selected r ∧
    col_artist_name r' = col_artist_name r ∧
    col_track_uri r' = col_track_uri r ∧ col_metric r' = col_metric r ∧
    col_Cumulative r' =
      foldl Qplus (running_total (key r) totals)
        (col_metric <$> filter (λ r0, key r0 = key r) (take (S i) rows)).
Proof.
  revert totals i. induction rows as [|r0 rows IH]; intros totals i Hi;
    [done|].
  destruct i as [|i]; simpl in Hi.
  - injection Hi as ->. eexists. split; [reflexivity|]. simpl.
    rewrite take_0, filter_cons_True by done. done.
  - destruct (IH ((key r0, (running_total (key r0) totals + col_metric r0)%Q)
                    :: totals) i Hi) as (r' & Hr' & ? & ? & ? & ? & ? & Hcum).
    exists r'. split; [exact Hr'|]. repeat split; try done.
    rewrite Hcum. simpl running_total.
    change (take (S (S i)) (r0 :: rows)) with (r0 :: take (S i) rows).
    destruct (decide (key r = key r0)) as [Heq|Hne].
    + rewrite filter_cons_True by done. simpl. by rewrite Heq.
    + rewrite filter_cons_False by done. done.
Qed.
End cumsum.

(** C3. On [two_intros], ranked by track, the stream count is cumulated per
    track, artist and uri, so each of the two tracks stands at 1; the
    summed duration is cumulated per track name alone (line 319), so the
    second track is given 150, the first track's 100 added to its own 50. *)
Theorem duration_cumsum_merges_same_name_tracks :
  (λ r, (col_selected r, col_artist_name r, col_track_uri r, col_Cumulative r))
    <$> aggregate stable_sort_by_Date Streams track_name two_intros
  = [("Intro", "A", "u1", 1); ("Intro", "B", "u2", 1)]%string%Q ∧
  (λ r, (col_selected r, col_artist_name r, col_track_uri r, col_Cumulative r))
    <$> aggregate stable_sort_by_Date duration_ms track_name two_intros
  = [("Intro", "A", "u1", 100); ("Intro", "B", "u2", 150)]%string%Q.
Proof. split; by vm_compute. Qed.

(** ** The cumulative values handed to [precompute_data] *)

Lemma foldl_Qplus_nonneg (a : Q) (l : list Q) :
  (0 <= a)%Q → Forall (λ x, (0 <= x)%Q) l → (0 <= foldl Qplus a l)%Q.
Proof.
  revert a. induction l as [|x l IH]; intros a Ha Hl; simpl; [done|].
  apply Forall_cons in Hl as [Hx Hl]. apply IH; [lra | done].
Qed.

Lemma group_metric_nonneg analysis_metric (group : list Event) :
  Forall (λ e, (0 <= ev_duration_ms e)%Q) group →
  (0 <= group_metric analysis_metric group)%Q.
Proof.
  intros Hgroup. destruct analysis_metric; simpl.
  - unfold Qle. simpl. lia.
  - apply foldl_Qplus_nonneg; [done|]. by apply Forall_fmap.
Qed.

(** X5. No cumulative value of the aggregated table is negative, when no
    play has a negative duration: a stream count is a number of plays, and
    a cumulative duration is a sum of play lengths. *)
Theorem aggregate_Cumulative_nonneg (sort_by_Date : sorter Date_asc)
    analysis_metric selected_attribute (df : list Event) :
  Forall (λ e, (0 <= ev_duration_ms e)%Q) df →
  Forall (λ r, (0 <= col_Cumulative r)%Q)
    (aggregate sort_by_Date analysis_metric selected_attribute df).
Proof.
  intros Hdf. unfold aggregate.
  set (rows := sort_by_Date (monthly_rows analysis_metric selected_attribute df)).
  assert (Forall (λ r, (0 <= col_metric r)%Q) rows) as Hmetric.
  { unfold rows. rewrite (sort_values_perm sort_by_Date).
    unfold monthly_rows. apply Forall_fmap, Forall_forall. intros k _. simpl.
    apply group_metric_nonneg. apply Forall_forall. intros e He.
    apply list_elem_of_filter in He as [_ He].
    rewrite Forall_forall in Hdf. by apply Hdf. }
  apply Forall_forall. intros r' Hr'.
  apply list_elem_of_lookup_1 in Hr' as [i Hi].
  destruct (lookup_lt_is_Some_2 rows i) as [r Hr].
  { rewrite <- (cumsum_from_length
                  (cumsum_key analysis_metric selected_attribute) [] rows).
    by eapply lookup_lt_Some. }
  destruct (cumsum_from_lookup
              (cumsum_key analysis_metric selected_attribute) [] rows i r Hr)
    as (r'' & Hr'' & _ & _ & _ & _ & _ & Hcum).
  rewrite Hi in Hr''. injection Hr'' as <-. rewrite Hcum. simpl running_total.
  apply foldl_Qplus_nonneg; [done|]. apply Forall_fmap, Forall_forall.
  intros x Hx. apply list_elem_of_filter in Hx as [_ Hx].
  eapply elem_of_sublist in Hx; [|apply sublist_take].
  rewrite Forall_forall in Hmetric. by apply Hmetric.
Qed.

(** ** The identity mapping *)

Lemma index_of_Some (name : string) (l : list string) (j : nat) :
  index_of name l = Some j ↔
  l !! j = Some name ∧ ∀ j', (j' < j)%nat → l !! j' ≠ Some name.
Proof.
  unfold index_of. split.
  - destruct (list_find _ l) as [[j0 x]|] eqn:Hfind; [|done].
    intros [= <-]. apply list_find_Some in Hfind as (Hx & -> & Hfirst).
    split; [done|]. intros j' Hlt Hj'. by apply (Hfirst j' name).
  - intros [Hj Hfirst].
    assert (list_find (λ x, x = name) l = Some (j, name)) as ->; [|done].
    apply list_find_Some. split; [done|]. split; [done|].
    intros j' y Hy Hlt ->. by apply (Hfirst j').
Qed.

Lemma index_of_None (name : string) (l : list string) :
  index_of name l = None ↔ name ∉ l.
Proof.
  unfold index_of. destruct (list_find _ l) as [[j0 x]|] eqn:Hfind; simpl.
  - split; [done|]. intros Hnotin.
    apply list_find_Some in Hfind as (Hx & -> & _).
    destruct Hnotin. by eapply list_elem_of_lookup_2.
  - split; [|done]. intros _ Hin. apply list_find_None in Hfind.
    rewrite Forall_forall in Hfind. by apply (Hfind name).
Qed.

Lemma index_of_elem_of (name : string) (l : list string) :
  name ∈ l → ∃ j, index_of name l = Some j.
Proof.
  intros Hin. destruct (index_of name l) as [j|] eqn:Hidx; [by eexists|].
  by apply index_of_None in Hidx.
Qed.

Lemma index_of_lt (name : string) (l : list string) (j : nat) :
  index_of name l = Some j → (j < length l)%nat.
Proof. intros [Hj _]%index_of_Some. by eapply lookup_lt_Some. Qed.

Lemma assign_bar_mapping_Ok prev_names i names bar_mapping :
  (i + length names ≤ length bar_mapping)%nat →
  ∃ bar_mapping',
    assign_bar_mapping prev_names i names bar_mapping = Ok bar_mapping' ∧
    length bar_mapping' = length bar_mapping ∧
    (∀ j name, names !! j = Some name →
       bar_mapping' !! (i + j)%nat = Some (index_of name prev_names)) ∧
    (∀ j, (j < i)%nat → bar_mapping' !! j = bar_mapping !! j).
Proof.
  revert i bar_mapping.
  induction names as [|name names IH]; intros i bar_mapping Hlen; simpl in *.
  - exists bar_mapping. split; [done|]. split; [done|]. split; [|done].
    intros j name Hj. done.
  - rewrite decide_True by lia.
    destruct (IH (S i) (<[i := index_of name prev_names]> bar_mapping))
      as (bm & Hrun & Hlength & Hnew & Hold).
    { rewrite length_insert. lia. }
    exists bm. split; [done|]. rewrite length_insert in Hlength.
    split; [done|]. split.
    + intros [|j] name' Hj; simpl in Hj.
      * injection Hj as <-. rewrite Nat.add_0_r, Hold by lia.
        apply list_lookup_insert_eq. lia.
      * replace (i + S j)%nat with (S i + j)%nat by lia. by apply Hnew.
    + intros j Hj. rewrite Hold by lia. apply list_lookup_insert_ne. lia.
Qed.

Lemma bar_mapping_of_Ok top_n prev_names names :
  (length names ≤ top_n)%nat →
  ∃ bar_mapping,
    bar_mapping_of top_n prev_names names = Ok bar_mapping ∧
    length bar_mapping = top_n ∧
    ∀ i name, names !! i = Some name →
      bar_mapping !! i = Some (index_of name prev_names).
Proof.
  intros Hlen. unfold bar_mapping_of.
  destruct (assign_bar_mapping_Ok prev_names 0 names (replicate top_n None))
    as (bm & Hrun & Hlength & Hnew & _).
  { rewrite length_replicate. lia. }
  exists bm. rewrite length_replicate in Hlength. eauto.
Qed.

Lemma collect_start_positions_Ok prev_interp_positions bar_mapping i names :
  (∀ j name, names !! j = Some name →
     ∃ m, bar_mapping !! (i + j)%nat = Some m ∧
          ∀ idx, m = Some idx → (idx < length prev_interp_positions)%nat) →
  ∃ start_positions,
    collect_start_positions prev_interp_positions bar_mapping i names
      = Ok start_positions ∧
    length start_positions = length names ∧
    ∀ j name, names !! j = Some name →
      ∃ m, bar_mapping !! (i + j)%nat = Some m ∧
        start_positions !! j =
          match m with
          | Some idx => prev_interp_positions !! idx
          | None => Some off_screen
          end.
Proof.
  revert i. induction names as [|name names IH]; intros i Hmap; simpl.
  - exists []. split; [done|]. split; [done|]. intros j name Hj. done.
  - destruct (Hmap 0%nat name eq_refl) as (m & Hm & Hidx).
    rewrite Nat.add_0_r in Hm.
    unfold getitem at 1. rewrite Hm. simpl.
    assert (∃ p, match m with
                 | Some prev_idx => getitem prev_interp_positions prev_idx
                 | None => Ok off_screen
                 end = Ok p ∧
                 Some p = match m with
                          | Some idx => prev_interp_positions !! idx
                          | None => Some off_screen
                          end) as (p & Hp & Hp').
    { destruct m as [idx|]; [|by eexists].
      destruct (getitem_lt prev_interp_positions idx) as (p & Hp & Hp');
        [by apply Hidx | by exists p]. }
    rewrite Hp. simpl.
    destruct (IH (S i)) as (ps & Hps & Hlen & Hrest).
    { intros j name' Hj. replace (S i + j)%nat with (i + S j)%nat by lia.
      by apply (Hmap (S j) name'). }
    rewrite Hps. simpl. exists (p :: ps). split; [done|].
    split; [simpl; by rewrite Hlen|].
    intros [|j] name' Hj; simpl in Hj.
    + injection Hj as <-. exists m. rewrite Nat.add_0_r. done.
    + replace (i + S j)%nat with (S i + j)%nat by lia.
      by apply (Hrest j name').
Qed.

(** ** Comprehensions over [range(top_n)] *)

Lemma traverse_seq_Ok {B} (f : nat → result B) (n : nat) (ys : list B) :
  traverse f (seq 0 n) = Ok ys →
  length ys = n ∧ ∀ i y, ys !! i = Some y → f i = Ok y.
Proof.
  intros Hall%traverse_Ok. split.
  - apply Forall2_length in Hall. by rewrite length_seq in Hall.
  - intros i y Hy.
    assert (i < n)%nat as Hi.
    { apply Forall2_length in Hall. rewrite length_seq in Hall.
      apply lookup_lt_Some in Hy. lia. }
    eapply (Forall2_lookup_lr _ _ _ i i y) in Hall; [done| |done].
    apply lookup_seq. done.
Qed.

Lemma traverse_seq_total {B} (f : nat → result B) (n : nat) :
  (∀ i, (i < n)%nat → ∃ y, f i = Ok y) → ∃ ys, traverse f (seq 0 n) = Ok ys.
Proof.
  intros Hf. apply traverse_total. intros i Hi.
  apply elem_of_seq in Hi. apply Hf. lia.
Qed.

Lemma traverse_seq_lookup {B} (f : nat → result B) (n : nat) (ys : list B) i :
  traverse f (seq 0 n) = Ok ys → (i < n)%nat →
  ∃ y, ys !! i = Some y ∧ f i = Ok y.
Proof.
  intros Hys Hi. destruct (traverse_seq_Ok f n ys Hys) as [Hlen Hall].
  destruct (lookup_lt_is_Some_2 ys i) as [y Hy]; [lia|].
  exists y. split; [done | by apply Hall].
Qed.

(** ** One frame *)

Section frame.
Context (cfg : Config).

Local Abbreviation top_n := (cfg_top_n cfg).
Local Abbreviation interp_steps := (cfg_interp_steps cfg).

Lemma frame_positions_first anim_state names :
  frame_positions cfg anim_state 0 names
  = Ok (target_positions top_n, replicate top_n off_screen).
Proof.
  unfold frame_positions.
  rewrite decide_True by apply Nat.Div0.mod_0_l.
  by rewrite decide_True.
Qed.

Lemma frame_positions_sub anim_state frame names :
  (frame `mod` interp_steps ≠ 0)%nat →
  frame_positions cfg anim_state frame names
  = Ok (current_new_positions anim_state, prev_interp_positions anim_state).
Proof. intros Hsub. unfold frame_positions. by rewrite decide_False. Qed.

Lemma frame_positions_transition anim_state frame names :
  (frame `mod` interp_steps = 0)%nat → frame ≠ 0%nat →
  (length names ≤ top_n)%nat →
  (length (prev_names anim_state)
     ≤ length (prev_interp_positions anim_state))%nat →
  ∃ bar_mapping start_positions,
    bar_mapping_of top_n (prev_names anim_state) names = Ok bar_mapping ∧
    collect_start_positions (prev_interp_positions anim_state)
      bar_mapping 0 names = Ok start_positions ∧
    frame_positions cfg anim_state frame names
      = Ok (target_positions top_n, start_positions) ∧
    length bar_mapping = top_n ∧
    length start_positions = length names ∧
    ∀ i name, names !! i = Some name →
      bar_mapping !! i = Some (index_of name (prev_names anim_state)) ∧
      start_positions !! i =
        match index_of name (prev_names anim_state) with
        | Some j => prev_interp_positions anim_state !! j
        | None => Some off_screen
        end.
Proof.
  intros Hsub Hframe Hnames Hprev.
  destruct (bar_mapping_of_Ok top_n (prev_names anim_state) names Hnames)
    as (bm & Hbm & Hbmlen & Hmap).
  destruct (collect_start_positions_Ok (prev_interp_positions anim_state)
              bm 0 names) as (start & Hstart & Hlen & Hpos).
  { intros j name Hj. exists (index_of name (prev_names anim_state)).
    split; [by apply Hmap|]. intros idx Hidx%index_of_lt. lia. }
  exists bm, start. split; [done|]. split; [done|]. split.
  { unfold frame_positions.
    rewrite decide_True, decide_False by done.
    rewrite Hbm. simpl. by rewrite Hstart. }
  split; [done|]. split; [done|].
  intros i name Hi. split; [by apply Hmap|].
  destruct (Hpos i name Hi) as (m & Hm & Hstart_i).
  simpl in Hm. rewrite (Hmap i name Hi) in Hm. by injection Hm as <-.
Qed.

(** What a frame that returns has computed. *)
Lemma frame_locals_Ok anim_state frame loc :
  frame_locals cfg anim_state frame = Ok loc →
  interp_steps ≠ 0%nat ∧
  ∃ data,
    snapshot_of cfg (frame `div` interp_steps) = Some data ∧
    loc_widths loc = widths data ∧
    loc_names loc = names data ∧
    frame_positions cfg anim_state frame (names data)
      = Ok (loc_new_positions loc, loc_start_positions loc) ∧
    loc_t_eased loc = quadratic_ease_in_out (sub_frame_t cfg frame) ∧
    traverse (interp_position (loc_start_positions loc)
                (loc_new_positions loc) (loc_t_eased loc)) (seq 0 top_n)
      = Ok (loc_interp_positions loc) ∧
    traverse (interp_width (prev_widths anim_state) (widths data)
                (loc_t_eased loc)) (seq 0 top_n)
      = Ok (loc_interp_widths loc) ∧
    loc_max_width loc = max_or_one (loc_interp_widths loc) ∧
    loc_display_widths loc
      = fst <$> shown cfg (names data) (loc_interp_widths loc) ∧
    loc_active_bars loc
      = snd <$> shown cfg (names data) (loc_interp_widths loc).
Proof.
  unfold frame_locals. case_decide as HK; [done|]. intros Hrun.
  split; [done|].
  apply bind_Ok in Hrun as (ts & Hts%getitem_Ok & Hrun).
  apply bind_Ok in Hrun as (data & Hdata & Hrun).
  destruct (cfg_precomputed_data cfg !! ts) as [data'|] eqn:Hlookup;
    [|done]. injection Hdata as ->.
  apply bind_Ok in Hrun as ([new start] & Hpos & Hrun).
  apply bind_Ok in Hrun as (ip & Hip & Hrun).
  apply bind_Ok in Hrun as (iw & Hiw & Hrun).
  injection Hrun as <-. simpl in *.
  exists data. unfold snapshot_of. rewrite Hts. simpl.
  repeat split; done.
Qed.

Lemma frame_locals_total anim_state frame data new_positions start_positions :
  interp_steps ≠ 0%nat →
  snapshot_of cfg (frame `div` interp_steps) = Some data →
  frame_positions cfg anim_state frame (names data)
    = Ok (new_positions, start_positions) →
  (top_n ≤ length new_positions)%nat →
  (top_n ≤ length start_positions)%nat →
  (top_n ≤ length (widths data))%nat →
  ∃ loc, frame_locals cfg anim_state frame = Ok loc.
Proof.
  intros HK Hdata Hpos Hnew Hstart Hwidths.
  unfold frame_locals. rewrite decide_False by done.
  unfold snapshot_of in Hdata.
  destruct (cfg_timestamps cfg !! (frame `div` interp_steps)%nat)
    as [ts|] eqn:Hts; [|done]. simpl in Hdata.
  apply getitem_Ok in Hts. rewrite Hts. simpl. rewrite Hdata. simpl.
  rewrite Hpos. simpl.
  destruct (traverse_seq_total
              (interp_position start_positions new_positions
                 (quadratic_ease_in_out (sub_frame_t cfg frame))) top_n)
    as [ip Hip].
  { intros i Hi. unfold interp_position.
    destruct (getitem_lt start_positions i) as (s & -> & _); [lia|].
    destruct (getitem_lt new_positions i) as (n & -> & _); [lia|].
    simpl. by eexists. }
  rewrite Hip. simpl.
  destruct (traverse_seq_total
              (interp_width (prev_widths anim_state) (widths data)
                 (quadratic_ease_in_out (sub_frame_t cfg frame))) top_n)
    as [iw Hiw].
  { intros i Hi. unfold interp_width.
    destruct (getitem_lt (widths data) i) as (w & -> & _); [lia|].
    destruct (prev_widths anim_state !! i); simpl; by eexists. }
  rewrite Hiw. simpl. by eexists.
Qed.

Lemma shown_length names interp_widths :
  length (shown cfg names interp_widths) = length interp_widths.
Proof. unfold shown. by rewrite length_imap. Qed.

Lemma shown_lookup names interp_widths i width :
  interp_widths !! i = Some width →
  shown cfg names interp_widths !! i =
    Some (shown_width names
            (max_or_one interp_widths * min_bar_width_multiplier cfg)%Q
            i width).
Proof. intros Hi. unfold shown. rewrite list_lookup_imap, Hi. done. Qed.

Lemma frame_locals_lengths anim_state frame loc :
  frame_locals cfg anim_state frame = Ok loc →
  length (loc_interp_positions loc) = top_n ∧
  length (loc_interp_widths loc) = top_n ∧
  length (loc_display_widths loc) = top_n ∧
  length (loc_active_bars loc) = top_n.
Proof.
  intros (_ & data & _ & _ & _ & _ & _ & Hip & Hiw & _ & -> & ->)
    %frame_locals_Ok.
  apply traverse_seq_Ok in Hip as [Hip _].
  apply traverse_seq_Ok in Hiw as [Hiw _].
  rewrite !length_fmap, shown_length. done.
Qed.

Lemma first_frame_override_lengths frame loc :
  length (loc_interp_positions loc) = top_n →
  length (loc_display_widths loc) = top_n →
  length (loc_active_bars loc) = top_n →
  let loc' := first_frame_override cfg frame loc in
  length (loc_interp_positions loc') = top_n ∧
  length (loc_interp_widths loc') = length (loc_interp_widths loc) ∧
  length (loc_display_widths loc') = top_n ∧
  length (loc_active_bars loc') = top_n.
Proof.
  intros ? ? ?. unfold first_frame_override.
  case_decide; simpl; rewrite ?length_replicate; done.
Qed.
End frame.

Section drawing.
Context (cfg : Config).

Local Abbreviation top_n := (cfg_top_n cfg).
Local Abbreviation interp_steps := (cfg_interp_steps cfg).

Lemma draw_bars_total loc bars :
  (length bars ≤ length (loc_active_bars loc))%nat →
  (length bars ≤ length (loc_display_widths loc))%nat →
  (length bars ≤ length (loc_interp_positions loc))%nat →
  ∃ bars', draw_bars cfg loc bars = Ok bars'.
Proof.
  intros Hactive Hdisplay Hpos. apply traverse_seq_total. intros i Hi.
  destruct (getitem_lt (loc_active_bars loc) i) as (active & -> & _); [lia|].
  simpl. destruct active; [|by eexists].
  destruct (getitem_lt (loc_display_widths loc) i) as (w & -> & _); [lia|].
  destruct (getitem_lt (loc_interp_positions loc) i) as (y & -> & _); [lia|].
  simpl. by eexists.
Qed.

Lemma draw_bars_Ok loc bars bars' :
  draw_bars cfg loc bars = Ok bars' →
  length bars' = length bars ∧
  ∀ i bar, bars' !! i = Some bar →
    ∃ active, loc_active_bars loc !! i = Some active ∧
      if (active : bool) then
        ∃ width y,
          loc_display_widths loc !! i = Some width ∧
          loc_interp_positions loc !! i = Some y ∧
          bar = {| bar_width := width;
                   bar_y := (y - cfg_bar_height cfg / 2)%Q;
                   bar_visible := true |}
      else bar = {| bar_width := 0%Q; bar_y := (-1)%Q; bar_visible := false |}.
Proof.
  intros [Hlen Hall]%traverse_seq_Ok. split; [done|].
  intros i bar Hbar. specialize (Hall i bar Hbar). simpl in Hall.
  apply bind_Ok in Hall as (active & Hactive%getitem_Ok & Hall).
  exists active. split; [done|]. destruct active.
  - apply bind_Ok in Hall as (w & Hw%getitem_Ok & Hall).
    apply bind_Ok in Hall as (y & Hy%getitem_Ok & Hall).
    injection Hall as <-. by exists w, y.
  - by injection Hall as <-.
Qed.

Lemma draw_texts_total frame loc texts :
  (top_n ≤ length (loc_display_widths loc))%nat →
  (top_n ≤ length (loc_interp_positions loc))%nat →
  (top_n ≤ length (loc_active_bars loc))%nat →
  (top_n ≤ length (loc_interp_widths loc))%nat →
  (top_n ≤ length texts)%nat →
  ∃ texts', draw_texts cfg frame loc texts = Ok texts'.
Proof.
  intros Hdisplay Hpos Hactive Hwidths Htexts. unfold draw_texts.
  match goal with
  | |- context [traverse ?f (seq 0 top_n)] =>
      destruct (traverse_seq_total f top_n) as [drawn Hdrawn]
  end.
  { intros i Hi.
    destruct (getitem_lt (loc_display_widths loc) i) as (x & -> & _); [lia|].
    destruct (getitem_lt (loc_interp_positions loc) i) as (y & -> & _); [lia|].
    destruct (getitem_lt (loc_active_bars loc) i) as (a & -> & _); [lia|].
    destruct (getitem_lt texts i) as (txt & -> & _); [lia|]. simpl.
    case_decide; [by eexists|]. destruct a; [|by eexists].
    destruct (getitem_lt (loc_interp_widths loc) i) as (w & -> & _); [lia|].
    simpl. by eexists. }
  rewrite Hdrawn. simpl. by eexists.
Qed.

Lemma draw_texts_Ok frame loc texts texts' :
  draw_texts cfg frame loc texts = Ok texts' →
  (top_n ≤ length texts)%nat →
  length texts' = length texts ∧
  ∀ i, (i < top_n)%nat →
    ∃ text_x bar_center_y has_data txt txt',
      loc_display_widths loc !! i = Some text_x ∧
      loc_interp_positions loc !! i = Some bar_center_y ∧
      loc_active_bars loc !! i = Some has_data ∧
      texts !! i = Some txt ∧
      texts' !! i = Some txt' ∧
      if decide (frame = 0%nat) then txt' = hide txt
      else if (has_data : bool) then
        ∃ interp_width,
          loc_interp_widths loc !! i = Some interp_width ∧
          txt' =
            {| text_position :=
                 ((text_x
                   + Qmax (1 # 100)
                       (max_or_one (loc_display_widths loc) * (3 # 100)))%Q,
                  bar_center_y);
               text_string := format_value interp_width;
               text_visible := true |}
      else txt' = hide txt.
Proof.
  unfold draw_texts. intros Hrun Htexts.
  apply bind_Ok in Hrun as (drawn & Hdrawn & Hrun). injection Hrun as <-.
  pose proof (traverse_seq_Ok _ _ _ Hdrawn) as [Hlen _].
  split.
  { rewrite length_app, length_drop. lia. }
  intros i Hi.
  destruct (traverse_seq_lookup _ _ _ i Hdrawn Hi) as (txt' & Htxt' & Hf).
  simpl in Hf.
  apply bind_Ok in Hf as (text_x & Hx%getitem_Ok & Hf).
  apply bind_Ok in Hf as (y & Hy%getitem_Ok & Hf).
  apply bind_Ok in Hf as (has_data & Ha%getitem_Ok & Hf).
  apply bind_Ok in Hf as (txt & Htxt%getitem_Ok & Hf).
  exists text_x, y, has_data, txt, txt'.
  repeat (split; [done|]). split.
  { rewrite lookup_app_l by lia. done. }
  case_decide; [by injection Hf as <-|].
  destruct has_data; [|by injection Hf as <-].
  apply bind_Ok in Hf as (w & Hw%getitem_Ok & Hf).
  injection Hf as <-. by exists w.
Qed.

Lemma animate_Ok anim_state scene frame anim_state' scene' :
  animate cfg anim_state scene frame = Ok (anim_state', scene') →
  ∃ loc0,
    frame_locals cfg anim_state frame = Ok loc0 ∧
    let loc := first_frame_override cfg frame loc0 in
    draw_bars cfg loc (bars scene) = Ok (bars scene') ∧
    draw_texts cfg frame loc (text_objects scene)
      = Ok (text_objects scene') ∧
    anim_state' = next_state cfg anim_state frame loc.
Proof.
  unfold animate. intros Hrun.
  apply bind_Ok in Hrun as (loc0 & Hloc & Hrun).
  apply bind_Ok in Hrun as (bars' & Hbars & Hrun).
  apply bind_Ok in Hrun as (texts' & Htexts & Hrun).
  apply bind_Ok in Hrun as (top & Htop & Hrun).
  injection Hrun as <- <-. exists loc0. done.
Qed.

Lemma animate_total anim_state scene frame loc0 :
  frame_locals cfg anim_state frame = Ok loc0 →
  (0 < top_n)%nat → scene_wf cfg scene →
  ∃ anim_state' scene',
    animate cfg anim_state scene frame = Ok (anim_state', scene') ∧
    scene_wf cfg scene' ∧
    anim_state'
      = next_state cfg anim_state frame (first_frame_override cfg frame loc0).
Proof.
  intros Hloc Hn [Hbars Htexts].
  destruct (frame_locals_lengths cfg _ _ _ Hloc) as (Hip & Hiw & Hd & Ha).
  destruct (first_frame_override_lengths cfg frame loc0 Hip Hd Ha)
    as (Hip' & Hiw' & Hd' & Ha').
  set (loc := first_frame_override cfg frame loc0) in *.
  destruct (draw_bars_total loc (bars scene)) as [bars' Hbars'];
    [lia..|].
  destruct (draw_texts_total frame loc (text_objects scene))
    as [texts' Htexts']; [lia..|].
  unfold animate. rewrite Hloc. simpl. fold loc.
  rewrite Hbars'. simpl. rewrite Htexts'. simpl.
  destruct (loc_display_widths loc) as [|w ws] eqn:Hdisplay;
    [simpl in Hd'; lia|]. simpl.
  eexists _, _. split; [done|]. split; [|done].
  apply draw_bars_Ok in Hbars' as [Hlen _].
  apply draw_texts_Ok in Htexts' as [Hlen' _]; [|lia].
  split; simpl; lia.
Qed.
End drawing.

(** ** Frames in sequence *)

Lemma succ_div_mod_last (n K : nat) :
  (0 < K)%nat → (n `mod` K = K - 1)%nat →
  (S n `div` K = S (n `div` K))%nat ∧ (S n `mod` K = 0)%nat.
Proof.
  intros HK Hlast. pose proof (Nat.div_mod_eq n K) as Hn.
  assert (S n = K * S (n `div` K) + 0)%nat as Hsucc by lia.
  split.
  - symmetry. apply (Nat.div_unique _ _ _ 0%nat); [lia | done].
  - symmetry. apply (Nat.mod_unique _ _ (S (n `div` K))); [lia | done].
Qed.

Lemma succ_div_mod_inner (n K : nat) :
  (0 < K)%nat → (n `mod` K ≠ K - 1)%nat →
  (S n `div` K = n `div` K)%nat ∧ (S n `mod` K = S (n `mod` K))%nat.
Proof.
  intros HK Hinner. pose proof (Nat.div_mod_eq n K) as Hn.
  pose proof (Nat.mod_upper_bound n K) as Hlt.
  assert (S n = K * (n `div` K) + S (n `mod` K))%nat as Hsucc by lia.
  split.
  - symmetry. apply (Nat.div_unique _ _ _ (S (n `mod` K))); [lia | done].
  - symmetry. apply (Nat.mod_unique _ _ (n `div` K)); [lia | done].
Qed.

Lemma target_positions_length (top_n : nat) :
  length (target_positions top_n) = top_n.
Proof.
  unfold target_positions. case_decide as Hn; [by rewrite Hn|].
  by rewrite length_fmap, length_seq.
Qed.

Section run.
Context (cfg : Config).

Local Abbreviation top_n := (cfg_top_n cfg).
Local Abbreviation interp_steps := (cfg_interp_steps cfg).

Lemma snapshot_of_wf main_frame :
  config_wf cfg → (main_frame < length (cfg_timestamps cfg))%nat →
  ∃ snap, snapshot_of cfg main_frame = Some snap ∧
          length (widths snap) = top_n ∧ length (names snap) = top_n.
Proof.
  intros (_ & _ & Hall) Hlt.
  destruct (lookup_lt_is_Some_2 _ _ Hlt) as [ts Hts].
  rewrite Forall_forall in Hall.
  destruct (Hall ts) as (snap & Hsnap & ? & ?);
    [by eapply list_elem_of_lookup_2|].
  exists snap. unfold snapshot_of. rewrite Hts. simpl. done.
Qed.

Lemma main_frame_lt n :
  (n < total_frames cfg)%nat →
  (n `div` interp_steps < length (cfg_timestamps cfg))%nat.
Proof.
  unfold total_frames. intros Hn.
  apply Nat.Div0.div_lt_upper_bound. lia.
Qed.

(** From a state that satisfies the invariant, frame [n] returns and
    hands on a state that satisfies it for frame [n + 1]. *)
Lemma animate_step initial n anim_state scene :
  config_wf cfg → scene_wf cfg scene → (n < total_frames cfg)%nat →
  run_invariant cfg initial n anim_state →
  ∃ snap loc0 anim_state' scene',
    snapshot_of cfg (n `div` interp_steps) = Some snap ∧
    length (widths snap) = top_n ∧ length (names snap) = top_n ∧
    frame_locals cfg anim_state n = Ok loc0 ∧
    loc_widths loc0 = widths snap ∧ loc_names loc0 = names snap ∧
    loc_new_positions loc0 = target_positions top_n ∧
    animate cfg anim_state scene n = Ok (anim_state', scene') ∧
    anim_state'
      = next_state cfg anim_state n (first_frame_override cfg n loc0) ∧
    scene_wf cfg scene' ∧
    run_invariant cfg initial (S n) anim_state'.
Proof.
  intros Hcfg Hscene Hn (Hw & Hnames & Hcur & Hprev & Htrans & Hsub).
  pose proof Hcfg as (HK & Htop & _).
  destruct (snapshot_of_wf _ Hcfg (main_frame_lt n Hn))
    as (snap & Hsnap & Hwlen & Hnlen).
  (* the positions of this frame *)
  assert (∃ start,
            frame_positions cfg anim_state n (names snap)
              = Ok (target_positions top_n, start) ∧
            length start = top_n) as (start & Hpos & Hstart).
  { destruct (decide (n `mod` interp_steps = 0)%nat) as [Hzero|Hinner].
    - destruct (decide (n = 0%nat)) as [->|Hne].
      + eexists. split; [apply frame_positions_first|].
        by rewrite length_replicate.
      + assert (1 ≤ n `div` interp_steps)%nat as Hmain.
        { pose proof (Nat.div_mod_eq n interp_steps).
          destruct (n `div` interp_steps)%nat; lia. }
        destruct (n `div` interp_steps)%nat as [|before] eqn:Hdiv; [lia|].
        destruct (snapshot_of_wf before Hcfg) as (prev & Hprevsnap & _ & Hplen).
        { pose proof (main_frame_lt n Hn). lia. }
        simpl in Hnames. rewrite Hprevsnap in Hnames. simpl in Hnames.
        destruct (frame_positions_transition cfg anim_state n (names snap))
          as (bm & st & _ & _ & Hfp & _ & Hlen & _); [done|done|lia| |].
        { rewrite Hnames, Hplen, (Htrans Hne Hzero).
          by rewrite target_positions_length. }
        exists st. split; [done | lia].
    - assert (n ≠ 0%nat) as Hne.
      { intros ->. by rewrite Nat.Div0.mod_0_l in Hinner. }
      exists (prev_interp_positions anim_state).
      rewrite frame_positions_sub by done.
      rewrite (Hcur Hne). split; [done | by apply Hsub]. }
  destruct (frame_locals_total cfg anim_state n snap _ _ ltac:(lia) Hsnap Hpos)
    as [loc0 Hloc]; [rewrite target_positions_length; lia | lia | lia |].
  destruct (animate_total cfg anim_state scene n loc0 Hloc Htop Hscene)
    as (anim_state' & scene' & Hrun & Hscene' & Hnext).
  exists snap, loc0, anim_state', scene'.
  pose proof (frame_locals_lengths cfg _ _ _ Hloc) as (Hip & _ & Hd & Ha).
  pose proof (first_frame_override_lengths cfg n loc0 Hip Hd Ha)
    as (Hip' & _).
  pose proof Hloc as Hloc'.
  apply frame_locals_Ok in Hloc'
    as (_ & data & Hdata & Hlw & Hln & Hfp & _).
  rewrite Hsnap in Hdata. injection Hdata as <-.
  rewrite Hpos in Hfp. injection Hfp as Hnew _.
  repeat (split; [done|]).
  (* the invariant for the next frame *)
  assert (loc_widths (first_frame_override cfg n loc0) = widths snap
          ∧ loc_names (first_frame_override cfg n loc0) = names snap
          ∧ loc_new_positions (first_frame_override cfg n loc0)
            = target_positions top_n) as (Hlw' & Hln' & Hnew').
  { unfold first_frame_override. case_decide; simpl; done. }
  assert ((if decide (n `mod` interp_steps = 0)%nat
           then target_positions top_n
           else current_new_positions anim_state)
          = target_positions top_n) as Hcur'.
  { case_decide as Hzero; [done|]. apply Hcur.
    intros ->. by rewrite Nat.Div0.mod_0_l in Hzero. }
  destruct (decide (n `mod` interp_steps = interp_steps - 1)%nat)
    as [Hlast|Hinner].
  - destruct (succ_div_mod_last n interp_steps HK Hlast) as [Hdiv Hmod].
    unfold run_invariant. rewrite Hdiv, Hmod. simpl.
    rewrite Hsnap. simpl. rewrite Hnext. unfold next_state.
    rewrite (decide_True _ _ Hlast). simpl.
    rewrite Hlw', Hln', Hnew'.
    repeat split; done.
  - destruct (succ_div_mod_inner n interp_steps HK Hinner) as [Hdiv Hmod].
    unfold run_invariant. rewrite Hdiv, Hmod.
    rewrite Hnext. unfold next_state.
    rewrite (decide_False _ _ Hinner). simpl.
    rewrite Hnew'. repeat split; try done.
    intros HSn. apply Hprev.
    destruct (decide (interp_steps ≤ n)%nat); [done|].
    rewrite Nat.mod_small in Hinner by lia. lia.
Qed.

(** Every frame up to the last returns, and the invariant holds of the
    state each frame receives. *)
Lemma run_total initial scene n :
  config_wf cfg → scene_wf cfg scene → (n ≤ total_frames cfg)%nat →
  ∃ anim_state scene',
    run cfg n initial scene = Ok (anim_state, scene') ∧
    scene_wf cfg scene' ∧
    run_invariant cfg initial n anim_state.
Proof.
  intros Hcfg Hscene. induction n as [|n IH]; intros Hn.
  - exists initial, scene. split; [done|]. split; [done|].
    unfold run_invariant.
    rewrite Nat.Div0.div_0_l, Nat.Div0.mod_0_l. simpl.
    repeat split; try done. destruct Hcfg as (? & _). lia.
  - destruct IH as (anim_state & scene' & Hrun & Hscene' & Hinv); [lia|].
    destruct (animate_step initial n anim_state scene' Hcfg Hscene')
      as (_ & _ & anim_state' & scene'' & _ & _ & _ & _ & _ & _ & _
          & Hstep & _ & Hwf & Hinv');
      [lia | done |].
    exists anim_state', scene''. simpl. rewrite Hrun. simpl. done.
Qed.
End run.

(** ** Interpolation *)

Lemma quadratic_ease_in_out_0 (t : Q) :
  (t == 0)%Q → (quadratic_ease_in_out t == 0)%Q.
Proof. intros Ht. unfold quadratic_ease_in_out. rewrite Ht. ring. Qed.

Lemma quadratic_ease_in_out_1 (t : Q) :
  (t == 1)%Q → (quadratic_ease_in_out t == 1)%Q.
Proof. intros Ht. unfold quadratic_ease_in_out. rewrite Ht. ring. Qed.

Lemma clamp_inside (x : Q) :
  (-1 <= x)%Q → (x <= 9)%Q → (Qmin (Qmax x (-1)) 9 == x)%Q.
Proof.
  intros Hlo Hhi. rewrite (Q.max_l x (-1)%Q) by done. by apply Q.min_l.
Qed.

Lemma clamp_Qeq (x y : Q) :
  (x == y)%Q → (Qmin (Qmax x (-1)) 9 == Qmin (Qmax y (-1)) 9)%Q.
Proof. intros ->. reflexivity. Qed.

(** Target positions lie between the lowest and the highest slot. *)
Lemma target_positions_range (top_n i : nat) (p : Q) :
  target_positions top_n !! i = Some p → (3 # 10 <= p)%Q ∧ (p <= 89 # 10)%Q.
Proof.
  unfold target_positions. case_decide as Hn.
  - destruct i; simpl; [|done]. intros [= <-]. split; unfold Qle; simpl; lia.
  - rewrite list_lookup_fmap.
    destruct (seq 0 top_n !! i) as [k|] eqn:Hk; [|done]. simpl.
    apply lookup_seq in Hk as [-> Hi]. simpl. intros [= <-].
    assert (0 < inject_Z (Z.of_nat top_n - 1))%Q as Hden.
    { change 0%Q with (inject_Z 0). rewrite <- Zlt_Qlt. lia. }
    assert (0 <= inject_Z (Z.of_nat i))%Q as Hi0.
    { change 0%Q with (inject_Z 0). rewrite <- Zle_Qle. lia. }
    assert (inject_Z (Z.of_nat i) <= inject_Z (Z.of_nat top_n - 1))%Q as Hi1.
    { rewrite <- Zle_Qle. lia. }
    set (d := inject_Z (Z.of_nat top_n - 1)) in *.
    set (x := inject_Z (Z.of_nat i)) in *.
    assert (x * ((86 # 10) / d) == (86 # 10) * (x / d))%Q as ->.
    { field. intros Hd. rewrite Hd in Hden. by apply Qlt_irrefl in Hden. }
    assert (0 <= x / d)%Q as Hq0.
    { apply Qle_shift_div_l; [done|]. by rewrite Qmult_0_l. }
    assert (x / d <= 1)%Q as Hq1.
    { apply Qle_shift_div_r; [done|]. by rewrite Qmult_1_l. }
    split; lra.
Qed.

(** No target position is the off-screen position. *)
Lemma target_positions_on_screen (top_n i : nat) (p : Q) :
  target_positions top_n !! i = Some p → ¬ (p == off_screen)%Q.
Proof.
  intros [Hlo _]%target_positions_range Heq. unfold off_screen in Heq.
  rewrite Heq in Hlo. unfold Qle in Hlo. simpl in Hlo. lia.
Qed.

Lemma target_positions_bounds (top_n i : nat) (p : Q) :
  target_positions top_n !! i = Some p → (-1 <= p)%Q ∧ (p <= 9)%Q.
Proof. intros [Hlo Hhi]%target_positions_range. split; lra. Qed.

Section interpolation.
Context (cfg : Config).

Local Abbreviation top_n := (cfg_top_n cfg).
Local Abbreviation interp_steps := (cfg_interp_steps cfg).

Lemma sub_frame_t_first frame :
  (1 < interp_steps)%nat → (frame `mod` interp_steps = 0)%nat →
  (sub_frame_t cfg frame == 0)%Q.
Proof.
  intros HK Hsub. unfold sub_frame_t. rewrite decide_True, Hsub by done.
  simpl. unfold Qdiv. by rewrite Qmult_0_l.
Qed.

Lemma sub_frame_t_last frame :
  (frame `mod` interp_steps = interp_steps - 1)%nat →
  (sub_frame_t cfg frame == 1)%Q.
Proof.
  intros Hsub. unfold sub_frame_t. case_decide as HK; [|done].
  rewrite Hsub. rewrite Nat2Z.inj_sub by lia. simpl Z.of_nat.
  apply Qmult_inv_r. change 0%Q with (inject_Z 0). rewrite inject_Z_injective.
  lia.
Qed.

(** The interpolated width of slot [i]: from the width the state holds at
    index [i], or from 0 when the state holds none there, towards the
    snapshot's width at index [i]. *)
Lemma interp_width_value anim_state frame loc i :
  frame_locals cfg anim_state frame = Ok loc → (i < top_n)%nat →
  ∃ w v,
    loc_widths loc !! i = Some w ∧
    loc_interp_widths loc !! i = Some v ∧
    let p := default 0%Q (prev_widths anim_state !! i) in
    (v == p + (w - p) * loc_t_eased loc)%Q.
Proof.
  intros (_ & data & _ & Hw & _ & _ & _ & _ & Hiw & _)%frame_locals_Ok Hi.
  destruct (traverse_seq_lookup _ _ _ i Hiw Hi) as (v & Hv & Hf).
  unfold interp_width in Hf. rewrite Hw.
  destruct (prev_widths anim_state !! i) as [p|];
    apply bind_Ok in Hf as (w & Hwi%getitem_Ok & Hf); injection Hf as <-;
    exists w; eexists; (split; [done|]); (split; [done|]); simpl.
  - reflexivity.
  - ring.
Qed.

Lemma interp_position_value anim_state frame loc i :
  frame_locals cfg anim_state frame = Ok loc → (i < top_n)%nat →
  ∃ s n,
    loc_start_positions loc !! i = Some s ∧
    loc_new_positions loc !! i = Some n ∧
    loc_interp_positions loc !! i
      = Some (Qmin (Qmax (s + (n - s) * loc_t_eased loc) (-1)) 9)%Q.
Proof.
  intros (_ & data & _ & _ & _ & _ & _ & Hip & _)%frame_locals_Ok Hi.
  destruct (traverse_seq_lookup _ _ _ i Hip Hi) as (y & Hy & Hf).
  unfold interp_position in Hf.
  apply bind_Ok in Hf as (s & Hs%getitem_Ok & Hf).
  apply bind_Ok in Hf as (n & Hn%getitem_Ok & Hf).
  injection Hf as <-. by exists s, n.
Qed.

Lemma max_or_one_max (l : list Q) :
  l ≠ [] →
  Forall (λ w, (w <= max_or_one l)%Q) l ∧ max_or_one l ∈ l.
Proof.
  destruct l as [|x l]; [done|]. intros _. simpl.
  split; [apply column_max_ge | apply column_max_elem_of].
Qed.

Lemma Qltb_lt (a b : Q) : Qltb a b = true ↔ (a < b)%Q.
Proof.
  unfold Qltb. rewrite Qlt_alt. destruct (a ?= b)%Q; split; done.
Qed.

(** A slot is shown exactly when its interpolated width is positive and
    its name is not empty; the displayed width is then the larger of the
    interpolated width and the floor. *)
Lemma shown_width_active names min_bar_width i width :
  (shown_width names min_bar_width i width).2 = true ↔
  (0 < width)%Q ∧ default ""%string (names !! i) ≠ ""%string.
Proof.
  unfold shown_width.
  destruct (Qltb 0 width) eqn:Hpos; simpl.
  - apply Qltb_lt in Hpos. case_bool_decide; simpl; split; try done.
    + by intros [_ ?].
  - split; [done|]. intros [Hlt _]. apply Qltb_lt in Hlt. congruence.
Qed.

Lemma shown_width_floor names min_bar_width i width :
  (shown_width names min_bar_width i width).2 = true →
  (shown_width names min_bar_width i width).1 = Qmax width min_bar_width.
Proof.
  unfold shown_width.
  by destruct (Qltb 0 width && bool_decide _).
Qed.
End interpolation.

(** ** Frames of a run *)

Section run_frames.
Context (cfg : Config).

Local Abbreviation top_n := (cfg_top_n cfg).
Local Abbreviation interp_steps := (cfg_interp_steps cfg).

(** Frame [n] of a run: the state and scene it receives, what it
    computes and what it leaves. *)
Lemma run_frame initial scene0 n :
  config_wf cfg → scene_wf cfg scene0 → (n < total_frames cfg)%nat →
  ∃ anim_state scene snap loc anim_state' scene',
    run cfg n initial scene0 = Ok (anim_state, scene) ∧
    scene_wf cfg scene ∧
    run_invariant cfg initial n anim_state ∧
    snapshot_of cfg (n `div` interp_steps) = Some snap ∧
    length (widths snap) = top_n ∧ length (names snap) = top_n ∧
    frame_locals cfg anim_state n = Ok loc ∧
    loc_widths loc = widths snap ∧ loc_names loc = names snap ∧
    loc_new_positions loc = target_positions top_n ∧
    animate cfg anim_state scene n = Ok (anim_state', scene') ∧
    anim_state'
      = next_state cfg anim_state n (first_frame_override cfg n loc) ∧
    scene_wf cfg scene'.
Proof.
  intros Hcfg Hscene Hn.
  destruct (run_total cfg initial scene0 n Hcfg Hscene)
    as (anim_state & scene & Hrun & Hwf & Hinv); [lia|].
  destruct (animate_step cfg initial n anim_state scene Hcfg Hwf Hn Hinv)
    as (snap & loc & anim_state' & scene' & ? & ? & ? & ? & ? & ? & ? & ?
        & ? & ? & _).
  exists anim_state, scene, snap, loc, anim_state', scene'. done.
Qed.

(** The first sub-frame of the transition from snapshot [m] to snapshot
    [m + 1]. *)
Lemma run_transition initial scene0 m prev new :
  config_wf cfg → scene_wf cfg scene0 →
  (S m < length (cfg_timestamps cfg))%nat →
  snapshot_of cfg m = Some prev → snapshot_of cfg (S m) = Some new →
  ∃ anim_state scene loc bar_mapping,
    run cfg (S m * interp_steps) initial scene0 = Ok (anim_state, scene) ∧
    frame_locals cfg anim_state (S m * interp_steps) = Ok loc ∧
    prev_names anim_state = names prev ∧
    prev_widths anim_state = widths prev ∧
    loc_names loc = names new ∧ loc_widths loc = widths new ∧
    loc_new_positions loc = target_positions top_n ∧
    bar_mapping_of top_n (names prev) (names new) = Ok bar_mapping ∧
    ∀ i name, names new !! i = Some name →
      bar_mapping !! i = Some (index_of name (names prev)) ∧
      loc_start_positions loc !! i =
        match index_of name (names prev) with
        | Some j => target_positions top_n !! j
        | None => Some off_screen
        end.
Proof.
  intros Hcfg Hscene Hm Hprev Hnew.
  pose proof Hcfg as (HK & _).
  assert (S m * interp_steps < total_frames cfg)%nat as Hn.
  { unfold total_frames. apply Nat.mul_lt_mono_pos_r; lia. }
  assert ((S m * interp_steps) `div` interp_steps = S m)%nat as Hdiv.
  { apply Nat.div_mul. lia. }
  assert ((S m * interp_steps) `mod` interp_steps = 0)%nat as Hmod.
  { apply Nat.Div0.mod_mul. }
  assert (S m * interp_steps ≠ 0)%nat as Hne by (simpl; lia).
  destruct (run_frame initial scene0 _ Hcfg Hscene Hn)
    as (anim_state & scene & snap & loc & _ & _ & Hrun & _ & Hinv & Hsnap
        & _ & Hnlen & Hloc & Hlw & Hln & Hlnew & _).
  rewrite Hdiv, Hnew in Hsnap. injection Hsnap as <-.
  destruct Hinv as (Hw & Hnames & _ & _ & Htrans & _).
  rewrite Hdiv in Hw, Hnames. simpl in Hw, Hnames.
  rewrite Hprev in Hw, Hnames. simpl in Hw, Hnames.
  specialize (Htrans Hne Hmod).
  destruct (snapshot_of_wf cfg m Hcfg) as (prev' & Hprev' & _ & Hplen);
    [lia|]. rewrite Hprev in Hprev'. injection Hprev' as <-.
  destruct (frame_positions_transition cfg anim_state (S m * interp_steps)
              (names new)) as (bm & start & Hbm & _ & Hfp & _ & _ & Hmap);
    [done | done | lia | |].
  { by rewrite Hnames, Hplen, Htrans, target_positions_length. }
  pose proof Hloc as (_ & data & Hdata & _ & _ & Hfp' & _)%frame_locals_Ok.
  rewrite Hdiv, Hnew in Hdata. injection Hdata as <-.
  rewrite Hfp in Hfp'. injection Hfp' as _ Hstart.
  exists anim_state, scene, loc, bm. rewrite Hnames in Hbm, Hmap.
  repeat (split; [done|]).
  intros i name Hi. destruct (Hmap i name Hi) as [Hbmi Hsi].
  split; [done|]. rewrite <- Hstart, Hsi.
  destruct (index_of name (names prev)); [by rewrite Htrans | done].
Qed.

(** C4. At the first sub-frame of the transition from a snapshot to the
    next, the identity mapping is computed from the two name lists and
    nothing else. A new slot whose name occurs in the previous list is
    mapped to the first index at which it occurs there, and its bar
    starts from the position of that previous slot, so it continues;
    any other new slot is mapped to nothing and starts from the
    off-screen position -1. *)
Theorem identity_mapping_first_occurrence initial scene0 m prev new :
  config_wf cfg → scene_wf cfg scene0 →
  (S m < length (cfg_timestamps cfg))%nat →
  snapshot_of cfg m = Some prev → snapshot_of cfg (S m) = Some new →
  ∃ anim_state scene loc bar_mapping,
    run cfg (S m * interp_steps) initial scene0 = Ok (anim_state, scene) ∧
    frame_locals cfg anim_state (S m * interp_steps) = Ok loc ∧
    bar_mapping_of top_n (names prev) (names new) = Ok bar_mapping ∧
    ∀ i name, names new !! i = Some name →
      (name ∈ names prev →
         ∃ j, bar_mapping !! i = Some (Some j) ∧
              names prev !! j = Some name ∧
              (∀ j', (j' < j)%nat → names prev !! j' ≠ Some name) ∧
              ∃ p, target_positions top_n !! j = Some p ∧
                   loc_start_positions loc !! i = Some p ∧
                   ¬ (p == off_screen)%Q) ∧
      (name ∉ names prev →
         bar_mapping !! i = Some None ∧
         loc_start_positions loc !! i = Some off_screen).
Proof.
  intros Hcfg Hscene Hm Hprev Hnew.
  destruct (run_transition initial scene0 m prev new Hcfg Hscene Hm Hprev Hnew)
    as (anim_state & scene & loc & bm & Hrun & Hloc & _ & _ & _ & _ & _
        & Hbm & Hmap).
  exists anim_state, scene, loc, bm. repeat (split; [done|]).
  destruct (snapshot_of_wf cfg m Hcfg) as (prev' & Hprev' & _ & Hplen);
    [lia|]. rewrite Hprev in Hprev'. injection Hprev' as <-.
  intros i name Hi. destruct (Hmap i name Hi) as [Hbmi Hsi]. split.
  - intros Hin. destruct (index_of_elem_of name (names prev) Hin) as [j Hj].
    rewrite Hj in Hbmi, Hsi. exists j. split; [done|].
    pose proof Hj as [Hnj Hfirst]%index_of_Some. split; [done|].
    split; [done|].
    destruct (lookup_lt_is_Some_2 (target_positions top_n) j) as [p Hp].
    { rewrite target_positions_length, <- Hplen. by eapply lookup_lt_Some. }
    exists p. rewrite Hsi. split; [done|]. split; [done|].
    by eapply target_positions_on_screen.
  - intros Hnotin. apply index_of_None in Hnotin.
    by rewrite Hnotin in Hbmi, Hsi.
Qed.
End run_frames.

Section animation_claims.
Context (cfg : Config).

Local Abbreviation top_n := (cfg_top_n cfg).
Local Abbreviation interp_steps := (cfg_interp_steps cfg).

Lemma frame_locals_t_eased anim_state frame loc :
  frame_locals cfg anim_state frame = Ok loc →
  loc_t_eased loc = quadratic_ease_in_out (sub_frame_t cfg frame).
Proof. by intros (_ & data & _ & _ & _ & _ & ? & _)%frame_locals_Ok. Qed.

(** What lines 648-656 compute in every frame of a run: the interpolated
    width of slot [i] is [p + (w - p) * ease(t)], where [w] is the width
    of slot [i] in the snapshot being approached and [p] is the width
    held at index [i] of [prev_widths]: the width of slot [i] in the
    previous snapshot, or for the first snapshot the initial width of
    slot [i]. The entity in the slot plays no part. *)
Lemma interp_width_per_slot initial scene0 n :
  config_wf cfg → scene_wf cfg scene0 → (n < total_frames cfg)%nat →
  ∃ anim_state scene loc target,
    run cfg n initial scene0 = Ok (anim_state, scene) ∧
    frame_locals cfg anim_state n = Ok loc ∧
    snapshot_of cfg (n `div` interp_steps) = Some target ∧
    loc_t_eased loc = quadratic_ease_in_out (sub_frame_t cfg n) ∧
    ∀ i, (i < top_n)%nat →
      ∃ w v,
        widths target !! i = Some w ∧
        loc_interp_widths loc !! i = Some v ∧
        let p :=
          default 0%Q
            (baseline_widths cfg initial (n `div` interp_steps) !! i) in
        (v == p + (w - p) * loc_t_eased loc)%Q.
Proof.
  intros Hcfg Hscene Hn.
  destruct (run_frame cfg initial scene0 n Hcfg Hscene Hn)
    as (anim_state & scene & snap & loc & _ & _ & Hrun & _ & Hinv & Hsnap
        & _ & _ & Hloc & Hlw & _).
  exists anim_state, scene, loc, snap. repeat (split; [done|]).
  split; [by eapply frame_locals_t_eased|].
  intros i Hi. destruct Hinv as (Hw & _).
  destruct (interp_width_value cfg anim_state n loc i Hloc Hi)
    as (w & v & Hwi & Hvi & Hv).
  exists w, v. rewrite <- Hlw, <- Hw. done.
Qed.

(** The two ends of a transition as the code computes them. With more
    than one sub-frame per snapshot, at the first sub-frame every slot
    has the width held at its index in the previous snapshot and the
    position its own entity had there: the position of the first
    previous slot with its name, or off screen if there is none. At the
    last sub-frame every slot has exactly the width of the target
    snapshot and its target position. Equalities are of exact
    rationals. *)
Lemma transition_endpoints initial scene0 m prev new :
  config_wf cfg → scene_wf cfg scene0 →
  (S m < length (cfg_timestamps cfg))%nat →
  snapshot_of cfg m = Some prev → snapshot_of cfg (S m) = Some new →
  ((1 < interp_steps)%nat →
   ∃ anim_state scene loc,
     run cfg (S m * interp_steps) initial scene0 = Ok (anim_state, scene) ∧
     frame_locals cfg anim_state (S m * interp_steps) = Ok loc ∧
     ∀ i name, names new !! i = Some name →
       ∃ pw w y,
         widths prev !! i = Some pw ∧
         loc_interp_widths loc !! i = Some w ∧
         loc_interp_positions loc !! i = Some y ∧
         (w == pw)%Q ∧
         match index_of name (names prev) with
         | Some j => ∃ p, target_positions top_n !! j = Some p ∧ (y == p)%Q
         | None => (y == off_screen)%Q
         end) ∧
  (∃ anim_state scene loc,
     let last := (S m * interp_steps + (interp_steps - 1))%nat in
     run cfg last initial scene0 = Ok (anim_state, scene) ∧
     frame_locals cfg anim_state last = Ok loc ∧
     ∀ i, (i < top_n)%nat →
       ∃ tw tp w y,
         widths new !! i = Some tw ∧
         target_positions top_n !! i = Some tp ∧
         loc_interp_widths loc !! i = Some w ∧
         loc_interp_positions loc !! i = Some y ∧
         (w == tw)%Q ∧ (y == tp)%Q).
Proof.
  intros Hcfg Hscene Hm Hprev Hnew. pose proof Hcfg as (HK & _).
  destruct (snapshot_of_wf cfg m Hcfg) as (prev' & Hprev' & Hpwlen & Hpnlen);
    [lia|]. rewrite Hprev in Hprev'. injection Hprev' as <-.
  destruct (snapshot_of_wf cfg (S m) Hcfg) as (new' & Hnew' & Hwlen & Hnlen);
    [lia|]. rewrite Hnew in Hnew'. injection Hnew' as <-.
  split.
  - intros HK1.
    destruct (run_transition cfg initial scene0 m prev new
                Hcfg Hscene Hm Hprev Hnew)
      as (anim_state & scene & loc & bm & Hrun & Hloc & _ & Hpw & _ & _
          & Hlnew & _ & Hmap).
    exists anim_state, scene, loc. repeat (split; [done|]).
    assert (loc_t_eased loc == 0)%Q as Hte.
    { rewrite (frame_locals_t_eased _ _ _ Hloc).
      apply quadratic_ease_in_out_0, sub_frame_t_first; [done|].
      apply Nat.Div0.mod_mul. }
    intros i name Hi.
    assert (i < top_n)%nat as Hlt.
    { rewrite <- Hnlen. by eapply lookup_lt_Some. }
    destruct (interp_width_value cfg anim_state _ loc i Hloc Hlt)
      as (w & v & _ & Hvi & Hv).
    destruct (interp_position_value cfg anim_state _ loc i Hloc Hlt)
      as (s & n & Hs & _ & Hy).
    destruct (lookup_lt_is_Some_2 (widths prev) i) as [pw Hpwi]; [lia|].
    rewrite Hpw, Hpwi in Hv. simpl in Hv.
    exists pw, v. eexists. repeat (split; [done|]). split.
    { rewrite Hv, Hte. ring. }
    assert (s + (n - s) * loc_t_eased loc == s)%Q as Hstart.
    { rewrite Hte. ring. }
    destruct (Hmap i name Hi) as [_ Hsi]. rewrite Hs in Hsi.
    destruct (index_of name (names prev)) as [j|].
    + exists s. split; [done|]. rewrite (clamp_Qeq _ _ Hstart).
      symmetry in Hsi. apply target_positions_bounds in Hsi as [? ?].
      by apply clamp_inside.
    + injection Hsi as ->. rewrite (clamp_Qeq _ _ Hstart).
      apply clamp_inside; unfold off_screen, Qle; simpl; lia.
  - set (last := (S m * interp_steps + (interp_steps - 1))%nat).
    assert (last < total_frames cfg)%nat as Hn.
    { unfold total_frames, last. nia. }
    assert (last `div` interp_steps = S m)%nat as Hdiv.
    { symmetry. apply (Nat.div_unique _ _ _ (interp_steps - 1)); unfold last; lia. }
    assert (last `mod` interp_steps = interp_steps - 1)%nat as Hmod.
    { symmetry. apply (Nat.mod_unique _ _ (S m)); unfold last; lia. }
    destruct (run_frame cfg initial scene0 last Hcfg Hscene Hn)
      as (anim_state & scene & snap & loc & _ & _ & Hrun & _ & _ & Hsnap
          & _ & _ & Hloc & Hlw & _ & Hlnew & _).
    rewrite Hdiv, Hnew in Hsnap. injection Hsnap as <-.
    exists anim_state, scene, loc. simpl. repeat (split; [done|]).
    assert (loc_t_eased loc == 1)%Q as Hte.
    { rewrite (frame_locals_t_eased _ _ _ Hloc).
      by apply quadratic_ease_in_out_1, sub_frame_t_last. }
    intros i Hi.
    destruct (interp_width_value cfg anim_state _ loc i Hloc Hi)
      as (w & v & Hwi & Hvi & Hv).
    destruct (interp_position_value cfg anim_state _ loc i Hloc Hi)
      as (s & n & _ & Hni & Hy).
    rewrite Hlw in Hwi. rewrite Hlnew in Hni.
    exists w, n, v. eexists. repeat (split; [done|]). split.
    + rewrite Hv, Hte. ring.
    + assert (s + (n - s) * loc_t_eased loc == n)%Q as Hend.
      { rewrite Hte. ring. }
      rewrite (clamp_Qeq _ _ Hend).
      apply target_positions_bounds in Hni as [? ?]. by apply clamp_inside.
Qed.

(** C7, amended. A frame of a run with [sub_step < K - 1] leaves
    [prev_widths], [prev_names] and [prev_positions] as they were and
    stores its interpolated positions in [prev_interp_positions]; a frame
    with [sub_step = K - 1] overwrites [prev_widths] and [prev_names]
    with the widths and names of the snapshot just reached and
    [prev_positions] and [prev_interp_positions] with the target
    positions. Besides, every frame with [sub_step = 0] stores the
    target positions in [current_new_positions]; other frames leave that
    field alone, and no frame touches [prev_labels]. *)
Theorem state_carry_over initial scene0 n :
  config_wf cfg → scene_wf cfg scene0 → (n < total_frames cfg)%nat →
  ∃ anim_state scene loc target anim_state' scene',
    run cfg n initial scene0 = Ok (anim_state, scene) ∧
    frame_locals cfg anim_state n = Ok loc ∧
    snapshot_of cfg (n `div` interp_steps) = Some target ∧
    animate cfg anim_state scene n = Ok (anim_state', scene') ∧
    prev_labels anim_state' = prev_labels anim_state ∧
    current_new_positions anim_state' =
      (if decide (n `mod` interp_steps = 0)%nat
       then target_positions top_n
       else current_new_positions anim_state) ∧
    ((n `mod` interp_steps < interp_steps - 1)%nat →
       prev_widths anim_state' = prev_widths anim_state ∧
       prev_names anim_state' = prev_names anim_state ∧
       prev_positions anim_state' = prev_positions anim_state ∧
       prev_interp_positions anim_state' =
         loc_interp_positions (first_frame_override cfg n loc)) ∧
    ((n `mod` interp_steps = interp_steps - 1)%nat →
       prev_widths anim_state' = widths target ∧
       prev_names anim_state' = names target ∧
       prev_positions anim_state' = target_positions top_n ∧
       prev_interp_positions anim_state' = target_positions top_n).
Proof.
  intros Hcfg Hscene Hn.
  destruct (run_frame cfg initial scene0 n Hcfg Hscene Hn)
    as (anim_state & scene & snap & loc & anim_state' & scene' & Hrun & _
        & _ & Hsnap & _ & _ & Hloc & Hlw & Hln & Hlnew & Hstep & -> & _).
  exists anim_state, scene, loc, snap. eexists _, scene'.
  repeat (split; [done|]).
  assert (loc_widths (first_frame_override cfg n loc) = widths snap
          ∧ loc_names (first_frame_override cfg n loc) = names snap
          ∧ loc_new_positions (first_frame_override cfg n loc)
            = target_positions top_n) as (Hlw' & Hln' & Hnew').
  { unfold first_frame_override. case_decide; simpl; done. }
  unfold next_state. rewrite Hlw', Hln', Hnew'.
  split; [by case_decide|]. split; [by case_decide|]. split.
  - intros Hlt. rewrite decide_False by lia. done.
  - intros Hlast. rewrite decide_True by done. done.
Qed.

(** C8. With [top_n = 5], in every frame of a run after the first, a
    slot whose interpolated width is positive and whose name is not empty
    is active: its bar is visible with the larger of the interpolated
    width and 0.22 times the frame's maximum interpolated width, hence
    at least 0.22 times that maximum however small the slot's own value,
    while its value text is the formatted interpolated width itself,
    not the floored one. *)
Theorem min_bar_width_floor_top5 initial scene0 n :
  config_wf cfg → scene_wf cfg scene0 → top_n = 5%nat →
  (n < total_frames cfg)%nat → n ≠ 0%nat →
  ∃ anim_state scene loc anim_state' scene',
    run cfg n initial scene0 = Ok (anim_state, scene) ∧
    frame_locals cfg anim_state n = Ok loc ∧
    animate cfg anim_state scene n = Ok (anim_state', scene') ∧
    Forall (λ w, (w <= loc_max_width loc)%Q) (loc_interp_widths loc) ∧
    loc_max_width loc ∈ loc_interp_widths loc ∧
    ∀ i width name,
      loc_interp_widths loc !! i = Some width →
      loc_names loc !! i = Some name →
      (0 < width)%Q → name ≠ ""%string →
      ∃ bar txt,
        loc_active_bars loc !! i = Some true ∧
        bars scene' !! i = Some bar ∧
        bar_visible bar = true ∧
        bar_width bar = Qmax width (loc_max_width loc * (22 # 100))%Q ∧
        ((22 # 100) * loc_max_width loc <= bar_width bar)%Q ∧
        text_objects scene' !! i = Some txt ∧
        text_visible txt = true ∧
        text_string txt = format_value width.
Proof.
  intros Hcfg Hscene Htop Hn Hne.
  destruct (run_frame cfg initial scene0 n Hcfg Hscene Hn)
    as (anim_state & scene & snap & loc & anim_state' & scene' & Hrun
        & [Hbl Htexts] & _ & _ & _ & _ & Hloc & _ & Hln & _ & Hstep & _ & _).
  exists anim_state, scene, loc, anim_state', scene'.
  repeat (split; [done|]).
  destruct (frame_locals_lengths cfg _ _ _ Hloc) as (_ & Hiw & _ & _).
  pose proof Hloc as (_ & data & _ & _ & Hnames & _ & _ & _ & _ & Hmax
                      & Hdisplay & Hactive)%frame_locals_Ok.
  rewrite <- Hnames in Hdisplay, Hactive.
  destruct (max_or_one_max (loc_interp_widths loc)) as [Hge Hin].
  { intros Hnil. rewrite Hnil in Hiw. simpl in Hiw. lia. }
  rewrite <- Hmax in Hge, Hin. split; [done|]. split; [done|].
  intros i width name Hwidth Hname Hpos Hnonempty.
  assert (i < top_n)%nat as Hi.
  { rewrite <- Hiw. by eapply lookup_lt_Some. }
  pose proof (shown_lookup cfg (loc_names loc) _ i width Hwidth) as Hshown.
  rewrite <- Hmax in Hshown.
  assert (min_bar_width_multiplier cfg = (22 # 100)%Q) as Hmult.
  { unfold min_bar_width_multiplier. by rewrite Htop. }
  rewrite Hmult in Hshown.
  set (sw := shown_width (loc_names loc)
               (loc_max_width loc * (22 # 100))%Q i width) in *.
  assert (sw.2 = true) as Hsw2.
  { apply shown_width_active. rewrite Hname. done. }
  assert (sw.1 = Qmax width (loc_max_width loc * (22 # 100)))%Q as Hsw1.
  { by apply shown_width_floor. }
  assert (loc_active_bars loc !! i = Some true) as Hact.
  { rewrite Hactive, list_lookup_fmap, Hshown. simpl. by rewrite Hsw2. }
  assert (loc_display_widths loc !! i
          = Some (Qmax width (loc_max_width loc * (22 # 100)))%Q) as Hdisp.
  { rewrite Hdisplay, list_lookup_fmap, Hshown. simpl. by rewrite Hsw1. }
  apply animate_Ok in Hstep as (loc0 & Hloc0 & Hbars & Htxt & _).
  rewrite Hloc in Hloc0. injection Hloc0 as <-.
  unfold first_frame_override in Hbars, Htxt.
  rewrite decide_False in Hbars, Htxt by done.
  apply draw_bars_Ok in Hbars as [Hblen Hbar].
  destruct (lookup_lt_is_Some_2 (bars scene') i) as [bar Hbari]; [lia|].
  destruct (Hbar i bar Hbari) as (active & Hactive' & Hbar').
  rewrite Hact in Hactive'. injection Hactive' as <-.
  destruct Hbar' as (w & y & Hw & _ & ->).
  rewrite Hdisp in Hw. injection Hw as <-.
  apply draw_texts_Ok in Htxt as [_ Htxt]; [|lia].
  destruct (Htxt i Hi)
    as (text_x & y' & has_data & txt & txt' & _ & _ & Hhas & _ & Htxt'
        & Hdrawn).
  rewrite Hact in Hhas. injection Hhas as <-.
  rewrite decide_False in Hdrawn by done.
  destruct Hdrawn as (interp_width & Hiw' & ->).
  rewrite Hwidth in Hiw'. injection Hiw' as <-.
  eexists _, _. repeat (split; [done|]). simpl.
  repeat split; try done.
  rewrite Qmult_comm. apply Qle_Qmax_r.
Qed.
End animation_claims.

(** ** Worked examples of the animation *)

Ltac solve_config_wf :=
  split; [simpl; lia|]; split; [simpl; lia|];
  repeat constructor; eexists; (split; [reflexivity | by split]).

Lemma swap_config_wf : config_wf swap_config.
Proof. solve_config_wf. Qed.

Lemma newcomer_config_wf : config_wf newcomer_config.
Proof. solve_config_wf. Qed.

Lemma small_bar_config_wf : config_wf small_bar_config.
Proof. solve_config_wf. Qed.

(** The example of the specification: A, B, C then B, A, C. *)
Lemma swap_bar_mapping :
  bar_mapping_of 3 ["A"; "B"; "C"]%string ["B"; "A"; "C"]%string
  = Ok [Some 1; Some 0; Some 2]%nat.
Proof. reflexivity. Qed.

Lemma duplicate_name_maps_to_first :
  bar_mapping_of 3 ["A"; "A"; "C"]%string ["A"; "C"; "A"]%string
  = Ok [Some 0; Some 2; Some 0]%nat.
Proof. reflexivity. Qed.

Lemma format_value_examples :
  format_value 1000 = "1,000"%string ∧
  format_value (1234567 # 1) = "1,234,567"%string ∧
  format_value (5 # 2) = "2"%string ∧
  format_value (7 # 2) = "4"%string ∧
  format_value (999 # 1000) = "1"%string.
Proof. repeat split; reflexivity. Qed.

Lemma swap_scene_wf : scene_wf swap_config swap_scene.
Proof. by split. Qed.

Lemma newcomer_scene_wf : scene_wf newcomer_config newcomer_scene.
Proof. by split. Qed.

Lemma small_bar_scene_wf : scene_wf small_bar_config small_bar_scene.
Proof. by split. Qed.

Lemma identity_mapping_first_occurrence_witness :
  (config_wf swap_config ∧ scene_wf swap_config swap_scene ∧
   (1 < length (cfg_timestamps swap_config))%nat ∧
   snapshot_of swap_config 0 = Some swap_before ∧
   snapshot_of swap_config 1 = Some swap_after) ∧
  ∃ anim_state scene loc bar_mapping,
    run swap_config (1 * cfg_interp_steps swap_config) swap_initial swap_scene
      = Ok (anim_state, scene) ∧
    frame_locals swap_config anim_state (1 * cfg_interp_steps swap_config)
      = Ok loc ∧
    bar_mapping_of (cfg_top_n swap_config) (names swap_before)
      (names swap_after) = Ok bar_mapping ∧
    ∀ i name, names swap_after !! i = Some name →
      (name ∈ names swap_before →
         ∃ j, bar_mapping !! i = Some (Some j) ∧
              names swap_before !! j = Some name ∧
              (∀ j', (j' < j)%nat → names swap_before !! j' ≠ Some name) ∧
              ∃ p, target_positions (cfg_top_n swap_config) !! j = Some p ∧
                   loc_start_positions loc !! i = Some p ∧
                   ¬ (p == off_screen)%Q) ∧
      (name ∉ names swap_before →
         bar_mapping !! i = Some None ∧
         loc_start_positions loc !! i = Some off_screen).
Proof.
  assert (1 < length (cfg_timestamps swap_config))%nat as Hlen
    by (simpl; lia).
  split.
  - split; [exact swap_config_wf|]. split; [exact swap_scene_wf|].
    split; [exact Hlen|]. split; reflexivity.
  - exact (identity_mapping_first_occurrence swap_config swap_initial
             swap_scene 0 swap_before swap_after swap_config_wf
             swap_scene_wf Hlen eq_refl eq_refl).
Defined.

Lemma interp_width_per_slot_witness :
  (config_wf newcomer_config ∧ scene_wf newcomer_config newcomer_scene ∧
   (3 < total_frames newcomer_config)%nat) ∧
  ∃ anim_state scene loc target,
    run newcomer_config 3 newcomer_initial newcomer_scene
      = Ok (anim_state, scene) ∧
    frame_locals newcomer_config anim_state 3 = Ok loc ∧
    snapshot_of newcomer_config (3 `div` cfg_interp_steps newcomer_config)
      = Some target ∧
    loc_t_eased loc
      = quadratic_ease_in_out (sub_frame_t newcomer_config 3) ∧
    ∀ i, (i < cfg_top_n newcomer_config)%nat →
      ∃ w v,
        widths target !! i = Some w ∧
        loc_interp_widths loc !! i = Some v ∧
        let p :=
          default 0%Q
            (baseline_widths newcomer_config newcomer_initial
               (3 `div` cfg_interp_steps newcomer_config) !! i) in
        (v == p + (w - p) * loc_t_eased loc)%Q.
Proof.
  assert (3 < total_frames newcomer_config)%nat as Hn
    by (unfold total_frames; simpl; lia).
  split.
  - split; [exact newcomer_config_wf|]. split; [exact newcomer_scene_wf|].
    exact Hn.
  - exact (interp_width_per_slot newcomer_config newcomer_initial
             newcomer_scene 3 newcomer_config_wf newcomer_scene_wf Hn).
Defined.

(** C5. In [newcomer_config] the entity "C" is new in the second snapshot
    and takes slot 1, which "B" had with width 80. At the first sub-frame
    of the transition (t = 0) the position of slot 1 starts off screen, as
    for an entering entity, but its width starts from the 80 of "B" and
    not from 0: the width is read from [prev_widths] at the slot index
    (lines 650-651), not at the entity found by the identity mapping. *)
Theorem new_entity_starts_from_slot_width :
  ∃ anim_state scene loc v,
    run newcomer_config 2 newcomer_initial newcomer_scene
      = Ok (anim_state, scene) ∧
    frame_locals newcomer_config anim_state 2 = Ok loc ∧
    loc_names loc !! 1%nat = Some "C"%string ∧
    index_of "C" (prev_names anim_state) = None ∧
    loc_widths loc !! 1%nat = Some 90%Q ∧
    loc_interp_widths loc !! 1%nat = Some v ∧
    (v == 80)%Q ∧
    (spec_interp_width (prev_names anim_state) (prev_widths anim_state)
       "C" 90 (loc_t_eased loc) == 0)%Q ∧
    ¬ (v == spec_interp_width (prev_names anim_state)
              (prev_widths anim_state) "C" 90 (loc_t_eased loc))%Q ∧
    prev_names anim_state !! 1%nat = Some "B"%string ∧
    prev_widths anim_state !! 1%nat = Some 80%Q ∧
    loc_start_positions loc !! 1%nat = Some off_screen.
Proof.
  eexists _, _, _, _.
  split; [by vm_compute|]. split; [by vm_compute|].
  repeat (split; [by vm_compute|]). by vm_compute.
Qed.

Lemma transition_endpoints_witness :
  (config_wf swap_config ∧ scene_wf swap_config swap_scene ∧
   (1 < length (cfg_timestamps swap_config))%nat ∧
   snapshot_of swap_config 0 = Some swap_before ∧
   snapshot_of swap_config 1 = Some swap_after) ∧
  ((1 < cfg_interp_steps swap_config)%nat →
   ∃ anim_state scene loc,
     run swap_config (1 * cfg_interp_steps swap_config) swap_initial
       swap_scene = Ok (anim_state, scene) ∧
     frame_locals swap_config anim_state (1 * cfg_interp_steps swap_config)
       = Ok loc ∧
     ∀ i name, names swap_after !! i = Some name →
       ∃ pw w y,
         widths swap_before !! i = Some pw ∧
         loc_interp_widths loc !! i = Some w ∧
         loc_interp_positions loc !! i = Some y ∧
         (w == pw)%Q ∧
         match index_of name (names swap_before) with
         | Some j =>
             ∃ p, target_positions (cfg_top_n swap_config) !! j = Some p
                  ∧ (y == p)%Q
         | None => (y == off_screen)%Q
         end) ∧
  (∃ anim_state scene loc,
     let last :=
       (1 * cfg_interp_steps swap_config
        + (cfg_interp_steps swap_config - 1))%nat in
     run swap_config last swap_initial swap_scene = Ok (anim_state, scene) ∧
     frame_locals swap_config anim_state last = Ok loc ∧
     ∀ i, (i < cfg_top_n swap_config)%nat →
       ∃ tw tp w y,
         widths swap_after !! i = Some tw ∧
         target_positions (cfg_top_n swap_config) !! i = Some tp ∧
         loc_interp_widths loc !! i = Some w ∧
         loc_interp_positions loc !! i = Some y ∧
         (w == tw)%Q ∧ (y == tp)%Q).
Proof.
  assert (1 < length (cfg_timestamps swap_config))%nat as Hlen
    by (simpl; lia).
  split.
  - split; [exact swap_config_wf|]. split; [exact swap_scene_wf|].
    split; [exact Hlen|]. split; reflexivity.
  - exact (transition_endpoints swap_config swap_initial swap_scene 0
             swap_before swap_after swap_config_wf swap_scene_wf Hlen
             eq_refl eq_refl).
Defined.

(** C6. In [swap_config] "A" (100) and "B" (80) swap ranks, to "B" (150)
    and "A" (120). At the first sub-frame of the transition (t = 0) every
    bar is at the position its entity had in the frame before, but with
    the width of the slot index it moves to: slot 0 carries the name "B"
    and the width 100, not the 80 that "B" had, and the bar of "A", which
    was drawn 100 wide with the text "100" in the frame before, is drawn
    at the same height 80 wide with the text "80", although the count of
    "A" only grows, from 100 to 120. *)
Theorem swapped_entity_shows_slot_width :
  ∃ anim_state scene loc v anim_state' scene' before txt_before after
    txt_after,
    run swap_config 2 swap_initial swap_scene = Ok (anim_state, scene) ∧
    frame_locals swap_config anim_state 2 = Ok loc ∧
    (loc_t_eased loc == 0)%Q ∧
    loc_names loc !! 0%nat = Some "B"%string ∧
    loc_interp_widths loc !! 0%nat = Some v ∧
    (spec_previous_width (prev_names anim_state) (prev_widths anim_state) "B"
       == 80)%Q ∧
    (v == 100)%Q ∧
    ¬ (v == spec_previous_width (prev_names anim_state)
              (prev_widths anim_state) "B")%Q ∧
    animate swap_config anim_state scene 2 = Ok (anim_state', scene') ∧
    prev_names anim_state !! 0%nat = Some "A"%string ∧
    bars scene !! 0%nat = Some before ∧
    text_objects scene !! 0%nat = Some txt_before ∧
    loc_names loc !! 1%nat = Some "A"%string ∧
    bars scene' !! 1%nat = Some after ∧
    text_objects scene' !! 1%nat = Some txt_after ∧
    bar_visible before = true ∧ bar_visible after = true ∧
    (bar_y before == bar_y after)%Q ∧
    (bar_width before == 100)%Q ∧ text_string txt_before = "100"%string ∧
    (bar_width after == 80)%Q ∧ text_string txt_after = "80"%string.
Proof.
  eexists _, _, _, _, _, _, _, _, _, _.
  split; [by vm_compute|]. split; [by vm_compute|].
  repeat (split; [by vm_compute|]). by vm_compute.
Qed.

Lemma state_carry_over_witness :
  (config_wf swap_config ∧ scene_wf swap_config swap_scene ∧
   (3 < total_frames swap_config)%nat) ∧
  ∃ anim_state scene loc target anim_state' scene',
    run swap_config 3 swap_initial swap_scene = Ok (anim_state, scene) ∧
    frame_locals swap_config anim_state 3 = Ok loc ∧
    snapshot_of swap_config (3 `div` cfg_interp_steps swap_config)
      = Some target ∧
    animate swap_config anim_state scene 3 = Ok (anim_state', scene') ∧
    prev_labels anim_state' = prev_labels anim_state ∧
    current_new_positions anim_state' =
      (if decide (3 `mod` cfg_interp_steps swap_config = 0)%nat
       then target_positions (cfg_top_n swap_config)
       else current_new_positions anim_state) ∧
    ((3 `mod` cfg_interp_steps swap_config
      < cfg_interp_steps swap_config - 1)%nat →
       prev_widths anim_state' = prev_widths anim_state ∧
       prev_names anim_state' = prev_names anim_state ∧
       prev_positions anim_state' = prev_positions anim_state ∧
       prev_interp_positions anim_state' =
         loc_interp_positions (first_frame_override swap_config 3 loc)) ∧
    ((3 `mod` cfg_interp_steps swap_config
      = cfg_interp_steps swap_config - 1)%nat →
       prev_widths anim_state' = widths target ∧
       prev_names anim_state' = names target ∧
       prev_positions anim_state' = target_positions (cfg_top_n swap_config) ∧
       prev_interp_positions anim_state'
         = target_positions (cfg_top_n swap_config)).
Proof.
  assert (3 < total_frames swap_config)%nat as Hn
    by (unfold total_frames; simpl; lia).
  split.
  - split; [exact swap_config_wf|]. split; [exact swap_scene_wf|]. exact Hn.
  - exact (state_carry_over swap_config swap_initial swap_scene 3
             swap_config_wf swap_scene_wf Hn).
Defined.

(** C7, as the claim words it, fails. Frame 0 of [swap_config] has
    [sub_step = 0 < K - 1], yet it changes a field of the state other than
    [prev_interp_positions]: [current_new_positions] goes from the value
    it had to the target positions. *)
Lemma first_sub_frame_sets_current_new_positions :
  ∃ anim_state' scene',
    animate swap_config swap_initial swap_scene 0
      = Ok (anim_state', scene') ∧
    (0 `mod` cfg_interp_steps swap_config
     < cfg_interp_steps swap_config - 1)%nat ∧
    current_new_positions swap_initial = [] ∧
    current_new_positions anim_state' = target_positions 3 ∧
    current_new_positions anim_state' ≠ current_new_positions swap_initial.
Proof.
  eexists _, _. split; [by vm_compute|].
  split; [simpl; lia|]. split; [done|]. split; [by vm_compute|].
  by vm_compute.
Qed.

Lemma min_bar_width_floor_top5_witness :
  (config_wf small_bar_config ∧ scene_wf small_bar_config small_bar_scene ∧
   cfg_top_n small_bar_config = 5%nat ∧
   (1 < total_frames small_bar_config)%nat ∧ 1%nat ≠ 0%nat) ∧
  ∃ anim_state scene loc anim_state' scene',
    run small_bar_config 1 small_bar_initial small_bar_scene
      = Ok (anim_state, scene) ∧
    frame_locals small_bar_config anim_state 1 = Ok loc ∧
    animate small_bar_config anim_state scene 1 = Ok (anim_state', scene') ∧
    Forall (λ w, (w <= loc_max_width loc)%Q) (loc_interp_widths loc) ∧
    loc_max_width loc ∈ loc_interp_widths loc ∧
    ∀ i width name,
      loc_interp_widths loc !! i = Some width →
      loc_names loc !! i = Some name →
      (0 < width)%Q → name ≠ ""%string →
      ∃ bar txt,
        loc_active_bars loc !! i = Some true ∧
        bars scene' !! i = Some bar ∧
        bar_visible bar = true ∧
        bar_width bar = Qmax width (loc_max_width loc * (22 # 100))%Q ∧
        ((22 # 100) * loc_max_width loc <= bar_width bar)%Q ∧
        text_objects scene' !! i = Some txt ∧
        text_visible txt = true ∧
        text_string txt = format_value width.
Proof.
  assert (1 < total_frames small_bar_config)%nat as Hn
    by (unfold total_frames; simpl; lia).
  assert (1 ≠ 0)%nat as Hne by lia.
  split.
  - split; [exact small_bar_config_wf|]. split; [exact small_bar_scene_wf|].
    split; [reflexivity|]. split; [exact Hn | exact Hne].
  - exact (min_bar_width_floor_top5 small_bar_config small_bar_initial
             small_bar_scene 1 small_bar_config_wf small_bar_scene_wf
             eq_refl Hn Hne).
Defined.

(** The slot with a hundredth of the maximum: at the last sub-frame of the
    first snapshot its bar is 220 wide, 0.22 times the maximum of 1000,
    and its text reads 10. *)
Lemma small_bar_drawn :
  ∃ anim_state scene anim_state' scene' bar txt,
    run small_bar_config 1 small_bar_initial small_bar_scene
      = Ok (anim_state, scene) ∧
    animate small_bar_config anim_state scene 1 = Ok (anim_state', scene') ∧
    bars scene' !! 1%nat = Some bar ∧
    bar_visible bar = true ∧ (bar_width bar == 220)%Q ∧
    text_objects scene' !! 1%nat = Some txt ∧
    text_visible txt = true ∧ text_string txt = "10"%string.
Proof.
  eexists _, _, _, _, _, _.
  split; [by vm_compute|]. split; [by vm_compute|].
  repeat (split; [by vm_compute|]). by vm_compute.
Qed.

(** * Further properties *)

(** ** Sample timestamps *)

Lemma slice_step_from_length {A} (k skip : nat) (l : list A) :
  length (slice_step_from (S k) skip l) = ((length l + k - skip) `div` S k)%nat.
Proof.
  revert skip. induction l as [|x l IH]; intros skip.
  - cbn [slice_step_from length]. symmetry. apply Nat.div_small. lia.
  - destruct skip as [|skip]; cbn [slice_step_from length pred].
    + rewrite IH. replace (length l + k - k)%nat with (length l) by lia.
      replace (S (length l) + k - 0)%nat with (length l + 1 * S k)%nat by lia.
      rewrite Nat.div_add by lia. lia.
    + rewrite IH. f_equal.
Qed.

Lemma slice_step_length {A} (k : nat) (l : list A) :
  length (slice_step (S k) l) = ((length l + k) `div` S k)%nat.
Proof.
  unfold slice_step. rewrite slice_step_from_length. f_equal. lia.
Qed.

Lemma slice_step_head {A} (k : nat) (l : list A) :
  head (slice_step k l) = head l.
Proof. by destruct l. Qed.

Section more_timestamps.
Context (textwrap_fill : string → nat → string).
Context (quicksort : sorter Cumulative_desc).

(** X1. Every sample timestamp [precompute_data] returns lies between
    four days after [start_date] and [end_date], and is [end_date]
    itself or the period of some row of the table: no timestamp is made
    up other than the end date. *)
Theorem sample_timestamps_within_window monthly_df selected_attribute top_n
    start_date end_date :
  match precompute_data textwrap_fill quicksort monthly_df
          selected_attribute top_n start_date end_date with
  | Ok (timestamps, _) =>
      Forall (λ ts,
                start_date + Timedelta_days 4 ≤ ts ∧ ts ≤ end_date ∧
                (ts = end_date ∨ ts ∈ event_timestamps monthly_df))
        timestamps
  | Raise err => err = IndexError
  end.
Proof.
  destruct (precompute_data _ _ _ _ _ _ _) as [[timestamps data]|err] eqn:Hrun.
  2:{ by apply precompute_data_Raise, sample_timestamps_Raise in Hrun
        as [-> _]. }
  apply precompute_data_Ok in Hrun as [Hts _].
  set (dates := event_timestamps monthly_df) in *.
  assert (∀ ts, ts ∈ candidate_timestamps dates start_date end_date →
            start_date + Timedelta_days 4 ≤ ts ∧ ts ≤ end_date ∧ ts ∈ dates)
    as Hcand.
  { intros ts Hin. eapply elem_of_sublist in Hin; [|apply slice_step_sublist].
    apply elem_of_window_timestamps in Hin. tauto. }
  assert (candidate_timestamps dates start_date end_date ≠ [] →
          start_date + Timedelta_days 4 ≤ end_date) as Hnonempty.
  { destruct (candidate_timestamps dates start_date end_date) as [|c cs] eqn:Hc;
      [done|]. intros _.
    destruct (Hcand c) as (? & ? & _); [by left | lia]. }
  apply Forall_forall. intros ts Hin.
  destruct (sample_timestamps_cases dates start_date end_date)
    as [[_ Hr]|[[Hlast Hr]|(Hne & _ & Hr)]];
    rewrite Hr in Hts; [done| |]; injection Hts as <-.
  - destruct (Hcand ts Hin) as (? & ? & ?). auto.
  - apply elem_of_app in Hin as [Hin|Hin].
    + destruct (Hcand ts Hin) as (? & ? & ?). auto.
    + apply list_elem_of_singleton in Hin as ->.
      specialize (Hnonempty Hne). split; [done|]. split; [lia | by left].
Qed.

(** X2. The first sample timestamp is the earliest period of the table
    that is at least four days after [start_date] and not after
    [end_date]: the animation starts there, not at [start_date]. *)
Theorem first_sample_is_earliest_period monthly_df selected_attribute top_n
    start_date end_date :
  match precompute_data textwrap_fill quicksort monthly_df
          selected_attribute top_n start_date end_date with
  | Ok (timestamps, _) =>
      ∃ first,
        head timestamps = Some first ∧
        first ∈ event_timestamps monthly_df ∧
        start_date + Timedelta_days 4 ≤ first ∧ first ≤ end_date ∧
        ∀ r, r ∈ monthly_df →
          start_date + Timedelta_days 4 ≤ to_timestamp (col_Date r) →
          to_timestamp (col_Date r) ≤ end_date →
          first ≤ to_timestamp (col_Date r)
  | Raise err => err = IndexError
  end.
Proof.
  destruct (precompute_data _ _ _ _ _ _ _) as [[timestamps data]|err] eqn:Hrun.
  2:{ by apply precompute_data_Raise, sample_timestamps_Raise in Hrun
        as [-> _]. }
  apply precompute_data_Ok in Hrun as [Hts _].
  set (dates := event_timestamps monthly_df) in *.
  pose proof (window_timestamps_increasing dates start_date end_date) as Hinc.
  assert (head timestamps = head (window_timestamps dates start_date end_date)
          ∧ window_timestamps dates start_date end_date ≠ [])
    as [Hhead Hne].
  { destruct (sample_timestamps_cases dates start_date end_date)
      as [[_ Hr]|[[Hlast Hr]|(Hne & _ & Hr)]];
      rewrite Hr in Hts; [done| |]; injection Hts as <-.
    - split; [apply slice_step_head|].
      intros Hnil%candidate_timestamps_nil. by rewrite Hnil in Hlast.
    - split; [|by rewrite <- candidate_timestamps_nil].
      rewrite <- (slice_step_head days
                    (window_timestamps dates start_date end_date)).
      fold (candidate_timestamps dates start_date end_date).
      destruct (candidate_timestamps dates start_date end_date) eqn:Hc;
        [congruence | done]. }
  destruct (window_timestamps dates start_date end_date) as [|first rest]
    eqn:Hwin; [done|].
  exists first. split; [done|].
  assert (first ∈ window_timestamps dates start_date end_date) as Hfirst.
  { rewrite Hwin. by left. }
  apply elem_of_window_timestamps in Hfirst as (? & ? & ?).
  repeat (split; [done|]).
  intros r Hr Hlo Hhi.
  assert (to_timestamp (col_Date r)
            ∈ window_timestamps dates start_date end_date) as Hin.
  { apply elem_of_window_timestamps. split; [|done].
    unfold dates, event_timestamps. apply list_elem_of_fmap. eauto. }
  rewrite Hwin in Hin. apply elem_of_cons in Hin as [->|Hin]; [lia|].
  apply StronglySorted_cons in Hinc as [Hlt _].
  rewrite Forall_forall in Hlt. specialize (Hlt _ Hin). lia.
Qed.

(** X3. With [p] distinct periods in the sampling window, the list of
    sample timestamps has [ceil(p / 30)] entries when the stride lands on
    [end_date] and one more when the end date has to be appended. *)
Theorem sample_timestamps_count monthly_df selected_attribute top_n
    start_date end_date :
  match precompute_data textwrap_fill quicksort monthly_df
          selected_attribute top_n start_date end_date with
  | Ok (timestamps, _) =>
      let dates := event_timestamps monthly_df in
      let periods := length (window_timestamps dates start_date end_date) in
      length timestamps =
        ((periods + 29) `div` 30
         + if decide (end_date ∈ candidate_timestamps dates start_date end_date)
           then 0 else 1)%nat
  | Raise err => err = IndexError
  end.
Proof.
  destruct (precompute_data _ _ _ _ _ _ _) as [[timestamps data]|err] eqn:Hrun.
  2:{ by apply precompute_data_Raise, sample_timestamps_Raise in Hrun
        as [-> _]. }
  apply precompute_data_Ok in Hrun as [Hts _]. cbv zeta.
  set (dates := event_timestamps monthly_df) in *.
  assert (length (candidate_timestamps dates start_date end_date)
          = ((length (window_timestamps dates start_date end_date) + 29)
               `div` 30)%nat) as Hlen.
  { unfold candidate_timestamps, days. apply slice_step_length. }
  destruct (sample_timestamps_cases dates start_date end_date)
    as [[_ Hr]|[[Hlast Hr]|(Hne & Hlt & Hr)]];
    rewrite Hr in Hts; [done| |]; injection Hts as <-.
  - rewrite decide_True by by apply last_Some_elem_of. lia.
  - rewrite decide_False.
    + rewrite length_app. cbn [length]. lia.
    + intros Hin. rewrite Forall_forall in Hlt. specialize (Hlt _ Hin). lia.
Qed.
End more_timestamps.

(** ** Snapshots over time *)

Section more_snapshots.
Context (textwrap_fill : string → nat → string).
Context (quicksort : sorter Cumulative_desc).

Local Abbreviation snapshot := (snapshot_at textwrap_fill quicksort).

(** X4. The width of an entity never decreases from a snapshot to a
    later one: if a name has a slot at [ts1] and a slot at [ts2] with
    [ts1 <= ts2], its width at [ts2] is at least its width at [ts1]. *)
Theorem snapshot_widths_grow monthly_df selected_attribute top_n
    ts1 ts2 i j name w1 w2 :
  ts1 ≤ ts2 →
  let snap1 := snapshot monthly_df selected_attribute top_n ts1 in
  let snap2 := snapshot monthly_df selected_attribute top_n ts2 in
  (i < top_n `min` entities_with_data monthly_df ts1)%nat →
  (j < top_n `min` entities_with_data monthly_df ts2)%nat →
  names snap1 !! i = Some name → widths snap1 !! i = Some w1 →
  names snap2 !! j = Some name → widths snap2 !! j = Some w2 →
  (w1 <= w2)%Q.
Proof.
  intros Hts snap1 snap2 Hi Hj Hn1 Hw1 Hn2 Hw2.
  destruct (slot_entity textwrap_fill quicksort monthly_df selected_attribute
              top_n ts1 i Hi)
    as (e1 & He1 & Hn1' & Hw1').
  destruct (slot_entity textwrap_fill quicksort monthly_df selected_attribute
              top_n ts2 j Hj)
    as (e2 & He2 & Hn2' & Hw2').
  fold snap1 in Hn1', Hw1'. fold snap2 in Hn2', Hw2'.
  rewrite Hn1 in Hn1'. rewrite Hw1 in Hw1'. rewrite Hn2 in Hn2'.
  rewrite Hw2 in Hw2'.
  injection Hn1' as ->. injection Hw1' as ->. injection Hw2' as ->.
  apply ranked_max in He1 as [(r & Hr & Hdate & Hname & Hval) _].
  apply ranked_max in He2 as [_ Hmax].
  rewrite <- Hval. apply Hmax; [done | lia | congruence].
Qed.
End more_snapshots.

(** ** Easing and interpolation *)

(** X6. [quadratic_ease_in_out] maps the unit interval into itself, is
    non-decreasing there, and is symmetric about the midpoint:
    [ease(1 - t) = 1 - ease(t)]. *)
Theorem quadratic_ease_in_out_unit_interval (a b : Q) :
  (0 <= a)%Q → (a <= b)%Q → (b <= 1)%Q →
  (0 <= quadratic_ease_in_out a)%Q ∧
  (quadratic_ease_in_out a <= quadratic_ease_in_out b)%Q ∧
  (quadratic_ease_in_out b <= 1)%Q ∧
  (quadratic_ease_in_out (1 - a) == 1 - quadratic_ease_in_out a)%Q.
Proof.
  intros Ha Hab Hb. unfold quadratic_ease_in_out.
  assert (0 <= a * a)%Q by (apply Qmult_le_0_compat; lra).
  assert (0 <= (1 - b) * (1 - b))%Q by (apply Qmult_le_0_compat; lra).
  assert (0 <= (b - a) * a)%Q by (apply Qmult_le_0_compat; lra).
  assert (0 <= (b - a) * (1 - b))%Q by (apply Qmult_le_0_compat; lra).
  assert (0 <= (b - a) * (b - a))%Q by (apply Qmult_le_0_compat; lra).
  assert (0 <= a * (1 - b))%Q by (apply Qmult_le_0_compat; lra).
  repeat split.
  - assert (0 <= (a * a) * (3 - 2 * a))%Q by (apply Qmult_le_0_compat; lra).
    lra.
  - assert (0 <= (b - a) * (3 * (a + b) - 2 * (a * a + a * b + b * b)))%Q
      as Hdiff.
    { apply Qmult_le_0_compat; [lra|]. lra. }
    lra.
  - assert (0 <= ((1 - b) * (1 - b)) * (1 + 2 * b))%Q
      by (apply Qmult_le_0_compat; lra).
    lra.
  - ring.
Qed.

(** ** Every frame of the run *)

Lemma quadratic_ease_in_out_range (t : Q) :
  (0 <= t)%Q → (t <= 1)%Q →
  (0 <= quadratic_ease_in_out t)%Q ∧ (quadratic_ease_in_out t <= 1)%Q.
Proof.
  intros H0 H1. unfold quadratic_ease_in_out.
  assert (0 <= (t * t) * (3 - 2 * t))%Q
    by (apply Qmult_le_0_compat; [apply Qmult_le_0_compat|]; lra).
  assert (0 <= ((1 - t) * (1 - t)) * (1 + 2 * t))%Q
    by (apply Qmult_le_0_compat; [apply Qmult_le_0_compat|]; lra).
  split; lra.
Qed.

(** A value on the way from [p] to [w] is between the two. *)
Lemma lerp_between (p w e : Q) :
  (0 <= e)%Q → (e <= 1)%Q →
  (Qmin p w <= p + (w - p) * e)%Q ∧ (p + (w - p) * e <= Qmax p w)%Q.
Proof.
  intros H0 H1. destruct (Qlt_le_dec w p) as [Hlt|Hle].
  - rewrite Q.min_r, Q.max_l by lra.
    assert (0 <= (p - w) * e)%Q by (apply Qmult_le_0_compat; lra).
    assert (0 <= (p - w) * (1 - e))%Q by (apply Qmult_le_0_compat; lra).
    split; lra.
  - rewrite Q.min_l, Q.max_r by lra.
    assert (0 <= (w - p) * e)%Q by (apply Qmult_le_0_compat; lra).
    assert (0 <= (w - p) * (1 - e))%Q by (apply Qmult_le_0_compat; lra).
    split; lra.
Qed.

Lemma Qmin_Qmax_range (a b lo hi : Q) :
  (lo <= a)%Q → (a <= hi)%Q → (lo <= b)%Q → (b <= hi)%Q →
  (lo <= Qmin a b)%Q ∧ (Qmax a b <= hi)%Q.
Proof.
  intros. split; [by apply Q.min_glb | by apply Q.max_lub].
Qed.

Lemma min_bar_width_mapping_range (top_n : nat) :
  (0 < default (11 # 100) (min_bar_width_mapping top_n))%Q ∧
  (default (11 # 100) (min_bar_width_mapping top_n) <= 1)%Q.
Proof.
  do 11 (destruct top_n as [|top_n]; [split; by vm_compute|]).
  split; by vm_compute.
Qed.

Section frame_facts.
Context (cfg : Config).

Local Abbreviation top_n := (cfg_top_n cfg).
Local Abbreviation interp_steps := (cfg_interp_steps cfg).

Lemma sub_frame_t_range frame :
  (0 < interp_steps)%nat →
  (0 <= sub_frame_t cfg frame)%Q ∧ (sub_frame_t cfg frame <= 1)%Q.
Proof.
  intros HK. unfold sub_frame_t. case_decide as H1; [|split; by vm_compute].
  pose proof (Nat.mod_upper_bound frame interp_steps) as Hlt.
  set (s := (frame `mod` interp_steps)%nat) in *.
  assert (0 < inject_Z (Z.of_nat interp_steps - 1))%Q as Hpos.
  { unfold Qlt. simpl. lia. }
  split.
  - apply Qle_shift_div_l; [done|]. rewrite Qmult_0_l.
    unfold Qle. simpl. lia.
  - apply Qle_shift_div_r; [done|]. rewrite Qmult_1_l.
    unfold Qle. simpl. lia.
Qed.

Lemma t_eased_range anim_state frame loc :
  frame_locals cfg anim_state frame = Ok loc →
  (0 <= loc_t_eased loc)%Q ∧ (loc_t_eased loc <= 1)%Q.
Proof.
  intros Hloc. rewrite (frame_locals_t_eased cfg _ _ _ Hloc).
  apply frame_locals_Ok in Hloc as [HK _].
  apply quadratic_ease_in_out_range; apply sub_frame_t_range; lia.
Qed.

(** What a frame other than the first leaves in slot [i]: the bar and
    the value text of an active slot, the hidden bar and text of the
    others. *)
Lemma animate_slot anim_state scene frame loc anim_state' scene' i :
  frame_locals cfg anim_state frame = Ok loc →
  animate cfg anim_state scene frame = Ok (anim_state', scene') →
  frame ≠ 0%nat → scene_wf cfg scene → (i < top_n)%nat →
  ∃ width y bar txt0 txt,
    loc_interp_widths loc !! i = Some width ∧
    loc_interp_positions loc !! i = Some y ∧
    bars scene' !! i = Some bar ∧
    text_objects scene !! i = Some txt0 ∧
    text_objects scene' !! i = Some txt ∧
    if Qltb 0 width
       && bool_decide (default ""%string (loc_names loc !! i) ≠ ""%string)
    then
      let shown :=
        Qmax width (loc_max_width loc * min_bar_width_multiplier cfg)%Q in
      loc_display_widths loc !! i = Some shown ∧
      bar = {| bar_width := shown;
               bar_y := (y - cfg_bar_height cfg / 2)%Q;
               bar_visible := true |} ∧
      txt = {| text_position :=
                 ((shown
                   + Qmax (1 # 100)
                       (max_or_one (loc_display_widths loc) * (3 # 100)))%Q,
                  y);
               text_string := format_value width;
               text_visible := true |}
    else
      loc_display_widths loc !! i = Some 0%Q ∧
      bar = {| bar_width := 0%Q; bar_y := (-1)%Q; bar_visible := false |} ∧
      txt = hide txt0.
Proof.
  intros Hloc Hstep Hne [Hbl Htl] Hi.
  destruct (frame_locals_lengths cfg _ _ _ Hloc) as (Hip & Hiw & _ & _).
  pose proof Hloc as (_ & data & _ & _ & Hnames & _ & _ & _ & _ & Hmax
                      & Hdisplay & Hactive)%frame_locals_Ok.
  rewrite <- Hnames in Hdisplay, Hactive.
  destruct (lookup_lt_is_Some_2 (loc_interp_widths loc) i) as [width Hwidth];
    [lia|].
  destruct (lookup_lt_is_Some_2 (loc_interp_positions loc) i) as [y Hy];
    [lia|].
  pose proof (shown_lookup cfg (loc_names loc) _ i width Hwidth) as Hshown.
  rewrite <- Hmax in Hshown.
  assert (loc_display_widths loc !! i
          = Some (shown_width (loc_names loc)
                    (loc_max_width loc * min_bar_width_multiplier cfg)%Q
                    i width).1) as Hdisp.
  { by rewrite Hdisplay, list_lookup_fmap, Hshown. }
  assert (loc_active_bars loc !! i
          = Some (shown_width (loc_names loc)
                    (loc_max_width loc * min_bar_width_multiplier cfg)%Q
                    i width).2) as Hact.
  { by rewrite Hactive, list_lookup_fmap, Hshown. }
  apply animate_Ok in Hstep as (loc0 & Hloc0 & Hbars & Htxt & _).
  rewrite Hloc in Hloc0. injection Hloc0 as <-.
  unfold first_frame_override in Hbars, Htxt.
  rewrite decide_False in Hbars, Htxt by done.
  apply draw_bars_Ok in Hbars as [Hblen Hbar].
  destruct (lookup_lt_is_Some_2 (bars scene') i) as [bar Hbari]; [lia|].
  destruct (Hbar i bar Hbari) as (active & Hactive' & Hbar').
  rewrite Hact in Hactive'. injection Hactive' as <-.
  apply draw_texts_Ok in Htxt as [_ Htxt]; [|lia].
  destruct (Htxt i Hi)
    as (text_x & y' & has_data & txt0 & txt & Htx & Hy' & Hhas & Htxt0
        & Htxt' & Hdrawn).
  rewrite Hact in Hhas. injection Hhas as <-.
  rewrite Hdisp in Htx. injection Htx as <-.
  rewrite Hy in Hy'. injection Hy' as <-.
  rewrite decide_False in Hdrawn by done.
  exists width, y, bar, txt0, txt. repeat (split; [done|]).
  unfold shown_width in *.
  destruct (Qltb 0 width
            && bool_decide (default ""%string (loc_names loc !! i)
                            ≠ ""%string)); simpl in *.
  - destruct Hbar' as (w & y' & Hw & Hy' & ->).
    rewrite Hdisp in Hw. injection Hw as <-.
    rewrite Hy in Hy'. injection Hy' as <-.
    destruct Hdrawn as (interp_width & Hiw' & ->).
    rewrite Hwidth in Hiw'. injection Hiw' as <-. done.
  - done.
Qed.

(** Line 853: the x-axis ends at 1.1 times the widest displayed width. *)
Lemma animate_xlim anim_state scene frame loc anim_state' scene' :
  frame_locals cfg anim_state frame = Ok loc →
  animate cfg anim_state scene frame = Ok (anim_state', scene') →
  let shown := loc_display_widths (first_frame_override cfg frame loc) in
  shown ≠ [] ∧
  xlim scene' = (0%Q, (max_or_one shown * (11 # 10))%Q).
Proof.
  intros Hloc Hstep. unfold animate in Hstep. rewrite Hloc in Hstep.
  simpl in Hstep.
  apply bind_Ok in Hstep as (bars' & _ & Hstep).
  apply bind_Ok in Hstep as (texts' & _ & Hstep).
  apply bind_Ok in Hstep as (top & Htop & Hstep).
  injection Hstep as _ <-. simpl.
  destruct (loc_display_widths (first_frame_override cfg frame loc))
    as [|w ws]; [done|].
  injection Htop as <-. done.
Qed.

(** The displayed widths are never negative and none exceeds the widest
    interpolated width of its frame, when that one is not negative. *)
Lemma display_widths_range anim_state frame loc i shown :
  frame_locals cfg anim_state frame = Ok loc →
  loc_display_widths loc !! i = Some shown →
  (0 <= shown)%Q ∧ ((0 <= loc_max_width loc)%Q → (shown <= loc_max_width loc)%Q).
Proof.
  intros Hloc Hshown.
  destruct (frame_locals_lengths cfg _ _ _ Hloc) as (_ & Hiw & Hdl & _).
  pose proof Hloc as (_ & data & _ & _ & Hnames & _ & _ & _ & _ & Hmax
                      & Hdisplay & _)%frame_locals_Ok.
  rewrite <- Hnames in Hdisplay.
  assert (i < top_n)%nat as Hi.
  { rewrite <- Hdl. by eapply lookup_lt_Some. }
  destruct (lookup_lt_is_Some_2 (loc_interp_widths loc) i) as [width Hwidth];
    [lia|].
  pose proof (shown_lookup cfg (loc_names loc) _ i width Hwidth) as Hsh.
  rewrite <- Hmax in Hsh.
  rewrite Hdisplay, list_lookup_fmap, Hsh in Hshown. simpl in Hshown.
  injection Hshown as <-.
  destruct (max_or_one_max (loc_interp_widths loc)) as [Hge _].
  { intros Hnil. rewrite Hnil in Hwidth. done. }
  rewrite <- Hmax in Hge. rewrite Forall_forall in Hge.
  assert (width <= loc_max_width loc)%Q as Hle.
  { apply Hge. by eapply list_elem_of_lookup_2. }
  destruct (min_bar_width_mapping_range top_n) as [Hm0 Hm1]; fold (min_bar_width_multiplier cfg) in Hm0, Hm1.
  unfold shown_width.
  destruct (Qltb 0 width) eqn:Hpos; simpl; [|split; [done|by intros]].
  apply Qltb_lt in Hpos.
  case_bool_decide; simpl; [|split; [done|by intros]].
  split.
  - eapply Qle_trans; [|apply Qle_Qmax_l]. lra.
  - intros Hmax0. apply Q.max_lub; [done|].
    assert (0 <= loc_max_width loc * (1 - min_bar_width_multiplier cfg))%Q
      by (apply Qmult_le_0_compat; lra).
    lra.
Qed.
End frame_facts.

Lemma collect_start_positions_elem prev_interp_positions bar_mapping i names
    start_positions :
  collect_start_positions prev_interp_positions bar_mapping i names
    = Ok start_positions →
  Forall (λ s, s = off_screen ∨ s ∈ prev_interp_positions) start_positions.
Proof.
  revert i start_positions.
  induction names as [|name names IH]; intros i start; simpl.
  - intros [= <-]. constructor.
  - intros (m & _ & Hrun)%bind_Ok.
    apply bind_Ok in Hrun as (p & Hp & Hrun).
    apply bind_Ok in Hrun as (ps & Hps & [= <-]).
    constructor; [|by eapply IH].
    destruct m as [idx|].
    + right. apply getitem_Ok in Hp. by eapply list_elem_of_lookup_2.
    + left. by injection Hp as <-.
Qed.

Lemma column_max_zeros (k : nat) : column_max 0%Q (replicate k 0%Q) = 0%Q.
Proof. unfold column_max. induction k as [|k IH]; [done|]. simpl. exact IH. Qed.

Section more_animation.
Context (cfg : Config).

Local Abbreviation top_n := (cfg_top_n cfg).
Local Abbreviation interp_steps := (cfg_interp_steps cfg).
Local Abbreviation on_screen_range :=
  (Forall (λ y : Q, (-1 <= y)%Q ∧ (y <= 9)%Q)).

Lemma target_positions_on_screen_range : on_screen_range (target_positions top_n).
Proof.
  apply Forall_forall. intros p Hp.
  apply list_elem_of_lookup_1 in Hp as [i Hi].
  by eapply target_positions_bounds.
Qed.

Lemma interp_positions_range anim_state frame loc :
  frame_locals cfg anim_state frame = Ok loc →
  on_screen_range (loc_interp_positions loc).
Proof.
  intros Hloc. apply Forall_forall. intros y Hy.
  apply list_elem_of_lookup_1 in Hy as [i Hi].
  destruct (frame_locals_lengths cfg _ _ _ Hloc) as (Hlen & _).
  destruct (interp_position_value cfg _ _ _ i Hloc) as (s & p & _ & _ & Hy).
  { rewrite <- Hlen. by eapply lookup_lt_Some. }
  rewrite Hi in Hy. injection Hy as ->.
  split; [apply Q.min_glb; [apply Q.le_max_r | done] | apply Q.le_min_r].
Qed.

(** After any frame the state holds positions inside the clip range. *)
Lemma animate_prev_interp_positions anim_state scene frame anim_state' scene' :
  animate cfg anim_state scene frame = Ok (anim_state', scene') →
  on_screen_range (prev_interp_positions anim_state').
Proof.
  intros (loc & Hloc & _ & _ & ->)%animate_Ok.
  unfold next_state. case_decide; simpl.
  - apply target_positions_on_screen_range.
  - unfold first_frame_override. case_decide; simpl.
    + apply Forall_replicate. by vm_compute.
    + by eapply interp_positions_range.
Qed.

Lemma run_prev_interp_positions initial scene0 n anim_state scene :
  run cfg n initial scene0 = Ok (anim_state, scene) → n ≠ 0%nat →
  on_screen_range (prev_interp_positions anim_state).
Proof.
  destruct n as [|n]; [done|]. simpl.
  intros ([before scene_before] & _ & Hstep)%bind_Ok _.
  by eapply animate_prev_interp_positions.
Qed.

Lemma start_positions_range anim_state frame loc :
  frame_locals cfg anim_state frame = Ok loc →
  (frame ≠ 0%nat → on_screen_range (prev_interp_positions anim_state)) →
  on_screen_range (loc_start_positions loc).
Proof.
  intros (_ & data & _ & _ & _ & Hpos & _)%frame_locals_Ok Hprev.
  unfold frame_positions in Hpos.
  case_decide as Hsub.
  - case_decide as Hframe.
    + injection Hpos as _ <-. apply Forall_replicate. by vm_compute.
    + apply bind_Ok in Hpos as (bm & _ & Hpos).
      apply bind_Ok in Hpos as (start & Hstart & [= _ <-]).
      apply collect_start_positions_elem in Hstart.
      specialize (Hprev Hframe). rewrite Forall_forall in Hprev.
      eapply Forall_impl; [exact Hstart|].
      intros s [->|Hs]; [by vm_compute | by apply Hprev].
  - injection Hpos as _ <-. apply Hprev. intros ->.
    by rewrite Nat.Div0.mod_0_l in Hsub.
Qed.

(** X7. Along the run the clip to [-1, 9] never cuts: in every frame each
    slot's position is the eased interpolation between its start
    position and its target position, and lies between the two. *)
Theorem positions_never_clipped initial scene0 n :
  config_wf cfg → scene_wf cfg scene0 → (n < total_frames cfg)%nat →
  ∃ anim_state scene loc,
    run cfg n initial scene0 = Ok (anim_state, scene) ∧
    frame_locals cfg anim_state n = Ok loc ∧
    ∀ i, (i < top_n)%nat →
      ∃ s p y,
        loc_start_positions loc !! i = Some s ∧
        target_positions top_n !! i = Some p ∧
        loc_interp_positions loc !! i = Some y ∧
        (-1 <= s)%Q ∧ (s <= 9)%Q ∧
        (y == s + (p - s) * loc_t_eased loc)%Q ∧
        (Qmin s p <= y)%Q ∧ (y <= Qmax s p)%Q.
Proof.
  intros Hcfg Hscene Hn.
  destruct (run_frame cfg initial scene0 n Hcfg Hscene Hn)
    as (anim_state & scene & snap & loc & anim_state' & scene' & Hrun
        & _ & _ & _ & _ & _ & Hloc & _ & _ & Hnew & _).
  exists anim_state, scene, loc. split; [done|]. split; [done|].
  intros i Hi.
  destruct (interp_position_value cfg _ _ _ i Hloc Hi)
    as (s & p & Hs & Hp & Hy).
  rewrite Hnew in Hp. exists s, p. eexists.
  repeat (split; [done|]).
  assert ((-1 <= s)%Q ∧ (s <= 9)%Q) as [Hs0 Hs1].
  { assert (on_screen_range (loc_start_positions loc)) as Hrange.
    { eapply start_positions_range; [done|].
      intros Hframe. by eapply run_prev_interp_positions. }
    rewrite Forall_forall in Hrange. apply Hrange.
    by eapply list_elem_of_lookup_2. }
  destruct (target_positions_bounds _ _ _ Hp) as [Hp0 Hp1].
  destruct (t_eased_range cfg _ _ _ Hloc) as [He0 He1].
  destruct (lerp_between s p (loc_t_eased loc) He0 He1) as [Hlo Hhi].
  destruct (Qmin_Qmax_range s p (-1) 9) as [Hmin Hmax]; [done..|].
  assert (Qmin (Qmax (s + (p - s) * loc_t_eased loc) (-1)) 9
          == s + (p - s) * loc_t_eased loc)%Q as Hclamp.
  { apply clamp_inside; lra. }
  split; [done|]. split; [done|]. split; [done|].
  rewrite Hclamp. done.
Qed.

(** X8. The interpolated width of a slot never leaves the interval
    between the width the slot starts from and the width of the target
    snapshot: no overshoot, and no negative width between two
    non-negative ones. *)
Theorem widths_never_overshoot initial scene0 n :
  config_wf cfg → scene_wf cfg scene0 → (n < total_frames cfg)%nat →
  ∃ anim_state scene loc target,
    run cfg n initial scene0 = Ok (anim_state, scene) ∧
    frame_locals cfg anim_state n = Ok loc ∧
    snapshot_of cfg (n `div` interp_steps) = Some target ∧
    ∀ i, (i < top_n)%nat →
      ∃ w v,
        widths target !! i = Some w ∧
        loc_interp_widths loc !! i = Some v ∧
        let p :=
          default 0%Q
            (baseline_widths cfg initial (n `div` interp_steps) !! i) in
        (Qmin p w <= v)%Q ∧ (v <= Qmax p w)%Q ∧
        ((0 <= p)%Q → (0 <= w)%Q → (0 <= v)%Q).
Proof.
  intros Hcfg Hscene Hn.
  destruct (run_frame cfg initial scene0 n Hcfg Hscene Hn)
    as (anim_state & scene & snap & loc & anim_state' & scene' & Hrun
        & _ & Hinv & Hsnap & _ & _ & Hloc & Hlw & _).
  exists anim_state, scene, loc, snap. repeat (split; [done|]).
  intros i Hi.
  destruct (interp_width_value cfg _ _ _ i Hloc Hi) as (w & v & Hw & Hv & Hval).
  rewrite Hlw in Hw. exists w, v. split; [done|]. split; [done|].
  destruct Hinv as (Hpw & _). rewrite Hpw in Hval. cbv zeta in *.
  set (p := default 0%Q _) in *.
  destruct (t_eased_range cfg _ _ _ Hloc) as [He0 He1].
  destruct (lerp_between p w (loc_t_eased loc) He0 He1) as [Hlo Hhi].
  rewrite Hval. split; [done|]. split; [done|].
  intros Hp0 Hw0. eapply Qle_trans; [|exact Hlo].
  by apply Q.min_glb.
Qed.
End more_animation.

Section drawn_frames.
Context (cfg : Config).

Local Abbreviation top_n := (cfg_top_n cfg).
Local Abbreviation interp_steps := (cfg_interp_steps cfg).

Lemma slot_active_iff (width : Q) (name : string) :
  Qltb 0 width && bool_decide (name ≠ ""%string) = true ↔
  (0 < width)%Q ∧ name ≠ ""%string.
Proof. by rewrite andb_true_iff, Qltb_lt, bool_decide_eq_true. Qed.

(** X9. In every frame but the first a slot's bar is visible exactly
    when its interpolated width is positive and its name is not empty;
    the value text is visible exactly when the bar is, and a hidden slot
    has a bar of width 0 at y = -1 and keeps its old text. *)
Theorem bar_shown_iff_value_and_name initial scene0 n :
  config_wf cfg → scene_wf cfg scene0 → (n < total_frames cfg)%nat →
  n ≠ 0%nat →
  ∃ anim_state scene loc anim_state' scene',
    run cfg n initial scene0 = Ok (anim_state, scene) ∧
    frame_locals cfg anim_state n = Ok loc ∧
    animate cfg anim_state scene n = Ok (anim_state', scene') ∧
    ∀ i, (i < top_n)%nat →
      ∃ width name bar txt0 txt,
        loc_interp_widths loc !! i = Some width ∧
        loc_names loc !! i = Some name ∧
        bars scene' !! i = Some bar ∧
        text_objects scene !! i = Some txt0 ∧
        text_objects scene' !! i = Some txt ∧
        (bar_visible bar = true ↔ (0 < width)%Q ∧ name ≠ ""%string) ∧
        text_visible txt = bar_visible bar ∧
        (bar_visible bar = false →
           bar_width bar = 0%Q ∧ bar_y bar = (-1)%Q ∧ txt = hide txt0).
Proof.
  intros Hcfg Hscene Hn Hne.
  destruct (run_frame cfg initial scene0 n Hcfg Hscene Hn)
    as (anim_state & scene & snap & loc & anim_state' & scene' & Hrun
        & Hwf & _ & _ & _ & Hnlen & Hloc & _ & Hln & _ & Hstep & _ & _).
  exists anim_state, scene, loc, anim_state', scene'.
  repeat (split; [done|]). intros i Hi.
  destruct (lookup_lt_is_Some_2 (loc_names loc) i) as [name Hname].
  { rewrite Hln. lia. }
  destruct (animate_slot cfg _ _ _ _ _ _ i Hloc Hstep Hne Hwf Hi)
    as (width & y & bar & txt0 & txt & Hwidth & _ & Hbar & Htxt0 & Htxt
        & Hslot).
  rewrite Hname in Hslot. simpl in Hslot.
  exists width, name, bar, txt0, txt. repeat (split; [done|]).
  pose proof (slot_active_iff width name) as Hiff.
  destruct (Qltb 0 width && bool_decide (name ≠ ""%string)).
  - destruct Hslot as (_ & -> & ->). simpl.
    split; [split; [intros _; by apply Hiff | done]|]. done.
  - destruct Hslot as (_ & -> & ->). simpl.
    split; [split; [done | intros H; by apply Hiff in H]|]. done.
Qed.

(** X10. The minimum-width floor only lengthens a bar and never past the
    widest one: a visible bar is at least as wide as its interpolated
    width and at most as wide as the largest interpolated width of the
    frame, the slot holding that largest width is drawn at exactly that
    width, and the floor keeps the order of the widths. *)
Theorem displayed_width_bounds initial scene0 n :
  config_wf cfg → scene_wf cfg scene0 → (n < total_frames cfg)%nat →
  n ≠ 0%nat →
  ∃ anim_state scene loc anim_state' scene',
    run cfg n initial scene0 = Ok (anim_state, scene) ∧
    frame_locals cfg anim_state n = Ok loc ∧
    animate cfg anim_state scene n = Ok (anim_state', scene') ∧
    ∀ i width name,
      loc_interp_widths loc !! i = Some width →
      loc_names loc !! i = Some name →
      (0 < width)%Q → name ≠ ""%string →
      ∃ bar,
        bars scene' !! i = Some bar ∧
        (width <= bar_width bar)%Q ∧
        (bar_width bar <= loc_max_width loc)%Q ∧
        ((loc_max_width loc <= width)%Q → (bar_width bar == width)%Q) ∧
        ∀ j width' name' ,
          loc_interp_widths loc !! j = Some width' →
          loc_names loc !! j = Some name' →
          (0 < width')%Q → name' ≠ ""%string →
          (width <= width')%Q →
          ∃ bar', bars scene' !! j = Some bar' ∧
                  (bar_width bar <= bar_width bar')%Q.
Proof.
  intros Hcfg Hscene Hn Hne.
  destruct (run_frame cfg initial scene0 n Hcfg Hscene Hn)
    as (anim_state & scene & snap & loc & anim_state' & scene' & Hrun
        & Hwf & _ & _ & _ & Hnlen & Hloc & _ & Hln & _ & Hstep & _ & _).
  exists anim_state, scene, loc, anim_state', scene'.
  repeat (split; [done|]).
  destruct (frame_locals_lengths cfg _ _ _ Hloc) as (_ & Hiw & _ & _).
  assert (∀ i width name,
            loc_interp_widths loc !! i = Some width →
            loc_names loc !! i = Some name →
            (0 < width)%Q → name ≠ ""%string →
            ∃ bar, bars scene' !! i = Some bar ∧
              bar_width bar
              = Qmax width
                  (loc_max_width loc * min_bar_width_multiplier cfg)%Q)
    as Hdrawn.
  { intros i width name Hwidth Hname Hpos Hnonempty.
    assert (i < top_n)%nat as Hi.
    { rewrite <- Hiw. by eapply lookup_lt_Some. }
    destruct (animate_slot cfg _ _ _ _ _ _ i Hloc Hstep Hne Hwf Hi)
      as (width0 & y & bar & txt0 & txt & Hwidth0 & _ & Hbar & _ & _
          & Hslot).
    rewrite Hwidth in Hwidth0. injection Hwidth0 as <-.
    rewrite Hname in Hslot. simpl in Hslot.
    destruct (slot_active_iff width name) as [_ Hactive].
    rewrite Hactive in Hslot by done.
    destruct Hslot as (_ & -> & _). eexists. split; [done|]. done. }
  intros i width name Hwidth Hname Hpos Hnonempty.
  destruct (Hdrawn i width name) as (bar & Hbar & Hbw); [done..|].
  exists bar. split; [done|]. rewrite Hbw.
  pose proof Hloc as (_ & data & _ & _ & _ & _ & _ & _ & _ & Hmax
                      & _)%frame_locals_Ok.
  destruct (max_or_one_max (loc_interp_widths loc)) as [Hge _].
  { intros Hnil. by rewrite Hnil in Hwidth. }
  rewrite <- Hmax in Hge. rewrite Forall_forall in Hge.
  assert (width <= loc_max_width loc)%Q as Hle.
  { apply Hge. by eapply list_elem_of_lookup_2. }
  destruct (min_bar_width_mapping_range top_n) as [Hm0 Hm1].
  fold (min_bar_width_multiplier cfg) in Hm0, Hm1.
  assert (loc_max_width loc * min_bar_width_multiplier cfg
          <= loc_max_width loc)%Q as Hfloor.
  { assert (0 <= loc_max_width loc * (1 - min_bar_width_multiplier cfg))%Q
      by (apply Qmult_le_0_compat; lra).
    lra. }
  split; [apply Qle_Qmax_l|].
  split; [by apply Q.max_lub|].
  split.
  { intros Hlongest. apply Q.max_l. lra. }
  intros j width' name' Hwidth' Hname' Hpos' Hnonempty' Horder.
  destruct (Hdrawn j width' name') as (bar' & Hbar' & Hbw'); [done..|].
  exists bar'. split; [done|]. rewrite Hbw'.
  by apply Q.max_le_compat_r.
Qed.

Lemma display_widths_nonneg anim_state frame loc :
  frame_locals cfg anim_state frame = Ok loc →
  Forall (λ w, (0 <= w)%Q)
    (loc_display_widths (first_frame_override cfg frame loc)).
Proof.
  intros Hloc. unfold first_frame_override. case_decide; simpl.
  - by apply Forall_replicate.
  - apply Forall_forall. intros w Hw.
    apply list_elem_of_lookup_1 in Hw as [i Hi].
    by destruct (display_widths_range cfg _ _ _ i w Hloc Hi).
Qed.

(** Lines 697-705: the width of every bar is the displayed width of its
    slot, 0 for the slots that are not active. *)
Lemma bar_widths_are_display_widths anim_state scene frame loc anim_state'
    scene' :
  frame_locals cfg anim_state frame = Ok loc →
  animate cfg anim_state scene frame = Ok (anim_state', scene') →
  length (bars scene) = top_n →
  bar_width <$> bars scene'
  = loc_display_widths (first_frame_override cfg frame loc).
Proof.
  intros Hloc Hstep Hbl.
  pose proof Hstep as (loc0 & Hloc0 & Hbars & _ & _)%animate_Ok.
  rewrite Hloc in Hloc0. injection Hloc0 as <-. cbv zeta in Hbars.
  destruct (frame_locals_lengths cfg _ _ _ Hloc) as (Hip & Hiw & Hdl & Hal).
  destruct (first_frame_override_lengths cfg frame loc Hip Hdl Hal)
    as (_ & _ & Hdl' & Hal').
  apply draw_bars_Ok in Hbars as [Hblen Hbar].
  apply list_eq_same_length with top_n;
    [done | by rewrite length_fmap, Hblen |].
  intros i w w' Hi Hw Hw'.
  rewrite list_lookup_fmap in Hw.
  destruct (bars scene' !! i) as [bar|] eqn:Hbari; [|done].
  injection Hw as <-.
  destruct (Hbar i bar Hbari) as (active & Hactive & Hdrawn).
  destruct active.
  - destruct Hdrawn as (width & y & Hwidth & _ & ->). simpl. congruence.
  - subst bar. simpl.
    revert Hactive Hw'. unfold first_frame_override. case_decide; simpl.
    + intros _ Hw'. apply lookup_replicate in Hw' as [-> _]. done.
    + intros Hactive Hw'.
      pose proof Hloc as (_ & data & _ & _ & _ & _ & _ & _ & _ & _
                          & Hdisplay & Hact)%frame_locals_Ok.
      rewrite Hdisplay, list_lookup_fmap in Hw'.
      rewrite Hact, list_lookup_fmap in Hactive.
      destruct (shown cfg (names data) (loc_interp_widths loc) !! i)
        as [[d a]|] eqn:Hshown; [|done].
      simpl in *. injection Hw' as <-. injection Hactive as ->.
      unfold shown in Hshown. rewrite list_lookup_imap in Hshown.
      destruct (loc_interp_widths loc !! i) as [width|]; [|done].
      simpl in Hshown. unfold shown_width in Hshown.
      destruct (Qltb 0 width && _); by injection Hshown as <-.
Qed.

(** X11. After every frame the x-axis runs from 0 to 1.1 times the width
    of the widest bar: no bar is negative and none reaches past the
    axis. *)
Theorem bars_fit_in_xlim initial scene0 n :
  config_wf cfg → scene_wf cfg scene0 → (n < total_frames cfg)%nat →
  ∃ anim_state scene anim_state' scene' top,
    run cfg n initial scene0 = Ok (anim_state, scene) ∧
    animate cfg anim_state scene n = Ok (anim_state', scene') ∧
    xlim scene' = (0%Q, (top * (11 # 10))%Q) ∧
    (∃ bar, bar ∈ bars scene' ∧ bar_width bar = top) ∧
    Forall (λ bar, (0 <= bar_width bar)%Q ∧ (bar_width bar <= top)%Q ∧
                   (bar_width bar <= (xlim scene').2)%Q)
      (bars scene').
Proof.
  intros Hcfg Hscene Hn.
  destruct (run_frame cfg initial scene0 n Hcfg Hscene Hn)
    as (anim_state & scene & snap & loc & anim_state' & scene' & Hrun
        & [Hbl Htl] & _ & _ & _ & _ & Hloc & _ & _ & _ & Hstep & _ & _).
  destruct (animate_xlim cfg _ _ _ _ _ _ Hloc Hstep) as [Hne Hxlim].
  pose proof (bar_widths_are_display_widths _ _ _ _ _ _ Hloc Hstep Hbl)
    as Hwidths.
  pose proof (display_widths_nonneg _ _ _ Hloc) as Hnonneg.
  cbv zeta in *.
  set (display := loc_display_widths (first_frame_override cfg n loc)) in *.
  destruct (max_or_one_max display Hne) as [Hge Hin].
  exists anim_state, scene, anim_state', scene', (max_or_one display).
  repeat (split; [done|]).
  set (top := max_or_one display) in *.
  rewrite <- Hwidths in Hge, Hin, Hnonneg. clearbody top.
  split.
  { apply list_elem_of_fmap in Hin as (bar & Hbw & Hbar). by exists bar. }
  rewrite Forall_fmap in Hge, Hnonneg.
  assert (0 <= top)%Q as Htop.
  { apply list_elem_of_fmap in Hin as (bar & -> & Hbar).
    rewrite Forall_forall in Hnonneg. by apply Hnonneg. }
  rewrite Forall_forall in Hge, Hnonneg. apply Forall_forall.
  intros bar Hbar. specialize (Hge bar Hbar). specialize (Hnonneg bar Hbar).
  simpl in *. rewrite Hxlim. simpl. repeat split; [done..|]. lra.
Qed.

(** X12. The value text of a visible bar starts right of the bar's end,
    by 3 % of the widest bar and at least 0.01, is centred on the bar
    vertically, and prints the interpolated width, not the displayed
    one. *)
Theorem value_text_beside_bar initial scene0 n :
  config_wf cfg → scene_wf cfg scene0 → (n < total_frames cfg)%nat →
  n ≠ 0%nat →
  ∃ anim_state scene loc anim_state' scene' top,
    run cfg n initial scene0 = Ok (anim_state, scene) ∧
    frame_locals cfg anim_state n = Ok loc ∧
    animate cfg anim_state scene n = Ok (anim_state', scene') ∧
    xlim scene' = (0%Q, (top * (11 # 10))%Q) ∧
    ∀ i bar,
      bars scene' !! i = Some bar → bar_visible bar = true →
      ∃ width txt,
        loc_interp_widths loc !! i = Some width ∧
        text_objects scene' !! i = Some txt ∧
        text_visible txt = true ∧
        text_string txt = format_value width ∧
        (text_position txt).1
        = (bar_width bar + Qmax (1 # 100) (top * (3 # 100)))%Q ∧
        (bar_width bar + (1 # 100) <= (text_position txt).1)%Q ∧
        ((text_position txt).2 == bar_y bar + cfg_bar_height cfg / 2)%Q.
Proof.
  intros Hcfg Hscene Hn Hne.
  destruct (run_frame cfg initial scene0 n Hcfg Hscene Hn)
    as (anim_state & scene & snap & loc & anim_state' & scene' & Hrun
        & Hwf & _ & _ & _ & _ & Hloc & _ & _ & _ & Hstep & _ & [Hbl' _]).
  destruct (animate_xlim cfg _ _ _ _ _ _ Hloc Hstep) as [_ Hxlim].
  unfold first_frame_override in Hxlim.
  rewrite decide_False in Hxlim by done.
  exists anim_state, scene, loc, anim_state', scene',
    (max_or_one (loc_display_widths loc)).
  repeat (split; [done|]). intros i bar Hbar Hvisible.
  assert (i < top_n)%nat as Hi.
  { rewrite <- Hbl'. by eapply lookup_lt_Some. }
  destruct (animate_slot cfg _ _ _ _ _ _ i Hloc Hstep Hne Hwf Hi)
    as (width & y & bar0 & txt0 & txt & Hwidth & _ & Hbar0 & _ & Htxt
        & Hslot).
  rewrite Hbar in Hbar0. injection Hbar0 as <-.
  destruct (Qltb 0 width && _).
  2:{ destruct Hslot as (_ & -> & _). done. }
  destruct Hslot as (_ & -> & ->). simpl.
  exists width. eexists. repeat (split; [done|]). simpl. split.
  - apply Qplus_le_r. apply Qle_Qmax_l.
  - field.
Qed.

(** X13. Frame 0 draws nothing, whatever state and figure it starts
    from: every bar is hidden with width 0 at y = -1, every value text
    is hidden and otherwise unchanged, and both x-axis limits are 0. *)
Theorem first_frame_hides_everything anim_state scene :
  config_wf cfg → scene_wf cfg scene → cfg_timestamps cfg ≠ [] →
  ∃ anim_state' scene',
    animate cfg anim_state scene 0 = Ok (anim_state', scene') ∧
    bars scene'
    = replicate top_n
        {| bar_width := 0%Q; bar_y := (-1)%Q; bar_visible := false |} ∧
    text_objects scene' = hide <$> text_objects scene ∧
    (xlim scene').1 = 0%Q ∧ ((xlim scene').2 == 0)%Q ∧
    prev_interp_positions anim_state'
    = (if decide (interp_steps = 1%nat) then target_positions top_n
       else replicate top_n off_screen).
Proof.
  intros Hcfg [Hbl Htl] Hts.
  pose proof Hcfg as (HK & Htop & _).
  assert (0 `div` interp_steps = 0)%nat as Hdiv by by apply Nat.Div0.div_0_l.
  destruct (snapshot_of_wf cfg 0 Hcfg) as (snap & Hsnap & Hwlen & Hnlen).
  { destruct (cfg_timestamps cfg); [done | simpl; lia]. }
  destruct (frame_locals_total cfg anim_state 0 snap (target_positions top_n)
              (replicate top_n off_screen)) as [loc Hloc].
  { lia. } { by rewrite Hdiv. } { apply frame_positions_first. }
  { by rewrite target_positions_length. } { by rewrite length_replicate. }
  { lia. }
  destruct (animate_total cfg anim_state scene 0 loc Hloc Htop)
    as (anim_state' & scene' & Hstep & [Hbl' Htl'] & Hnext); [done|].
  exists anim_state', scene'. split; [done|].
  pose proof (bar_widths_are_display_widths _ _ _ _ _ _ Hloc Hstep Hbl)
    as Hwidths.
  destruct (animate_xlim cfg _ _ _ _ _ _ Hloc Hstep) as [_ Hxlim].
  pose proof Hstep as (loc0 & Hloc0 & Hbars & Htxt & _)%animate_Ok.
  rewrite Hloc in Hloc0. injection Hloc0 as <-.
  cbv zeta in *. unfold first_frame_override in *.
  rewrite decide_True in * by done. simpl in *.
  apply draw_bars_Ok in Hbars as [_ Hbar]. simpl in Hbar.
  apply draw_texts_Ok in Htxt as [_ Htext]; [|lia].
  split.
  { apply list_eq_same_length with top_n;
      [by rewrite length_replicate | done |].
    intros i bar bar' Hi Hb Hb'.
    apply lookup_replicate in Hb' as [-> _].
    destruct (Hbar i bar Hb) as (active & Hactive & Hdrawn).
    apply lookup_replicate in Hactive as [-> _]. done. }
  split.
  { apply list_eq_same_length with top_n;
      [by rewrite length_fmap | done |].
    intros i txt txt' Hi Ht Ht'.
    destruct (Htext i Hi)
      as (text_x & y & has_data & txt0 & txt1 & _ & _ & _ & Htxt0 & Htxt1
          & Hdrawn).
    rewrite decide_True in Hdrawn by done.
    rewrite list_lookup_fmap, Htxt0 in Ht'. simpl in Ht'.
    congruence. }
  rewrite Hxlim. simpl.
  split; [done|]. split.
  { destruct top_n as [|k] eqn:Hk; [lia|]. simpl.
    rewrite column_max_zeros. reflexivity. }
  rewrite Hnext. unfold next_state. rewrite Nat.Div0.mod_0_l.
  repeat case_decide; simpl; try done; lia.
Qed.
End drawn_frames.

(** ** From the table to the last frame *)

Section whole_run.
Context (textwrap_fill : string → nat → string).
Context (quicksort : sorter Cumulative_desc).

(** X14. The snapshots [precompute_data] returns are all [animate]
    needs: with at least one slot and one sub-frame per snapshot, the
    frames [0 .. total_frames - 1] all run without an error and there is
    at least one of them, while a frame at or past [total_frames] raises
    [IndexError] from any state. *)
Theorem animation_runs_on_precomputed_data monthly_df selected_attribute
    top_n start_date end_date timestamps data interp_steps bar_height
    initial scene0 :
  precompute_data textwrap_fill quicksort monthly_df selected_attribute
    top_n start_date end_date = Ok (timestamps, data) →
  (0 < interp_steps)%nat → (0 < top_n)%nat →
  let cfg := {| cfg_top_n := top_n;
                cfg_interp_steps := interp_steps;
                cfg_timestamps := timestamps;
                cfg_precomputed_data := data;
                cfg_bar_height := bar_height |} in
  scene_wf cfg scene0 →
  (0 < total_frames cfg)%nat ∧
  (∀ n, (n ≤ total_frames cfg)%nat →
     ∃ anim_state scene,
       run cfg n initial scene0 = Ok (anim_state, scene) ∧
       scene_wf cfg scene) ∧
  ∀ anim_state scene frame,
    (total_frames cfg ≤ frame)%nat →
    animate cfg anim_state scene frame = Raise IndexError.
Proof.
  intros Hdata HK Htop cfg Hscene.
  pose proof (precompute_data_config_wf textwrap_fill quicksort _ _ _ _ _ _ _
                interp_steps bar_height Hdata HK Htop) as Hcfg.
  fold cfg in Hcfg.
  split; [|split].
  - apply precompute_data_Ok in Hdata as [Hts _].
    apply sample_timestamps_Ok in Hts as (_ & Hlast & _).
    unfold total_frames. simpl.
    destruct timestamps; [done|]. simpl. lia.
  - intros n Hn.
    destruct (run_total cfg initial scene0 n Hcfg Hscene Hn)
      as (anim_state & scene & Hrun & Hwf & _).
    by exists anim_state, scene.
  - intros anim_state scene frame Hframe.
    unfold animate, frame_locals. simpl.
    rewrite decide_False by lia.
    assert (length timestamps ≤ frame `div` interp_steps)%nat as Hge.
    { apply Nat.div_le_lower_bound; [lia|].
      unfold total_frames in Hframe. simpl in Hframe. lia. }
    unfold getitem. rewrite lookup_ge_None_2 by done. done.
Qed.
End whole_run.

Section transitions.
Context (cfg : Config).

Local Abbreviation top_n := (cfg_top_n cfg).
Local Abbreviation interp_steps := (cfg_interp_steps cfg).

(** X15. The last sub-frame of every transition shows the target
    snapshot exactly: every slot has the width the new snapshot gives it
    and stands on its target position, whatever the widths and
    positions the transition started from. *)
Theorem transition_reaches_target initial scene0 m prev new :
  config_wf cfg → scene_wf cfg scene0 →
  (S m < length (cfg_timestamps cfg))%nat →
  snapshot_of cfg m = Some prev → snapshot_of cfg (S m) = Some new →
  ∃ anim_state scene loc,
    let last := (S m * interp_steps + (interp_steps - 1))%nat in
    run cfg last initial scene0 = Ok (anim_state, scene) ∧
    frame_locals cfg anim_state last = Ok loc ∧
    ∀ i, (i < top_n)%nat →
      ∃ tw tp w y,
        widths new !! i = Some tw ∧
        target_positions top_n !! i = Some tp ∧
        loc_interp_widths loc !! i = Some w ∧
        loc_interp_positions loc !! i = Some y ∧
        (w == tw)%Q ∧ (y == tp)%Q.
Proof.
  intros Hcfg Hscene Hm Hprev Hnew.
  by destruct (transition_endpoints cfg initial scene0 m prev new
                 Hcfg Hscene Hm Hprev Hnew) as [_ Hlast].
Qed.
End transitions.

(** ** The layout of the figure *)

(** X16. [int(bar_height * scale_factor)] has a value exactly for
    [top_n] from 1 to 10: for any other [top_n] both table lookups give
    [None] and the set-up stops there. *)
Theorem target_size_defined_iff (top_n : nat) :
  is_Some (target_size top_n) ↔ (1 ≤ top_n ≤ 10)%nat.
Proof.
  split.
  - intros [size Hsize].
    do 11 (destruct top_n as [|top_n]; [try done; lia|]). done.
  - intros [H1 H10].
    do 11 (destruct top_n as [|top_n]; [try lia; by eexists|]). lia.
Qed.

Lemma ylim_positions (top_n : nat) :
  top_n ≠ 1%nat →
  (λ i : nat,
     (89 # 10) - inject_Z (Z.of_nat i)
                 * ((86 # 10) / inject_Z (Z.of_nat top_n - 1)))%Q
    <$> seq 0 top_n
  = target_positions top_n.
Proof. intros Hne. unfold target_positions. by rewrite decide_False. Qed.

(** X17. For every supported [top_n], with the bar height of the table:
    a bar at rest on its target position lies inside the limits of the
    y-axis, and the bar of the next rank lies wholly below it. *)
Theorem resting_bars_inside_ylim (top_n : nat) (h : Q) :
  bar_height top_n = Some h →
  ∃ lo hi,
    ylim top_n h = Ok (lo, hi) ∧
    (∀ i p, target_positions top_n !! i = Some p →
       (lo <= p - h / 2)%Q ∧ (p + h / 2 <= hi)%Q) ∧
    (∀ i p q,
       target_positions top_n !! i = Some p →
       target_positions top_n !! S i = Some q →
       (q + h / 2 <= p - h / 2)%Q).
Proof.
  intros Hh. destruct top_n as [|top_n]; [done|].
  do 10 (destruct top_n as [|top_n];
         [injection Hh as <-; eexists _, _;
          split; [vm_compute; reflexivity|]; split;
          [intros i p Hi; vm_compute in Hi;
           do 10 (destruct i as [|i];
                  [first [discriminate Hi
                         | injection Hi as <-; split; by vm_compute]|]);
           discriminate Hi
          |intros i p q Hi Hj; vm_compute in Hi, Hj;
           do 10 (destruct i as [|i];
                  [first [discriminate Hi | discriminate Hj
                         | injection Hi as <-; injection Hj as <-;
                           by vm_compute]|]);
           discriminate Hi]|]).
  done.
Qed.

(** X18. A bar centred on the off-screen position -1 is wholly below the
    y-axis only for [top_n = 1] and for [top_n] from 6 to 10; for [top_n]
    from 2 to 5 its upper edge is above the lower limit of the axis. *)
Theorem off_screen_bar_below_ylim_iff (top_n : nat) (h lo hi : Q) :
  bar_height top_n = Some h → ylim top_n h = Ok (lo, hi) →
  (off_screen + h / 2 <= lo)%Q ↔ (top_n = 1 ∨ 6 ≤ top_n)%nat.
Proof.
  intros Hh Hylim. destruct top_n as [|top_n]; [done|].
  do 10 (destruct top_n as [|top_n];
         [injection Hh as <-; vm_compute in Hylim;
          injection Hylim as <- <-;
          split; [intros Hle; first [lia | by vm_compute in Hle]
                 |intros Hn; first [by vm_compute | lia]]|]).
  done.
Qed.

(** ** Worked instances of the further properties *)

Lemma positions_never_clipped_witness :
  (config_wf swap_config ∧ scene_wf swap_config swap_scene ∧
   (3 < total_frames swap_config)%nat) ∧
  ∃ anim_state scene loc,
      run swap_config 3%nat swap_initial swap_scene = Ok (anim_state, scene) ∧
      frame_locals swap_config anim_state 3%nat = Ok loc ∧
      ∀ i, (i < (cfg_top_n swap_config))%nat →
        ∃ s p y,
          loc_start_positions loc !! i = Some s ∧
          target_positions (cfg_top_n swap_config) !! i = Some p ∧
          loc_interp_positions loc !! i = Some y ∧
          (-1 <= s)%Q ∧ (s <= 9)%Q ∧
          (y == s + (p - s) * loc_t_eased loc)%Q ∧
          (Qmin s p <= y)%Q ∧ (y <= Qmax s p)%Q.
Proof.
  assert (3 < total_frames swap_config)%nat as Hn
    by (unfold total_frames; simpl; lia).
  split.
  - split; [exact swap_config_wf|]. split; [exact swap_scene_wf|].
    exact Hn.
  - exact (positions_never_clipped swap_config swap_initial swap_scene 3
             swap_config_wf swap_scene_wf Hn).
Defined.

Lemma widths_never_overshoot_witness :
  (config_wf swap_config ∧ scene_wf swap_config swap_scene ∧
   (3 < total_frames swap_config)%nat) ∧
  ∃ anim_state scene loc target,
      run swap_config 3%nat swap_initial swap_scene = Ok (anim_state, scene) ∧
      frame_locals swap_config anim_state 3%nat = Ok loc ∧
      snapshot_of swap_config (3%nat `div` (cfg_interp_steps swap_config)) = Some target ∧
      ∀ i, (i < (cfg_top_n swap_config))%nat →
        ∃ w v,
          widths target !! i = Some w ∧
          loc_interp_widths loc !! i = Some v ∧
          let p :=
            default 0%Q
              (baseline_widths swap_config swap_initial (3%nat `div` (cfg_interp_steps swap_config)) !! i) in
          (Qmin p w <= v)%Q ∧ (v <= Qmax p w)%Q ∧
          ((0 <= p)%Q → (0 <= w)%Q → (0 <= v)%Q).
Proof.
  assert (3 < total_frames swap_config)%nat as Hn
    by (unfold total_frames; simpl; lia).
  split.
  - split; [exact swap_config_wf|]. split; [exact swap_scene_wf|].
    exact Hn.
  - exact (widths_never_overshoot swap_config swap_initial swap_scene 3
             swap_config_wf swap_scene_wf Hn).
Defined.

Lemma bar_shown_iff_value_and_name_witness :
  (config_wf swap_config ∧ scene_wf swap_config swap_scene ∧
   (3 < total_frames swap_config)%nat ∧ 3%nat ≠ 0%nat) ∧
  ∃ anim_state scene loc anim_state' scene',
      run swap_config 3%nat swap_initial swap_scene = Ok (anim_state, scene) ∧
      frame_locals swap_config anim_state 3%nat = Ok loc ∧
      animate swap_config anim_state scene 3%nat = Ok (anim_state', scene') ∧
      ∀ i, (i < (cfg_top_n swap_config))%nat →
        ∃ width name bar txt0 txt,
          loc_interp_widths loc !! i = Some width ∧
          loc_names loc !! i = Some name ∧
          bars scene' !! i = Some bar ∧
          text_objects scene !! i = Some txt0 ∧
          text_objects scene' !! i = Some txt ∧
          (bar_visible bar = true ↔ (0 < width)%Q ∧ name ≠ ""%string) ∧
          text_visible txt = bar_visible bar ∧
          (bar_visible bar = false →
             bar_width bar = 0%Q ∧ bar_y bar = (-1)%Q ∧ txt = hide txt0).
Proof.
  assert (3 < total_frames swap_config)%nat as Hn
    by (unfold total_frames; simpl; lia).
  assert (3 ≠ 0)%nat as Hne by lia.
  split.
  - split; [exact swap_config_wf|]. split; [exact swap_scene_wf|].
    split; [exact Hn | exact Hne].
  - exact (bar_shown_iff_value_and_name swap_config swap_initial swap_scene 3
             swap_config_wf swap_scene_wf Hn Hne).
Defined.

Lemma displayed_width_bounds_witness :
  (config_wf swap_config ∧ scene_wf swap_config swap_scene ∧
   (3 < total_frames swap_config)%nat ∧ 3%nat ≠ 0%nat) ∧
  ∃ anim_state scene loc anim_state' scene',
      run swap_config 3%nat swap_initial swap_scene = Ok (anim_state, scene) ∧
      frame_locals swap_config anim_state 3%nat = Ok loc ∧
      animate swap_config anim_state scene 3%nat = Ok (anim_state', scene') ∧
      ∀ i width name,
        loc_interp_widths loc !! i = Some width →
        loc_names loc !! i = Some name →
        (0 < width)%Q → name ≠ ""%string →
        ∃ bar,
          bars scene' !! i = Some bar ∧
          (width <= bar_width bar)%Q ∧
          (bar_width bar <= loc_max_width loc)%Q ∧
          ((loc_max_width loc <= width)%Q → (bar_width bar == width)%Q) ∧
          ∀ j width' name' ,
            loc_interp_widths loc !! j = Some width' →
            loc_names loc !! j = Some name' →
            (0 < width')%Q → name' ≠ ""%string →
            (width <= width')%Q →
            ∃ bar', bars scene' !! j = Some bar' ∧
                    (bar_width bar <= bar_width bar')%Q.
Proof.
  assert (3 < total_frames swap_config)%nat as Hn
    by (unfold total_frames; simpl; lia).
  assert (3 ≠ 0)%nat as Hne by lia.
  split.
  - split; [exact swap_config_wf|]. split; [exact swap_scene_wf|].
    split; [exact Hn | exact Hne].
  - exact (displayed_width_bounds swap_config swap_initial swap_scene 3
             swap_config_wf swap_scene_wf Hn Hne).
Defined.

Lemma bars_fit_in_xlim_witness :
  (config_wf swap_config ∧ scene_wf swap_config swap_scene ∧
   (3 < total_frames swap_config)%nat) ∧
  ∃ anim_state scene anim_state' scene' top,
      run swap_config 3%nat swap_initial swap_scene = Ok (anim_state, scene) ∧
      animate swap_config anim_state scene 3%nat = Ok (anim_state', scene') ∧
      xlim scene' = (0%Q, (top * (11 # 10))%Q) ∧
      (∃ bar, bar ∈ bars scene' ∧ bar_width bar = top) ∧
      Forall (λ bar, (0 <= bar_width bar)%Q ∧ (bar_width bar <= top)%Q ∧
                     (bar_width bar <= (xlim scene').2)%Q)
        (bars scene').
Proof.
  assert (3 < total_frames swap_config)%nat as Hn
    by (unfold total_frames; simpl; lia).
  split.
  - split; [exact swap_config_wf|]. split; [exact swap_scene_wf|].
    exact Hn.
  - exact (bars_fit_in_xlim swap_config swap_initial swap_scene 3
             swap_config_wf swap_scene_wf Hn).
Defined.

Lemma value_text_beside_bar_witness :
  (config_wf swap_config ∧ scene_wf swap_config swap_scene ∧
   (3 < total_frames swap_config)%nat ∧ 3%nat ≠ 0%nat) ∧
  ∃ anim_state scene loc anim_state' scene' top,
      run swap_config 3%nat swap_initial swap_scene = Ok (anim_state, scene) ∧
      frame_locals swap_config anim_state 3%nat = Ok loc ∧
      animate swap_config anim_state scene 3%nat = Ok (anim_state', scene') ∧
      xlim scene' = (0%Q, (top * (11 # 10))%Q) ∧
      ∀ i bar,
        bars scene' !! i = Some bar → bar_visible bar = true →
        ∃ width txt,
          loc_interp_widths loc !! i = Some width ∧
          text_objects scene' !! i = Some txt ∧
          text_visible txt = true ∧
          text_string txt = format_value width ∧
          (text_position txt).1
          = (bar_width bar + Qmax (1 # 100) (top * (3 # 100)))%Q ∧
          (bar_width bar + (1 # 100) <= (text_position txt).1)%Q ∧
          ((text_position txt).2 == bar_y bar + cfg_bar_height swap_config / 2)%Q.
Proof.
  assert (3 < total_frames swap_config)%nat as Hn
    by (unfold total_frames; simpl; lia).
  assert (3 ≠ 0)%nat as Hne by lia.
  split.
  - split; [exact swap_config_wf|]. split; [exact swap_scene_wf|].
    split; [exact Hn | exact Hne].
  - exact (value_text_beside_bar swap_config swap_initial swap_scene 3
             swap_config_wf swap_scene_wf Hn Hne).
Defined.

Lemma first_frame_hides_everything_witness :
  (config_wf swap_config ∧ scene_wf swap_config swap_scene ∧
   cfg_timestamps swap_config ≠ []) ∧
  ∃ anim_state' scene',
      animate swap_config swap_initial swap_scene 0 = Ok (anim_state', scene') ∧
      bars scene'
      = replicate (cfg_top_n swap_config)
          {| bar_width := 0%Q; bar_y := (-1)%Q; bar_visible := false |} ∧
      text_objects scene' = hide <$> text_objects swap_scene ∧
      (xlim scene').1 = 0%Q ∧ ((xlim scene').2 == 0)%Q ∧
      prev_interp_positions anim_state'
      = (if decide ((cfg_interp_steps swap_config) = 1%nat) then target_positions (cfg_top_n swap_config)
         else replicate (cfg_top_n swap_config) off_screen).
Proof.
  assert (cfg_timestamps swap_config ≠ []) as Hts by done.
  split.
  - split; [exact swap_config_wf|]. split; [exact swap_scene_wf | exact Hts].
  - exact (first_frame_hides_everything swap_config swap_initial swap_scene
             swap_config_wf swap_scene_wf Hts).
Defined.

Lemma transition_reaches_target_witness :
  (config_wf swap_config ∧ scene_wf swap_config swap_scene ∧
   (1 < length (cfg_timestamps swap_config))%nat ∧
   snapshot_of swap_config 0 = Some swap_before ∧
   snapshot_of swap_config 1 = Some swap_after) ∧
  ∃ anim_state scene loc,
      let last := (1 * (cfg_interp_steps swap_config) + ((cfg_interp_steps swap_config) - 1))%nat in
      run swap_config last swap_initial swap_scene = Ok (anim_state, scene) ∧
      frame_locals swap_config anim_state last = Ok loc ∧
      ∀ i, (i < (cfg_top_n swap_config))%nat →
        ∃ tw tp w y,
          widths swap_after !! i = Some tw ∧
          target_positions (cfg_top_n swap_config) !! i = Some tp ∧
          loc_interp_widths loc !! i = Some w ∧
          loc_interp_positions loc !! i = Some y ∧
          (w == tw)%Q ∧ (y == tp)%Q.
Proof.
  assert (1 < length (cfg_timestamps swap_config))%nat as Hlen
    by (simpl; lia).
  split.
  - split; [exact swap_config_wf|]. split; [exact swap_scene_wf|].
    split; [exact Hlen|]. split; reflexivity.
  - exact (transition_reaches_target swap_config swap_initial swap_scene 0
             swap_before swap_after swap_config_wf swap_scene_wf Hlen
             eq_refl eq_refl).
Defined.

Lemma snapshot_widths_grow_witness :
  let table := with_timestamps three_artists in
  let snap1 :=
    snapshot_at no_wrap stable_quicksort table artist_name 5
      (Timedelta_days 6) in
  let snap2 :=
    snapshot_at no_wrap stable_quicksort table artist_name 5
      (Timedelta_days 10) in
  (Timedelta_days 6 ≤ Timedelta_days 10 ∧
   (0 < 5 `min` entities_with_data table (Timedelta_days 6))%nat ∧
   (1 < 5 `min` entities_with_data table (Timedelta_days 10))%nat ∧
   names snap1 !! 0%nat = Some "B"%string ∧
   widths snap1 !! 0%nat = Some 80%Q ∧
   names snap2 !! 1%nat = Some "B"%string ∧
   widths snap2 !! 1%nat = Some 80%Q) ∧
  (80 <= 80)%Q.
Proof.
  intros table snap1 snap2.
  assert (Timedelta_days 6 ≤ Timedelta_days 10) as Hts by by vm_compute.
  assert (0 < 5 `min` entities_with_data table (Timedelta_days 6))%nat as Hi
    by (vm_compute; lia).
  assert (1 < 5 `min` entities_with_data table (Timedelta_days 10))%nat as Hj
    by (vm_compute; lia).
  assert (names snap1 !! 0%nat = Some "B"%string) as Hn1 by by vm_compute.
  assert (widths snap1 !! 0%nat = Some 80%Q) as Hw1 by by vm_compute.
  assert (names snap2 !! 1%nat = Some "B"%string) as Hn2 by by vm_compute.
  assert (widths snap2 !! 1%nat = Some 80%Q) as Hw2 by by vm_compute.
  split; [done|].
  exact (snapshot_widths_grow no_wrap stable_quicksort table artist_name 5
           (Timedelta_days 6) (Timedelta_days 10) 0 1 "B" 80 80
           Hts Hi Hj Hn1 Hw1 Hn2 Hw2).
Defined.

Lemma aggregate_Cumulative_nonneg_witness :
  Forall (λ e, (0 <= ev_duration_ms e)%Q) two_intros ∧
  Forall (λ r, (0 <= col_Cumulative r)%Q)
    (aggregate stable_sort_by_Date duration_ms track_name two_intros).
Proof.
  assert (Forall (λ e, (0 <= ev_duration_ms e)%Q) two_intros) as Hdf.
  { repeat constructor; simpl; unfold Qle; simpl; lia. }
  split; [exact Hdf|].
  exact (aggregate_Cumulative_nonneg stable_sort_by_Date duration_ms
           track_name two_intros Hdf).
Defined.

Lemma quadratic_ease_in_out_unit_interval_witness :
  ((0 <= 1 # 4)%Q ∧ (1 # 4 <= 1 # 2)%Q ∧ (1 # 2 <= 1)%Q) ∧
  (0 <= quadratic_ease_in_out (1 # 4))%Q ∧
  (quadratic_ease_in_out (1 # 4) <= quadratic_ease_in_out (1 # 2))%Q ∧
  (quadratic_ease_in_out (1 # 2) <= 1)%Q ∧
  (quadratic_ease_in_out (1 - (1 # 4)) == 1 - quadratic_ease_in_out (1 # 4))%Q.
Proof.
  assert (0 <= 1 # 4)%Q as Ha by by vm_compute.
  assert (1 # 4 <= 1 # 2)%Q as Hab by by vm_compute.
  assert (1 # 2 <= 1)%Q as Hb by by vm_compute.
  split; [done|].
  exact (quadratic_ease_in_out_unit_interval (1 # 4) (1 # 2) Ha Hab Hb).
Defined.

Lemma animation_runs_on_precomputed_data_witness :
  ∃ timestamps data,
    let cfg := {| cfg_top_n := 5;
                  cfg_interp_steps := 2;
                  cfg_timestamps := timestamps;
                  cfg_precomputed_data := data;
                  cfg_bar_height := 14 # 10 |} in
    (precompute_data no_wrap stable_quicksort three_artists artist_name 5
       0 (Timedelta_days 10) = Ok (timestamps, data) ∧
     (0 < 2)%nat ∧ (0 < 5)%nat ∧
     scene_wf cfg (initial_scene 5 (14 # 10))) ∧
    (0 < total_frames cfg)%nat ∧
    (∀ n, (n ≤ total_frames cfg)%nat →
       ∃ anim_state scene,
         run cfg n (initial_state 5 [] []) (initial_scene 5 (14 # 10))
           = Ok (anim_state, scene) ∧
         scene_wf cfg scene) ∧
    ∀ anim_state scene frame,
      (total_frames cfg ≤ frame)%nat →
      animate cfg anim_state scene frame = Raise IndexError.
Proof.
  destruct three_artists_timestamps as [data Hdata].
  exists [Timedelta_days 6; Timedelta_days 10], data. intros cfg.
  assert (0 < 2)%nat as HK by lia.
  assert (0 < 5)%nat as Htop by lia.
  assert (scene_wf cfg (initial_scene 5 (14 # 10))) as Hscene
    by (split; reflexivity).
  split; [done|].
  exact (animation_runs_on_precomputed_data no_wrap stable_quicksort
           three_artists artist_name 5 0 (Timedelta_days 10)
           [Timedelta_days 6; Timedelta_days 10] data 2 (14 # 10)
           (initial_state 5 [] []) (initial_scene 5 (14 # 10))
           Hdata HK Htop Hscene).
Defined.

Lemma resting_bars_inside_ylim_witness :
  bar_height 5 = Some (14 # 10)%Q ∧
  ∃ lo hi,
    ylim 5 (14 # 10) = Ok (lo, hi) ∧
    (∀ i p, target_positions 5 !! i = Some p →
       (lo <= p - (14 # 10) / 2)%Q ∧ (p + (14 # 10) / 2 <= hi)%Q) ∧
    (∀ i p q,
       target_positions 5 !! i = Some p →
       target_positions 5 !! S i = Some q →
       (q + (14 # 10) / 2 <= p - (14 # 10) / 2)%Q).
Proof.
  split; [reflexivity|].
  exact (resting_bars_inside_ylim 5 (14 # 10) eq_refl).
Defined.

Lemma off_screen_bar_below_ylim_iff_witness :
  ∃ lo hi,
    (bar_height 5 = Some (14 # 10)%Q ∧ ylim 5 (14 # 10) = Ok (lo, hi)) ∧
    ((off_screen + (14 # 10) / 2 <= lo)%Q ↔ (5 = 1 ∨ 6 ≤ 5)%nat).
Proof.
  destruct (ylim 5 (14 # 10)) as [[lo hi]|err] eqn:Hylim;
    [|by vm_compute in Hylim].
  exists lo, hi. split; [split; [reflexivity | reflexivity]|].
  exact (off_screen_bar_below_ylim_iff 5 (14 # 10) lo hi eq_refl Hylim).
Defined.
